(** * uuidkey: Base32-Crockford UUID keys and compound API keys

    A shallow embedding of the TypeScript sources [key.ts], [apikey.ts] and
    [types.ts], together with the library routines they call, and the
    properties of the key codec and of the compound key format. *)

From Stdlib Require Import String Ascii DecimalString.
From Stdlib Require Import List NArith ZArith Arith Bool Lia.
Import ListNotations.
Local Close Scope string_scope.
Local Open Scope list_scope.

Set Implicit Arguments.

(** ** JavaScript strings

    A JavaScript string is a sequence of UTF-16 code units; [length],
    indexing and [slice] count code units. *)

Abbreviation jsstring := (list N).

(** A literal: the code units of an ASCII text. *)
Definition str (s : string) : jsstring :=
  map N_of_ascii (list_ascii_of_string s).

Module JS.

(** [s.slice(a, b)] for [0 <= a], [0 <= b]: both ends are clamped to the
    length, and the result is empty when [b <= a]. *)
Definition slice (a b : nat) (s : jsstring) : jsstring :=
  firstn (b - a) (skipn a s).

(** [s.slice(a)] and, for a non-negative start, [s.substring(a)]. *)
Definition sliceFrom (a : nat) (s : jsstring) : jsstring := skipn a s.

(** [s[i]]: [None] stands for [undefined]. *)
Definition at_ (s : jsstring) (i : nat) : option N := nth_error s i.

(** [s.padStart(n, c)] for a one-unit filler [c]. *)
Definition padStart (n : nat) (c : N) (s : jsstring) : jsstring :=
  repeat c (n - length s) ++ s.

(** [toUpperCase] and [toLowerCase] on the ASCII letters.  Every string the
    sources pass to them is ASCII; other code units are left as they are. *)
Definition upperUnit (c : N) : N :=
  if (97 <=? c)%N && (c <=? 122)%N then (c - 32)%N else c.
Definition lowerUnit (c : N) : N :=
  if (65 <=? c)%N && (c <=? 90)%N then (c + 32)%N else c.
Definition toUpperCase (s : jsstring) : jsstring := map upperUnit s.
Definition toLowerCase (s : jsstring) : jsstring := map lowerUnit s.

(** [s === t] on strings. *)
Definition eqb (s t : jsstring) : bool :=
  if list_eq_dec N.eq_dec s t then true else false.

(** [s.split(sep)] for a one-unit separator: the pieces between the
    separators, one more than there are separators. *)
Fixpoint split (sep : N) (s : jsstring) : list jsstring :=
  match s with
  | [] => [[]]
  | c :: t =>
      if (c =? sep)%N then [] :: split sep t
      else match split sep t with
           | [] => [[c]]
           | p :: ps => (c :: p) :: ps
           end
  end.

(** [parts.join(sep)]. *)
Fixpoint join (sep : jsstring) (parts : list jsstring) : jsstring :=
  match parts with
  | [] => []
  | [p] => p
  | p :: ps => p ++ sep ++ join sep ps
  end.

End JS.

(** ** Results of fallible operations: a value, or the [Error] thrown. *)

Inductive error : Type :=
| InvalidKeyFormat          (* 'Invalid Key format' (Key constructor) *)
| InvalidUUIDKeyParse       (* 'Invalid UUID Key' (Key.parse) *)
| InvalidUUIDKeyToUUID      (* 'Invalid UUID key' (Key.toUUID) *)
| InvalidUUIDLength         (* 'Invalid UUID length' *)
| PrefixCannotBeEmpty       (* 'prefix cannot be empty' *)
| UUIDNot16Bytes            (* 'UUID must be exactly 16 bytes' *)
| InvalidAPIKeyFormat       (* 'invalid APIKey format' *)
| WrongPartCount (n : nat)  (* 'invalid APIKey format: expected 3 parts, got n' *)
| InvalidPrefixEmpty        (* 'invalid prefix: cannot be empty' *)
| InsufficientLength        (* 'invalid Key format: insufficient length' *)
| InvalidChecksumFormat     (* 'invalid checksum format: must be 8 hexadecimal characters' *)
| InvalidChecksum (expected actual : jsstring)
                            (* 'invalid checksum: expected E, got A' *)
| NotHexEncoded             (* c32check: 'Not a hex-encoded string' *)
| NotC32Encoded             (* c32check: 'Not a c32-encoded string' *)
| DecodingPanic.            (* c32check: 'Panic error in decoding.' *)

(** The message of each error. *)
Definition decimal (n : nat) : jsstring :=
  str (NilZero.string_of_uint (Nat.to_uint n)).

Definition message (e : error) : jsstring :=
  match e with
  | InvalidKeyFormat => str "Invalid Key format"
  | InvalidUUIDKeyParse => str "Invalid UUID Key"
  | InvalidUUIDKeyToUUID => str "Invalid UUID key"
  | InvalidUUIDLength => str "Invalid UUID length"
  | PrefixCannotBeEmpty => str "prefix cannot be empty"
  | UUIDNot16Bytes => str "UUID must be exactly 16 bytes"
  | InvalidAPIKeyFormat => str "invalid APIKey format"
  | WrongPartCount n =>
      str "invalid APIKey format: expected 3 parts, got " ++ decimal n
  | InvalidPrefixEmpty => str "invalid prefix: cannot be empty"
  | InsufficientLength => str "invalid Key format: insufficient length"
  | InvalidChecksumFormat =>
      str "invalid checksum format: must be 8 hexadecimal characters"
  | InvalidChecksum expected actual =>
      str "invalid checksum: expected " ++ expected ++ str ", got " ++ actual
  | NotHexEncoded => str "Not a hex-encoded string"
  | NotC32Encoded => str "Not a c32-encoded string"
  | DecodingPanic => str "Panic error in decoding."
  end.

Inductive result (A : Type) : Type :=
| Ok (a : A)
| Throw (e : error).

Arguments Ok {A} a.
Arguments Throw {A} e.

Definition bind {A B} (r : result A) (k : A -> result B) : result B :=
  match r with
  | Ok a => k a
  | Throw e => Throw e
  end.

Notation "x <- r ;; k" := (bind r (fun x => k))
  (at level 61, r at next level, right associativity).


(** ** Numbers and bytes as text *)

Module Hex.

(** The digit alphabets of c32check's [encoding.ts]. *)
Definition hex : jsstring := Eval cbv in str "0123456789abcdef".
Definition c32 : jsstring := Eval cbv in str "0123456789ABCDEFGHJKMNPQRSTVWXYZ".

Definition zero : N := 48.    (* '0' *)

(** [alphabet[i]]; every index the sources use is in range. *)
Definition charAt (alphabet : jsstring) (i : N) : N :=
  nth (N.to_nat i) alphabet 0%N.

(** [alphabet.indexOf(c)] for a unit that occurs in the alphabet (the
    callers test their input against the alphabet first); the length of
    the alphabet otherwise. *)
Fixpoint indexOf (alphabet : jsstring) (c : N) : N :=
  match alphabet with
  | [] => 0
  | a :: rest => if (a =? c)%N then 0%N else N.succ (indexOf rest c)
  end.

(** [/^[0-9a-fA-F]*$/]. *)
Definition isHexUnit (c : N) : bool :=
  ((48 <=? c) && (c <=? 57) || (97 <=? c) && (c <=? 102)
   || (65 <=? c) && (c <=? 70))%N.
Definition isHexString (s : jsstring) : bool := forallb isHexUnit s.

(** [/^[0-9A-F]*$/]. *)
Definition isUpperHexUnit (c : N) : bool :=
  ((48 <=? c) && (c <=? 57) || (65 <=? c) && (c <=? 70))%N.

(** The leading run of [c] in [s], and [s] without it. *)
Fixpoint countLeading (c : N) (s : list N) : nat :=
  match s with
  | x :: t => if (x =? c)%N then S (countLeading c t) else 0
  | [] => 0
  end.
Fixpoint dropLeading (c : N) (s : list N) : list N :=
  match s with
  | x :: t => if (x =? c)%N then dropLeading c t else s
  | [] => []
  end.

(** [n.toString(16)] for a non-negative integer: the hexadecimal digits,
    most significant first, with no leading zero ("0" for zero).  The
    recursion is on the number of digits still to come. *)
Fixpoint digits16 (fuel : nat) (n : N) (acc : jsstring) : jsstring :=
  match fuel with
  | O => acc
  | S fuel' =>
      let acc' := charAt hex (n mod 16) :: acc in
      if (n / 16 =? 0)%N then acc' else digits16 fuel' (n / 16) acc'
  end.
Definition toString16 (n : N) : jsstring :=
  digits16 (S (N.to_nat (N.log2 n))) n [].

End Hex.

(** ** Node's [Buffer], as far as the sources use it: a list of bytes. *)

Module Buffer.

Definition t := list N.

(** The value of a hexadecimal digit ([unhex] of Node's hex decoder). *)
Definition unhex (c : N) : option N :=
  (if (48 <=? c) && (c <=? 57) then Some (c - 48)
   else if (97 <=? c) && (c <=? 102) then Some (c - 87)
   else if (65 <=? c) && (c <=? 70) then Some (c - 55)
   else None)%N.

(** [Buffer.from(s, 'hex')]: pairs of digits, up to the first pair that is
    not hexadecimal; a trailing single digit is dropped. *)
Fixpoint fromHex (s : jsstring) : t :=
  match s with
  | a :: b :: rest =>
      match unhex a, unhex b with
      | Some x, Some y => (16 * x + y)%N :: fromHex rest
      | _, _ => []
      end
  | _ => []
  end.

(** [buf.toString('hex')]: two lower-case digits per byte. *)
Definition byteToHex (b : N) : jsstring :=
  [Hex.charAt Hex.hex ((b / 16) mod 16); Hex.charAt Hex.hex (b mod 16)].
Definition toHex (buf : t) : jsstring := flat_map byteToHex buf.

(** [Buffer.from(s)] ([s] as UTF-8): a surrogate pair is one code point of
    four bytes, a lone surrogate is written as U+FFFD. *)
Definition isHighSurrogate (c : N) : bool := ((55296 <=? c) && (c <? 56320))%N.
Definition isLowSurrogate (c : N) : bool := ((56320 <=? c) && (c <? 57344))%N.
Definition utf8CodePoint (p : N) : list N :=
  (if p <? 128 then [p]
   else if p <? 2048 then [192 + p / 64; 128 + p mod 64]
   else if p <? 65536 then
     [224 + p / 4096; 128 + (p / 64) mod 64; 128 + p mod 64]
   else [240 + p / 262144; 128 + (p / 4096) mod 64;
         128 + (p / 64) mod 64; 128 + p mod 64])%N.
Definition replacement : N := 65533.
Fixpoint fromString (s : jsstring) : t :=
  match s with
  | [] => []
  | c :: rest =>
      if isHighSurrogate c then
        match rest with
        | d :: rest' =>
            if isLowSurrogate d
            then utf8CodePoint (65536 + (c - 55296) * 1024 + (d - 56320))
                   ++ fromString rest'
            else utf8CodePoint replacement ++ fromString rest
        | [] => utf8CodePoint replacement
        end
      else if isLowSurrogate c then utf8CodePoint replacement ++ fromString rest
      else utf8CodePoint c ++ fromString rest
  end.

End Buffer.

(** ** The [crc] package: [crc32] (CRC-32/ISO-HDLC, reflected polynomial
    0xEDB88320), an unsigned 32-bit number. *)

Module Crc.

Definition step (crc : N) : N :=
  (if N.testbit crc 0 then N.lxor (N.shiftr crc 1) 3988292384
   else N.shiftr crc 1)%N.

Definition update (crc byte : N) : N :=
  let crc := N.lxor crc (byte mod 256)%N in
  step (step (step (step (step (step (step (step crc))))))).

Definition crc32Bytes (buf : Buffer.t) : N :=
  (N.lxor (fold_left update buf 4294967295) 4294967295 mod 4294967296)%N.

(** [crc32(data)] on a string: the checksum of its UTF-8 bytes. *)
Definition crc32 (data : jsstring) : N := crc32Bytes (Buffer.fromString data).

End Crc.

(** ** Node's [crypto]: [createHash('sha256').update(buffer).digest()]
    (FIPS 180-4), on lists of bytes.  The round constants and the initial
    state are written in decimal. *)

Module Sha256.

Local Open Scope N_scope.

Definition w32 (x : N) : N := x mod 4294967296.
Definition add (x y : N) : N := w32 (x + y).
Definition rotr (n x : N) : N :=
  N.lor (N.shiftr x n) (w32 (N.shiftl x (32 - n))).
Definition lnot32 (x : N) : N := N.lxor x 4294967295.

Definition Ch (x y z : N) : N := N.lxor (N.land x y) (N.land (lnot32 x) z).
Definition Maj (x y z : N) : N :=
  N.lxor (N.lxor (N.land x y) (N.land x z)) (N.land y z).
Definition Sigma0 (x : N) : N := N.lxor (N.lxor (rotr 2 x) (rotr 13 x)) (rotr 22 x).
Definition Sigma1 (x : N) : N := N.lxor (N.lxor (rotr 6 x) (rotr 11 x)) (rotr 25 x).
Definition sigma0 (x : N) : N := N.lxor (N.lxor (rotr 7 x) (rotr 18 x)) (N.shiftr x 3).
Definition sigma1 (x : N) : N := N.lxor (N.lxor (rotr 17 x) (rotr 19 x)) (N.shiftr x 10).

Definition K : list N :=
  [ 1116352408; 1899447441; 3049323471; 3921009573; 961987163; 1508970993;
    2453635748; 2870763221; 3624381080; 310598401; 607225278; 1426881987;
    1925078388; 2162078206; 2614888103; 3248222580; 3835390401;
    4022224774; 264347078; 604807628; 770255983; 1249150122; 1555081692;
    1996064986; 2554220882; 2821834349; 2952996808; 3210313671;
    3336571891; 3584528711; 113926993; 338241895; 666307205; 773529912;
    1294757372; 1396182291; 1695183700; 1986661051; 2177026350;
    2456956037; 2730485921; 2820302411; 3259730800; 3345764771;
    3516065817; 3600352804; 4094571909; 275423344; 430227734; 506948616;
    659060556; 883997877; 958139571; 1322822218; 1537002063; 1747873779;
    1955562222; 2024104815; 2227730452; 2361852424; 2428436474;
    2756734187; 3204031479; 3329325298 ].

Definition H0 : list N :=
  [ 1779033703; 3144134277; 1013904242; 2773480762; 1359893119;
    2600822924; 528734635; 1541459225 ].

(** Big-endian bytes of a number, [n] of them. *)
Fixpoint bytesBE (n : nat) (x : N) : list N :=
  match n with
  | O => []
  | S n' => bytesBE n' (x / 256) ++ [x mod 256]
  end.

Definition wordBE (b : list N) : N :=
  fold_left (fun acc x => acc * 256 + x mod 256) b 0.

(** The message, the bit 1, zero bits up to 56 modulo 64 bytes, and the
    length in bits as a 64-bit number. *)
Definition pad (msg : list N) : list N :=
  let len := length msg in
  let zeros := ((119 - len mod 64) mod 64)%nat in
  msg ++ [128] ++ repeat 0 zeros ++ bytesBE 8 (8 * N.of_nat len).

Fixpoint chunks (count size : nat) (l : list N) : list (list N) :=
  match count with
  | O => []
  | S count' => firstn size l :: chunks count' size (skipn size l)
  end.

(** The message schedule: [missing] more words after the ones in [w]. *)
Fixpoint schedule (missing : nat) (w : list N) : list N :=
  match missing with
  | O => w
  | S m =>
      let t := length w in
      let at_ k := nth (t - k) w 0 in
      schedule m
        (w ++ [add (add (sigma1 (at_ 2%nat)) (at_ 7%nat))
                   (add (sigma0 (at_ 15%nat)) (at_ 16%nat))])
  end.

Definition round (st : list N) (kw : N * N) : list N :=
  match st with
  | [a; b; c; d; e; f; g; h] =>
      let t1 := add (add (add h (Sigma1 e)) (add (Ch e f g) (fst kw))) (snd kw) in
      let t2 := add (Sigma0 a) (Maj a b c) in
      [add t1 t2; a; b; c; add d t1; e; f; g]
  | _ => st
  end.

Definition compress (st : list N) (block : list N) : list N :=
  let w := schedule 48 (map wordBE (chunks 16 4 block)) in
  let st' := fold_left round (combine K w) st in
  map (fun p => add (fst p) (snd p)) (combine st st').

Definition sha256 (msg : list N) : list N :=
  let padded := pad msg in
  let blocks := chunks (length padded / 64) 64 padded in
  flat_map (bytesBE 4) (fold_left compress blocks H0).

End Sha256.

(** ** The [c32check] package, release 2.0.0: [c32encode] and [c32decode] of
    [encoding.ts], called with one argument (no minimum length). *)

Module C32check.

Import Hex.

(** The loop of [c32encode], from the last hexadecimal digit to the first:
    [digits] is [inputHex] reversed, so its head is [inputHex[i]] and the
    head of its tail is [inputHex[i - 1]]. *)
Fixpoint encodeLoop (digits : jsstring) (carry : N) (res : jsstring) : jsstring :=
  match digits with
  | [] => res
  | ci :: before =>
      if (carry <? 4)%N then
        let currentCode := N.shiftr (indexOf hex ci) carry in
        let nextCode :=
          match before with
          | [] => 0%N                       (* i === 0 *)
          | cj :: _ => indexOf hex cj
          end in
        let nextBits := (1 + carry)%N in
        let nextLowBits :=
          N.shiftl (nextCode mod N.shiftl 1 nextBits) (5 - nextBits) in
        let curC32Digit := charAt c32 (currentCode + nextLowBits) in
        encodeLoop before nextBits (curC32Digit :: res)
      else encodeLoop before 0%N res
  end.

(** [new TextDecoder().decode(bytes)], as far as [c32encode] looks at the
    text: a byte-order mark EF BB BF at the start of the bytes is dropped
    before they are decoded. *)
Definition dropByteOrderMark (bytes : Buffer.t) : Buffer.t :=
  match bytes with
  | a :: b :: c :: rest =>
      if ((a =? 239) && (b =? 187) && (c =? 191))%N then rest else bytes
  | _ => bytes
  end.

(** [c32encode].  The zeros put back in front are counted on the bytes
    decoded as text, [new TextDecoder().decode(hexToBytes(inputHex))]: the
    U+0000 at its start.  A zero byte decodes to U+0000 and no other byte
    starts a character that is U+0000, so these are the zero bytes at the
    start of the bytes left once the byte-order mark is dropped. *)
Definition c32encode (inputHex : jsstring) : result jsstring :=
  if negb (isHexString inputHex) then Throw NotHexEncoded else
  let inputHex :=
    if Nat.odd (length inputHex) then zero :: inputHex else inputHex in
  let inputHex := JS.toLowerCase inputHex in
  let res := encodeLoop (rev inputHex) 0%N [] in
  let res := dropLeading zero res in
  let numLeadingZeroBytesInHex :=
    countLeading 0%N (dropByteOrderMark (Buffer.fromHex inputHex)) in
  Ok (repeat zero numLeadingZeroBytesInHex ++ res).

(** [c32normalize]: upper case, O read as 0, L and I read as 1. *)
Definition normalizeUnit (c : N) : N :=
  let c := JS.upperUnit c in
  if (c =? 79)%N then 48%N
  else if (c =? 76)%N || (c =? 73)%N then 49%N
  else c.
Definition c32normalize (c32input : jsstring) : jsstring :=
  map normalizeUnit c32input.

Definition isC32String (s : jsstring) : bool :=
  forallb (fun c => existsb (N.eqb c) c32) s.

(** The loop of [c32decode], from the last digit to the first; the state is
    [(carry, carryBits, res)]. *)
Fixpoint decodeLoop (digits : jsstring) (carry carryBits : N) (res : jsstring)
  : result (N * jsstring) :=
  match digits with
  | [] => Ok (carry, res)
  | ci :: before =>
      let '(carry, carryBits, res) :=
        if (carryBits =? 4)%N then (0%N, 0%N, charAt hex carry :: res)
        else (carry, carryBits, res) in
      let currentCode := N.shiftl (indexOf c32 ci) carryBits in
      let currentValue := (currentCode + carry)%N in
      let currentHexDigit := charAt hex (currentValue mod 16) in
      let carryBits := (carryBits + 1)%N in
      let carry := N.shiftr currentValue 4 in
      if (N.shiftl 1 carryBits <? carry)%N then Throw DecodingPanic
      else decodeLoop before carry carryBits (currentHexDigit :: res)
  end.

Definition c32decode (c32input : jsstring) : result jsstring :=
  let c32input := c32normalize c32input in
  if negb (isC32String c32input) then Throw NotC32Encoded else
  let numLeadingZeroBytes := countLeading zero c32input in
  st <- decodeLoop (rev c32input) 0%N 0%N [] ;;
  let '(carry, res) := st in
  let res := charAt hex carry :: res in                 (* one last carry *)
  let res := if Nat.odd (length res) then zero :: res else res in
  let hexLeadingZeros := countLeading zero res in
  let res := skipn (hexLeadingZeros - hexLeadingZeros mod 2) res in
  Ok (concat (repeat [zero; zero] numLeadingZeroBytes) ++ res).

End C32check.

(** ** types.ts *)

(** The entropy classes; the value of each is the number of characters of
    its entropy segment. *)
Inductive EntropyBits : Type := Bits128 | Bits160 | Bits256.

Definition entropyChars (size : EntropyBits) : nat :=
  match size with
  | Bits128 => 14
  | Bits160 => 21
  | Bits256 => 42
  end.

Record Config : Type := mkConfig { hyphens : bool; entropySize : EntropyBits }.

(** An option is a function that updates the configuration it is given. *)
Definition Option := Config -> Config.

Module Constants.
Definition KEY_LENGTH_WITH_HYPHENS : nat := 31.
Definition KEY_LENGTH_WITHOUT_HYPHENS : nat := 28.
Definition KEY_PART_LENGTH : nat := 7.
Definition UUID_LENGTH : nat := 36.
Definition CHECKSUM_LENGTH : nat := 8.
(** [Math.ceil(size * ENTROPY_BYTES_MULTIPLIER)] with the multiplier 8 / 5:
    the doubles 14 * 1.6, 21 * 1.6 and 42 * 1.6 round up to 23, 34 and 68,
    as the exact quotients do. *)
Definition entropyBytes (size : EntropyBits) : nat :=
  (entropyChars size * 8 + 4) / 5.
End Constants.

Module Options.
Definition With128BitEntropy : Option :=
  fun c => mkConfig (hyphens c) Bits128.
Definition With160BitEntropy : Option :=
  fun c => mkConfig (hyphens c) Bits160.
Definition With256BitEntropy : Option :=
  fun c => mkConfig (hyphens c) Bits256.
End Options.

Definition DefaultConfig : Config := mkConfig true Bits160.

(** ** key.ts *)

Module Key.

Record t : Type := mk { value : jsstring }.

(** The predicate of [isValidPart]'s [some]: the unit is not an upper-case
    Crockford digit.  [[...part]] walks code points; a code point outside
    the basic plane starts with a surrogate, which is above 'Z' as well, so
    walking code units gives the same answer. *)
Definition invalidChar (code : N) : bool :=
  (90 <? code)%N                                    (* Above 'Z' *)
  || ((code <? 48)%N || ((57 <? code)%N && (code <? 65)%N))
                                                    (* Not 0-9 or A-Z *)
  || (code =? 73)%N || (code =? 76)%N
  || (code =? 79)%N || (code =? 85)%N.              (* 'I' 'L' 'O' 'U' *)

Definition isValidPart (part : jsstring) : bool :=
  if negb (length part =? Constants.KEY_PART_LENGTH) then false
  else negb (existsb invalidChar part).

Definition hyphen : N := 45.

Definition isHyphen (c : option N) : bool :=
  match c with
  | Some u => (u =? hyphen)%N
  | None => false
  end.

Definition isValid (key : jsstring) : bool :=
  let length := length key in
  if length =? Constants.KEY_LENGTH_WITH_HYPHENS then
    if negb (isHyphen (JS.at_ key 7)) || negb (isHyphen (JS.at_ key 15))
       || negb (isHyphen (JS.at_ key 23))
    then false
    else isValidPart (JS.slice 0 7 key) &&
         isValidPart (JS.slice 8 15 key) &&
         isValidPart (JS.slice 16 23 key) &&
         isValidPart (JS.slice 24 31 key)
  else if length =? Constants.KEY_LENGTH_WITHOUT_HYPHENS then
    isValidPart (JS.slice 0 7 key) &&
    isValidPart (JS.slice 7 14 key) &&
    isValidPart (JS.slice 14 21 key) &&
    isValidPart (JS.slice 21 28 key)
  else false.

(** [new Key(value)]. *)
Definition new (value : jsstring) : result t :=
  if negb (isValid value) then Throw InvalidKeyFormat
  else Ok (mk value).

Definition parse (key : jsstring) : result t :=
  if negb (isValid key) then Throw InvalidUUIDKeyParse
  else new key.

Definition toString (k : t) : jsstring := value k.

Definition getParts (k : t) : list jsstring :=
  let hasHyphens :=
    length (value k) =? Constants.KEY_LENGTH_WITH_HYPHENS in
  if hasHyphens then
    [ JS.slice 0 7 (value k); JS.slice 8 15 (value k);
      JS.slice 16 23 (value k); JS.slice 24 31 (value k) ]
  else
    [ JS.slice 0 7 (value k); JS.slice 7 14 (value k);
      JS.slice 14 21 (value k); JS.slice 21 28 (value k) ].

Definition encodePart (hex : jsstring) : result jsstring :=
  let buf := Buffer.fromHex hex in
  encoded <- C32check.c32encode (Buffer.toHex buf) ;;
  Ok (JS.toUpperCase (JS.padStart 7 Hex.zero encoded)).

(** [Key.encode(uuid, withHyphens)]. *)
Definition encode (uuid : jsstring) (withHyphens : bool) : result t :=
  if negb (length uuid =? Constants.UUID_LENGTH) then Throw InvalidUUIDLength
  else
    p0 <- encodePart (JS.slice 0 8 uuid) ;;
    p1 <- encodePart (JS.slice 9 13 uuid ++ JS.slice 14 18 uuid) ;;
    p2 <- encodePart (JS.slice 19 23 uuid ++ JS.slice 24 28 uuid) ;;
    p3 <- encodePart (JS.slice 28 36 uuid) ;;
    let parts := [p0; p1; p2; p3] in
    let value := if withHyphens then JS.join [hyphen] parts
                 else JS.join [] parts in
    new value.

Fixpoint mapM {A B} (f : A -> result B) (l : list A) : result (list B) :=
  match l with
  | [] => Ok []
  | a :: rest => b <- f a ;; bs <- mapM f rest ;; Ok (b :: bs)
  end.

(** [decode]: the four decoded groups, joined in the UUID layout.
    [getParts] always gives four parts. *)
Definition decode (k : t) : result jsstring :=
  let parts := getParts k in
  decoded <- mapM (fun part => C32check.c32decode (JS.toLowerCase part)) parts ;;
  let d i := nth i decoded [] in
  Ok (JS.join []
        [ d 0; [hyphen];
          JS.slice 0 4 (d 1); [hyphen];
          JS.sliceFrom 4 (d 1); [hyphen];
          JS.slice 0 4 (d 2); [hyphen];
          JS.sliceFrom 4 (d 2);
          d 3 ]).

Definition toUUID (k : t) : result jsstring :=
  if negb (isValid (value k)) then Throw InvalidUUIDKeyToUUID
  else decode k.

End Key.

(** ** apikey.ts *)

Record APIKey : Type := mkAPIKey {
  prefix : jsstring;
  key : Key.t;
  entropy : jsstring;
  checksum : jsstring
}.

Definition underscore : N := 95.

Module ApiKey.

(** [calculateChecksum]: the CRC32 of [prefix_keyentropy] as eight
    upper-case hexadecimal digits. *)
Definition calculateChecksum (apiKey : APIKey) : jsstring :=
  let data := prefix apiKey ++ [underscore]
              ++ Key.toString (key apiKey) ++ entropy apiKey in
  let checksum := Crc.crc32 data in
  JS.padStart 8 Hex.zero (JS.toUpperCase (Hex.toString16 checksum)).

(** [new APIKey(prefix, key, entropy, checksum)]: an empty [checksum] is the
    only falsy string, and then the checksum is computed from the three
    fields already set. *)
Definition new (prefix : jsstring) (key : Key.t) (entropy checksum : jsstring)
  : APIKey :=
  let this := mkAPIKey prefix key entropy checksum in
  match checksum with
  | [] => mkAPIKey prefix key entropy (calculateChecksum this)
  | _ :: _ => this
  end.

Definition toString (a : APIKey) : jsstring :=
  prefix a ++ [underscore] ++ Key.toString (key a) ++ entropy a
    ++ [underscore] ++ checksum a.

Definition applyOptions (opt : Option) : Config := opt DefaultConfig.

Definition encodeBase32Crockford (buffer : Buffer.t) : result jsstring :=
  encoded <- C32check.c32encode (Buffer.toHex buffer) ;;
  Ok (JS.toUpperCase encoded).

(** [isValidChecksum]: eight units matching [/^[0-9A-F]{8}$/]. *)
Definition isValidChecksum (checksum : jsstring) : bool :=
  if negb (length checksum =? Constants.CHECKSUM_LENGTH) then false
  else (length checksum =? 8) && forallb Hex.isUpperHexUnit checksum.

(** [formatUUID]. *)
Definition formatUUID (buffer : Buffer.t) : jsstring :=
  let hex := Buffer.toHex buffer in
  JS.join [Key.hyphen]
    [ JS.slice 0 8 hex; JS.slice 8 12 hex; JS.slice 12 16 hex;
      JS.slice 16 20 hex; JS.sliceFrom 20 hex ].

(** [parse]. *)
Definition parse (apikey : jsstring) : result APIKey :=
  match apikey with
  | [] => Throw InvalidAPIKeyFormat
  | _ :: _ =>
      let parts := JS.split underscore apikey in
      match parts with
      | [prefix; remainder; checksum] =>
          match prefix with
          | [] => Throw InvalidPrefixEmpty
          | _ :: _ =>
              if length remainder <? Constants.KEY_LENGTH_WITHOUT_HYPHENS
              then Throw InsufficientLength
              else if negb (isValidChecksum checksum)
              then Throw InvalidChecksumFormat
              else
                let keyPart :=
                  JS.slice 0 Constants.KEY_LENGTH_WITHOUT_HYPHENS remainder in
                key <- Key.parse keyPart ;;
                let entropy :=
                  JS.sliceFrom Constants.KEY_LENGTH_WITHOUT_HYPHENS remainder in
                let apiKey := new prefix key entropy checksum in
                let expectedChecksum := calculateChecksum apiKey in
                if negb (JS.eqb checksum expectedChecksum)
                then Throw (InvalidChecksum expectedChecksum checksum)
                else Ok apiKey
          end
      | _ => Throw (WrongPartCount (length parts))
      end
  end.

Section Random.

(** [crypto.randomBytes]: whatever bytes the source of randomness hands
    out for a requested count. *)
Variable randomBytes : nat -> Buffer.t.

Definition generateEntropy (size : EntropyBits) : result jsstring :=
  let bytes := Constants.entropyBytes size in
  let buffer := randomBytes bytes in
  let hash := Sha256.sha256 buffer in
  encoded <- encodeBase32Crockford hash ;;
  Ok (JS.slice 0 (entropyChars size) encoded).

Definition newAPIKey (prefix uuid : jsstring) (opt : Option)
  : result APIKey :=
  match prefix with
  | [] => Throw PrefixCannotBeEmpty
  | _ :: _ =>
      let config := applyOptions opt in
      key <- Key.encode uuid false ;;
      entropy <- generateEntropy (entropySize config) ;;
      Ok (new prefix key entropy [])
  end.

Definition newAPIKeyFromBytes (prefix : jsstring) (uuid : Buffer.t)
  (opt : Option) : result APIKey :=
  if negb (length uuid =? 16) then Throw UUIDNot16Bytes
  else newAPIKey prefix (formatUUID uuid) opt.

End Random.

End ApiKey.

(** ** Vocabulary of the specification *)

(** Upper-case Crockford digits: 0-9 and A-Z without I, L, O and U. *)
Definition isCrockfordUpper (c : N) : bool :=
  ((48 <=? c) && (c <=? 57)
   || (65 <=? c) && (c <=? 90)
      && negb (c =? 73) && negb (c =? 76) && negb (c =? 79) && negb (c =? 85))%N.

(** Crockford digits in either case. *)
Definition isCrockfordAnyCase (c : N) : bool :=
  isCrockfordUpper (JS.upperUnit c).

(** The places of the hyphens in the 31-character form. *)
Definition isHyphenIndex (i : nat) : bool :=
  (i =? 7) || (i =? 15) || (i =? 23).

(** The shape of a key text over a digit alphabet [ok]: 28 digits, or 31
    units with hyphens at 7, 15 and 23 and digits everywhere else. *)
Definition KeyShape (ok : N -> bool) (s : jsstring) : Prop :=
  (length s = 28 /\ forall i c, nth_error s i = Some c -> ok c = true)
  \/ (length s = 31 /\
      forall i c, nth_error s i = Some c ->
                  if isHyphenIndex i then c = Key.hyphen else ok c = true).

(** A 36-character hyphenated UUID text: hyphens at 8, 13, 18 and 23,
    hexadecimal digits of either case elsewhere. *)
Definition isUUIDHyphenIndex (i : nat) : bool :=
  (i =? 8) || (i =? 13) || (i =? 18) || (i =? 23).

Fixpoint uuidUnitsFrom (i : nat) (s : jsstring) : bool :=
  match s with
  | [] => true
  | c :: rest =>
      (if isUUIDHyphenIndex i then (c =? Key.hyphen)%N else Hex.isHexString [c])
      && uuidUnitsFrom (S i) rest
  end.

Definition isUUID (s : jsstring) : bool :=
  (length s =? 36) && uuidUnitsFrom 0 s.

(** Equality of texts up to the case of ASCII letters. *)
Definition sameIgnoringCase (s t : jsstring) : Prop :=
  JS.toLowerCase s = JS.toLowerCase t.

(** [Key.encode(uuid, withHyphens).toUUID()]. *)
Definition encodeThenToUUID (uuid : jsstring) (withHyphens : bool)
  : result jsstring :=
  k <- Key.encode uuid withHyphens ;; Key.toUUID k.

(** The upper-case hexadecimal digits. *)
Definition upperHex : jsstring := Eval cbv in str "0123456789ABCDEF".

(** The [width] low hexadecimal digits of [n], most significant first, in
    upper case. *)
Fixpoint fixedHex (width : nat) (n : N) : jsstring :=
  match width with
  | O => []
  | S w => fixedHex w (n / 16) ++ [Hex.charAt upperHex (n mod 16)]
  end.

(** The text the checksum is taken of. *)
Definition checksumData (a : APIKey) : jsstring :=
  prefix a ++ str "_" ++ Key.toString (key a) ++ entropy a.

(** Exactly eight characters, each one of 0-9 or A-F. *)
Definition IsChecksumText (c : jsstring) : Prop :=
  length c = 8
  /\ Forall (fun u => (48 <= u <= 57)%N \/ (65 <= u <= 70)%N) c.

(** What [parse] answers once the text has split into exactly three parts
    [p], [r] and [c]: the checks that follow, first failure first. *)
Definition parseParts (p r c : jsstring) (answer : result APIKey) : Prop :=
  let candidate := mkAPIKey p (Key.mk (firstn 28 r)) (skipn 28 r) c in
  let expected := ApiKey.calculateChecksum candidate in
  (p = [] -> answer = Throw InvalidPrefixEmpty)
  /\ (p <> [] -> length r < 28 -> answer = Throw InsufficientLength)
  /\ (p <> [] -> 28 <= length r -> ~ IsChecksumText c ->
      answer = Throw InvalidChecksumFormat)
  /\ (p <> [] -> 28 <= length r -> IsChecksumText c ->
      Key.isValid (firstn 28 r) = false ->
      answer = Throw InvalidUUIDKeyParse)
  /\ (p <> [] -> 28 <= length r -> IsChecksumText c ->
      Key.isValid (firstn 28 r) = true -> c <> expected ->
      answer = Throw (InvalidChecksum expected c))
  /\ (p <> [] -> 28 <= length r -> IsChecksumText c ->
      Key.isValid (firstn 28 r) = true -> c = expected ->
      answer = Ok candidate).

(** ** The encoder of c32check on numbers

    The loop of [c32encode] reads hexadecimal digits and writes Crockford
    digits; these are the same steps on the values of the digits. *)

(** The values of the hexadecimal digits of a buffer, two per byte. *)
Definition nibbles (buf : Buffer.t) : list N :=
  flat_map (fun b => [(b / 16) mod 16; b mod 16]%N) buf.

(** The value of the Crockford digit written at carry [carry] for the
    hexadecimal digit [cur] and the one before it, [next]. *)
Definition digitIndex (carry cur next : N) : N :=
  (N.shiftr cur carry
   + N.shiftl (next mod N.shiftl 1 (1 + carry)) (5 - (1 + carry)))%N.

(** The loop of [c32encode] on the values: [digits] are the values of the
    hexadecimal digits, last first, and [res] the values of the Crockford
    digits written so far. *)
Fixpoint encodeNibbles (digits : list N) (carry : N) (res : list N) : list N :=
  match digits with
  | [] => res
  | x :: before =>
      if (carry <? 4)%N then
        let next := match before with
                    | [] => 0%N
                    | y :: _ => y
                    end in
        encodeNibbles before (1 + carry)%N (digitIndex carry x next :: res)
      else encodeNibbles before 0%N res
  end.

(** ** Numbers written in a base *)

(** The number written by the digits [l], most significant digit first. *)
Fixpoint valueBE (base : N) (l : list N) : N :=
  match l with
  | [] => 0%N
  | d :: rest => (d * base ^ N.of_nat (length rest) + valueBE base rest)%N
  end.

(** The number written by the digits [l], least significant digit first. *)
Fixpoint valueLE (base : N) (l : list N) : N :=
  match l with
  | [] => 0%N
  | d :: rest => (d + base * valueLE base rest)%N
  end.

(** ** The groups of a UUID *)

(** The Crockford digits [c32encode] writes for the four bytes whose
    hexadecimal digits have the values [x0] to [x7]. *)
Definition groupDigits (x0 x1 x2 x3 x4 x5 x6 x7 : N) : list N :=
  [ digitIndex 2 x0 0; digitIndex 1 x1 x0; digitIndex 0 x2 x1;
    digitIndex 3 x4 x3; digitIndex 2 x5 x4; digitIndex 1 x6 x5;
    digitIndex 0 x7 x6 ].

(** The first hexadecimal digit of the group that starts at [i] is 4 or
    more: the group, as a 32-bit number, is at least 0x40000000. *)
Definition bigGroupAt (uuid : jsstring) (i : nat) : bool :=
  match nth_error uuid i with
  | Some c =>
      match Buffer.unhex c with
      | Some x => (4 <=? x)%N
      | None => false
      end
  | None => false
  end.

(** The four groups [Key.encode] cuts a UUID text into start at the
    characters 0, 9, 19 and 28. *)
Definition bigGroups (uuid : jsstring) : bool :=
  bigGroupAt uuid 0 && bigGroupAt uuid 9
  && bigGroupAt uuid 19 && bigGroupAt uuid 28.

(** The bytes start with EF BB BF 00: a byte-order mark and a zero byte. *)
Definition startsWithMarkAndZero (bytes : Buffer.t) : bool :=
  match bytes with
  | a :: b :: c :: d :: _ =>
      ((a =? 239) && (b =? 187) && (c =? 191) && (d =? 0))%N
  | _ => false
  end.

(** A group of hexadecimal digits, as [encodePart] gets it, is the text of
    the four bytes EF BB BF 00 (efbbbf00, in either case of the letters). *)
Definition isMarkGroup (hex : jsstring) : bool :=
  startsWithMarkAndZero (Buffer.fromHex hex).

(** One of the four groups [Key.encode] cuts a text into is efbbbf00. *)
Definition hasMarkGroup (uuid : jsstring) : bool :=
  isMarkGroup (JS.slice 0 8 uuid)
  || isMarkGroup (JS.slice 9 13 uuid ++ JS.slice 14 18 uuid)
  || isMarkGroup (JS.slice 19 23 uuid ++ JS.slice 24 28 uuid)
  || isMarkGroup (JS.slice 28 36 uuid).

(** What [encodePart] returns for the group efbbbf00: eight characters. *)
Definition markPart : jsstring := Eval cbv in str "03QVQFR0".

(** ** Example texts *)

Definition exampleUUID : jsstring := str "d1756360-5da0-40df-9926-a76abff5601d".
Definition exampleKey : jsstring := str "38QARV01ET0G6Z2CJD9VA2ZZAR0X".

(** A key text in lower case: every unit is a Crockford digit. *)
Definition lowerCaseKey : jsstring := str "38qarv01et0g6z2cjd9va2zzar0x".

(** A version-7 UUID text (its first group is a recent timestamp, below
    0x40000000) and the nil UUID. *)
Definition timestampUUID : jsstring := str "0192d3a4-5b6c-7def-8123-456789abcdef".
Definition nilUUID : jsstring := str "00000000-0000-0000-0000-000000000000".

(** A version-4 UUID text whose first group is efbbbf00, and one whose four
    groups all start with a digit of 4 or more. *)
Definition markUUID : jsstring := str "efbbbf00-0000-4000-8000-000000000000".
Definition markBigUUID : jsstring := str "efbbbf00-4000-0000-4000-000040000000".

(** A source of randomness that hands out the same byte every time. *)
Definition constantBytes (b : N) : nat -> Buffer.t := fun n => repeat b n.

(** ** The parts of a key as numbers *)

(** The hexadecimal digits the loop of [c32decode] writes for the seven
    Crockford digits with the values [d0] to [d6], first digit first; the
    three high bits of [d0] are what is left in the carry, [d0 / 4]. *)
Definition digitNibbles (d0 d1 d2 d3 d4 d5 d6 : N) : list N :=
  [ (d0 mod 4) * 4 + d1 / 8; (d1 mod 8) * 2 + d2 / 16; d2 mod 16;
    d3 / 2; (d3 mod 2) * 8 + d4 / 4; (d4 mod 4) * 4 + d5 / 8;
    (d5 mod 8) * 2 + d6 / 16; d6 mod 16 ]%N.

(** Lower-case hexadecimal digits, the alphabet of [c32decode]'s output. *)
Definition isLowerHexUnit (c : N) : bool :=
  ((48 <=? c) && (c <=? 57) || (97 <=? c) && (c <=? 102))%N.

(** The character is '1', '2' or '3'. *)
Definition isOneToThree (c : N) : bool := ((49 <=? c) && (c <=? 51))%N.

(** The four parts of a key text start with '1', '2' or '3': each part is
    the Crockford text of a number from 2^30 up to 2^32 - 1. *)
Definition partStartsAt (key : jsstring) (i : nat) : bool :=
  match nth_error key i with
  | Some c => isOneToThree c
  | None => false
  end.

Definition fullWidthParts (key : jsstring) : bool :=
  if length key =? Constants.KEY_LENGTH_WITH_HYPHENS
  then partStartsAt key 0 && partStartsAt key 8
       && partStartsAt key 16 && partStartsAt key 24
  else partStartsAt key 0 && partStartsAt key 7
       && partStartsAt key 14 && partStartsAt key 21.

(** A key text without its hyphens. *)
Definition withoutHyphens (key : jsstring) : jsstring :=
  filter (fun c => negb (c =? Key.hyphen)%N) key.

(** Texts of ASCII characters, and of characters below 256.  On the first
    [toUpperCase] and [toLowerCase] move nothing but the letters a-z and A-Z;
    on the second the hexadecimal decoder of [Buffer.from] reads the code
    unit itself. *)
Definition isAscii (s : jsstring) : bool := forallb (fun c => (c <? 128)%N) s.
Definition isLatin1 (s : jsstring) : bool := forallb (fun c => (c <? 256)%N) s.

(** More example texts: the example key with hyphens; the example UUID in
    upper case, and with underscores where the hyphens go; a text of 36
    characters that is no UUID. *)
Definition hyphenatedKey : jsstring := str "38QARV0-1ET0G6Z-2CJD9VA-2ZZAR0X".
Definition upperCaseUUID : jsstring := str "D1756360-5DA0-40DF-9926-A76ABFF5601D".
Definition looseUUID : jsstring := str "d1756360_5da0_40df_9926_a76abff5601d".
Definition noUUID : jsstring := str "not a UUID, yet 36 characters long!!".

(** * Properties *)

Unset Implicit Arguments.

(** ** The library routines on known values *)

Example sha256_abc :
  Buffer.toHex (Sha256.sha256 (str "abc"))
  = str "ba7816bf8f01cfea414140de5dae2223b00361a396177a9cb410ff61f20015ad".
Proof. vm_compute. reflexivity. Qed.

Example sha256_two_blocks :
  Buffer.toHex
    (Sha256.sha256
       (str "abcdbcdecdefdefgefghfghighijhijkijkljklmklmnlmnomnopnopq"))
  = str "248d6a61d20638b8e5c026930c3e6039a33ce45964ff2167f6ecedd419db06c1".
Proof. vm_compute. reflexivity. Qed.

Example crc32_check : Crc.crc32 (str "123456789") = 3421780262%N.
Proof. vm_compute. reflexivity. Qed.

Example c32encode_vectors :
  C32check.c32encode (str "a46ff88886c2ef9762d970b4d2c63678835bd39d")
  = Ok (str "MHQZH246RBQSERPSE2TD5HHPF21NQMWX")
  /\ C32check.c32encode (str "0000000000000000000000000000000000000001")
     = Ok (str "00000000000000000001")
  /\ C32check.c32encode (str "1000000000000000000000000000000000000001")
     = Ok (str "20000000000000000000000000000001")
  /\ C32check.c32encode (str "00000001") = Ok (str "0001")
  /\ C32check.c32encode (str "10000000") = Ok (str "800000")
  /\ C32check.c32encode (str "22") = Ok (str "12").
Proof. vm_compute. repeat split. Qed.

Example c32decode_vectors :
  C32check.c32decode (str "MHQZH246RBQSERPSE2TD5HHPF21NQMWX")
  = Ok (str "a46ff88886c2ef9762d970b4d2c63678835bd39d")
  /\ C32check.c32decode (str "00000000000000000001")
     = Ok (str "0000000000000000000000000000000000000001")
  /\ C32check.c32decode (str "0001") = Ok (str "00000001")
  /\ C32check.c32decode (str "800000") = Ok (str "10000000")
  /\ C32check.c32decode (str "12") = Ok (str "22").
Proof. vm_compute. repeat split. Qed.

(** ** Key validation *)

Lemma invalidChar_spec (c : N) :
  Key.invalidChar c = negb (isCrockfordUpper c).
Proof.
  unfold Key.invalidChar, isCrockfordUpper.
  destruct (N.ltb_spec 90 c), (N.ltb_spec c 48), (N.ltb_spec 57 c),
    (N.ltb_spec c 65), (N.leb_spec 48 c), (N.leb_spec c 57),
    (N.leb_spec 65 c), (N.leb_spec c 90); try lia; cbn;
    destruct (N.eqb_spec c 73), (N.eqb_spec c 76), (N.eqb_spec c 79),
      (N.eqb_spec c 85); cbn; try reflexivity; lia.
Qed.

Lemma isValidPart_spec (p : jsstring) :
  Key.isValidPart p = (length p =? 7) && forallb isCrockfordUpper p.
Proof.
  unfold Key.isValidPart, Constants.KEY_PART_LENGTH.
  destruct (length p =? 7); cbn; [| reflexivity].
  induction p as [| c p IH]; cbn; [reflexivity |].
  rewrite invalidChar_spec, negb_orb, negb_involutive.
  f_equal; exact IH.
Qed.

(** Lists of a known length, unit by unit. *)
Ltac explode s H :=
  repeat (destruct s as [| ? s]; [discriminate H |]; cbn [length] in H);
  try (destruct s; [| discriminate H]).

Lemma andb_true_split (a b : bool) : a && b = true -> a = true /\ b = true.
Proof. apply andb_true_iff. Qed.

Ltac split_andb :=
  repeat match goal with
         | H : _ && _ = true |- _ =>
             apply andb_true_split in H; destruct H
         end.

Local Arguments Key.isValidPart : simpl never.

(** C2, amended: [isValid] is case-sensitive.  It accepts exactly the texts
    of 28 upper-case Crockford digits and the texts of 31 characters with
    hyphens at 7, 15 and 23 and upper-case Crockford digits elsewhere. *)
Theorem isValid_iff_upper_KeyShape (s : jsstring) :
  Key.isValid s = true <-> KeyShape isCrockfordUpper s.
Proof.
  unfold Key.isValid, KeyShape, Constants.KEY_LENGTH_WITH_HYPHENS,
    Constants.KEY_LENGTH_WITHOUT_HYPHENS.
  destruct (Nat.eqb_spec (length s) 31) as [L31 | N31].
  - split.
    + intros H. right. split; [exact L31 |].
      explode s L31.
      cbn in H.
      repeat match type of H with
             | context [(?a =? Key.hyphen)%N] =>
                 destruct (N.eqb_spec a Key.hyphen); [| discriminate H]
             end.
      cbn in H. rewrite !isValidPart_spec in H. cbn in H.
      split_andb.
      intros i c Hi.
      do 31 (destruct i as [| i]; [injection Hi as <-; cbn; assumption |]).
      destruct i; discriminate Hi.
    + intros [[L _] | [_ H]]; [congruence |].
      explode s L31.
      pose proof (H 7 _ eq_refl) as H7; pose proof (H 15 _ eq_refl) as H15;
        pose proof (H 23 _ eq_refl) as H23.
      cbn in H7, H15, H23. subst.
      cbn. rewrite !isValidPart_spec. cbn.
      rewrite (H 0 _ eq_refl), (H 1 _ eq_refl), (H 2 _ eq_refl),
        (H 3 _ eq_refl), (H 4 _ eq_refl), (H 5 _ eq_refl), (H 6 _ eq_refl),
        (H 8 _ eq_refl), (H 9 _ eq_refl), (H 10 _ eq_refl),
        (H 11 _ eq_refl), (H 12 _ eq_refl), (H 13 _ eq_refl),
        (H 14 _ eq_refl), (H 16 _ eq_refl), (H 17 _ eq_refl),
        (H 18 _ eq_refl), (H 19 _ eq_refl), (H 20 _ eq_refl),
        (H 21 _ eq_refl), (H 22 _ eq_refl), (H 24 _ eq_refl),
        (H 25 _ eq_refl), (H 26 _ eq_refl), (H 27 _ eq_refl),
        (H 28 _ eq_refl), (H 29 _ eq_refl), (H 30 _ eq_refl).
      reflexivity.
  - destruct (Nat.eqb_spec (length s) 28) as [L28 | N28].
    + split.
      * intros H. left. split; [exact L28 |].
        explode s L28.
        cbn in H. rewrite !isValidPart_spec in H. cbn in H.
        split_andb.
        intros i c Hi.
        do 28 (destruct i as [| i]; [injection Hi as <-; assumption |]).
        destruct i; discriminate Hi.
      * intros [[_ H] | [L _]]; [| congruence].
        explode s L28.
        cbn. rewrite !isValidPart_spec. cbn.
        rewrite (H 0 _ eq_refl), (H 1 _ eq_refl), (H 2 _ eq_refl),
          (H 3 _ eq_refl), (H 4 _ eq_refl), (H 5 _ eq_refl), (H 6 _ eq_refl),
          (H 7 _ eq_refl), (H 8 _ eq_refl), (H 9 _ eq_refl),
          (H 10 _ eq_refl), (H 11 _ eq_refl), (H 12 _ eq_refl),
          (H 13 _ eq_refl), (H 14 _ eq_refl), (H 15 _ eq_refl),
          (H 16 _ eq_refl), (H 17 _ eq_refl), (H 18 _ eq_refl),
          (H 19 _ eq_refl), (H 20 _ eq_refl), (H 21 _ eq_refl),
          (H 22 _ eq_refl), (H 23 _ eq_refl), (H 24 _ eq_refl),
          (H 25 _ eq_refl), (H 26 _ eq_refl), (H 27 _ eq_refl).
        reflexivity.
    + split; [discriminate |].
      intros [[L _] | [L _]]; congruence.
Qed.

(** C2, as stated, fails: a 28-character text of lower-case Crockford digits
    is made of Crockford digits only, and [isValid] rejects it. *)
Lemma isValid_rejects_lower_case :
  KeyShape isCrockfordAnyCase lowerCaseKey /\ Key.isValid lowerCaseKey = false.
Proof.
  split; [| reflexivity].
  left. split; [reflexivity |].
  intros i c Hi.
  do 28 (destruct i as [| i]; [injection Hi as <-; reflexivity |]).
  destruct i; discriminate Hi.
Qed.

(** ** The documented example *)

(** C8: the UUID d1756360-5da0-40df-9926-a76abff5601d encodes without hyphens
    to 38QARV01ET0G6Z2CJD9VA2ZZAR0X, and [toUUID] of that key gives the UUID
    back. *)
Theorem encode_example_uuid :
  Key.encode exampleUUID false = Ok (Key.mk exampleKey)
  /\ Key.toString (Key.mk exampleKey) = exampleKey
  /\ Key.toUUID (Key.mk exampleKey) = Ok exampleUUID.
Proof. vm_compute. repeat split. Qed.

(** ** The APIKey constructor *)

(** C9: the constructor never checks a checksum it is given.  The three other
    fields are stored as given; a non-empty checksum is stored verbatim,
    and only the empty one is replaced by [calculateChecksum] of the object. *)
Theorem constructor_stores_checksum_verbatim
  (p : jsstring) (k : Key.t) (e c : jsstring) :
  prefix (ApiKey.new p k e c) = p
  /\ key (ApiKey.new p k e c) = k
  /\ entropy (ApiKey.new p k e c) = e
  /\ (c <> [] -> checksum (ApiKey.new p k e c) = c)
  /\ (c = [] ->
      checksum (ApiKey.new p k e c)
      = ApiKey.calculateChecksum (ApiKey.new p k e c)).
Proof.
  destruct c as [| u c]; cbn; repeat split; try congruence.
Qed.

(** A checksum that is no CRC32 text at all is kept as it is. *)
Example constructor_keeps_wrong_checksum :
  checksum (ApiKey.new (str "MYPREFIX") (Key.mk exampleKey) (str "ENTROPY")
              (str "not a checksum"))
  = str "not a checksum"
  /\ ApiKey.isValidChecksum (str "not a checksum") = false.
Proof. split; reflexivity. Qed.

(** ** Hexadecimal text of a number *)

(** Numbers below sixteen, one by one. *)
Ltac nibble_cases x H :=
  let p := fresh "p" in
  destruct x as [| p];
  [| do 4 (try (destruct p as [p | p |])); try (exfalso; lia) ];
  clear H.

Lemma upper_hex_digit (x : N) :
  (x < 16)%N -> JS.upperUnit (Hex.charAt Hex.hex x) = Hex.charAt upperHex x.
Proof. intros H. nibble_cases x H; reflexivity. Qed.

Lemma upperHex_isUpperHexUnit (x : N) :
  (x < 16)%N -> Hex.isUpperHexUnit (Hex.charAt upperHex x) = true.
Proof. intros H. nibble_cases x H; reflexivity. Qed.

Lemma fixedHex_length (w : nat) (n : N) : length (fixedHex w n) = w.
Proof.
  revert n; induction w as [| w IH]; intros n; cbn; [reflexivity |].
  rewrite length_app, IH; cbn; lia.
Qed.

Lemma fixedHex_upper (w : nat) (n : N) :
  forallb Hex.isUpperHexUnit (fixedHex w n) = true.
Proof.
  revert n; induction w as [| w IH]; intros n; cbn [fixedHex];
    [reflexivity |].
  rewrite forallb_app, IH; cbn [forallb andb].
  rewrite upperHex_isUpperHexUnit; [reflexivity |].
  apply N.mod_lt; discriminate.
Qed.

Lemma fixedHex_zero (w : nat) : fixedHex w 0 = repeat Hex.zero w.
Proof.
  induction w as [| w IH]; cbn [fixedHex repeat]; [reflexivity |].
  change (0 / 16)%N with 0%N. rewrite IH.
  change (Hex.charAt upperHex (0 mod 16)) with Hex.zero.
  now rewrite <- repeat_cons.
Qed.

(** [digits16] with enough fuel writes the digits of [n] without leading
    zeros: padded with zeros, they are the fixed-width digits. *)
Lemma digits16_fixedHex (fuel : nat) :
  forall (k : nat) (n : N) (acc : jsstring),
    (n < 16 ^ N.of_nat fuel)%N -> (n < 16 ^ N.of_nat k)%N ->
    1 <= fuel -> 1 <= k ->
    exists z,
      z < k
      /\ length (Hex.digits16 fuel n acc) = k - z + length acc
      /\ repeat Hex.zero z ++ JS.toUpperCase (Hex.digits16 fuel n acc)
         = fixedHex k n ++ JS.toUpperCase acc.
Proof.
  induction fuel as [| fuel IH]; intros k n acc Hf Hk Lf Lk; [lia |].
  destruct k as [| k]; [lia |].
  cbn [Hex.digits16].
  assert (Hd : (n mod 16 < 16)%N) by (apply N.mod_lt; discriminate).
  destruct (N.eqb_spec (n / 16) 0) as [E | E].
  - exists k. split; [lia |]. split; [cbn [length]; lia |].
    cbn [fixedHex]. rewrite E, fixedHex_zero.
    cbn [JS.toUpperCase map]. rewrite upper_hex_digit by exact Hd.
    rewrite <- app_assoc. reflexivity.
  - assert (Hn : (16 <= n)%N).
    { destruct (N.lt_ge_cases n 16) as [Hlt | Hge]; [| exact Hge].
      exfalso. apply E. apply N.div_small. exact Hlt. }
    assert (Hpow : forall m : nat, (n < 16 ^ N.of_nat (S m))%N ->
                              1 <= m /\ (n / 16 < 16 ^ N.of_nat m)%N).
    { intros m Hm. rewrite Nat2N.inj_succ, N.pow_succ_r' in Hm. split.
      - destruct m as [| m]; [| lia]. cbn in Hm. lia.
      - apply N.Div0.div_lt_upper_bound. exact Hm. }
    destruct (Hpow fuel Hf) as [Lf' Hf'], (Hpow k Hk) as [Lk' Hk'].
    destruct (IH k (n / 16)%N (Hex.charAt Hex.hex (n mod 16) :: acc)
                Hf' Hk' Lf' Lk') as (z & Hz & Hlen & Heq).
    exists z. split; [lia |]. split.
    + rewrite Hlen. cbn [length]. lia.
    + rewrite Heq. cbn [fixedHex JS.toUpperCase map].
      rewrite upper_hex_digit by exact Hd.
      rewrite <- app_assoc. reflexivity.
Qed.

Lemma toString16_fixedHex (k : nat) (n : N) :
  1 <= k -> (n < 16 ^ N.of_nat k)%N ->
  JS.padStart k Hex.zero (JS.toUpperCase (Hex.toString16 n)) = fixedHex k n.
Proof.
  intros Lk Hk. unfold Hex.toString16.
  assert (Hf : (n < 16 ^ N.of_nat (S (N.to_nat (N.log2 n))))%N).
  { rewrite Nat2N.inj_succ, N2Nat.id.
    destruct (N.eq_dec n 0) as [-> | Hn0]; [reflexivity |].
    apply N.lt_le_trans with (2 ^ N.succ (N.log2 n))%N.
    - apply N.log2_spec. lia.
    - apply N.pow_le_mono_l. lia. }
  destruct (digits16_fixedHex _ k n [] Hf Hk) as (z & Hz & Hlen & Heq);
    [lia | exact Lk |].
  unfold JS.padStart, JS.toUpperCase. rewrite length_map, Hlen.
  cbn [length]. replace (k - (k - z + 0)) with z by lia.
  rewrite app_nil_r in Heq. exact Heq.
Qed.

Lemma crc32_range (data : jsstring) : (Crc.crc32 data < 16 ^ N.of_nat 8)%N.
Proof.
  unfold Crc.crc32, Crc.crc32Bytes. apply N.mod_lt. discriminate.
Qed.

Lemma calculateChecksum_hex (a : APIKey) :
  length (ApiKey.calculateChecksum a) = 8
  /\ forallb Hex.isUpperHexUnit (ApiKey.calculateChecksum a) = true.
Proof.
  assert (E : ApiKey.calculateChecksum a
              = fixedHex 8 (Crc.crc32 (checksumData a))).
  { unfold ApiKey.calculateChecksum.
    apply toString16_fixedHex; [lia | apply crc32_range]. }
  rewrite E. split; [apply fixedHex_length | apply fixedHex_upper].
Qed.

(** C3: the checksum of an APIKey is the CRC32 of the UTF-8 bytes of
    prefix, "_", key and entropy, written as exactly eight upper-case
    hexadecimal digits, zeros first. *)
Theorem calculateChecksum_spec (a : APIKey) :
  ApiKey.calculateChecksum a
  = fixedHex 8 (Crc.crc32Bytes (Buffer.fromString (checksumData a)))
  /\ length (ApiKey.calculateChecksum a) = 8
  /\ forallb Hex.isUpperHexUnit (ApiKey.calculateChecksum a) = true.
Proof.
  assert (E : ApiKey.calculateChecksum a
              = fixedHex 8 (Crc.crc32 (checksumData a))).
  { unfold ApiKey.calculateChecksum.
    apply toString16_fixedHex; [lia | apply crc32_range]. }
  rewrite E.
  split; [reflexivity | split; [apply fixedHex_length | apply fixedHex_upper]].
Qed.

Example calculateChecksum_example :
  ApiKey.calculateChecksum
    (mkAPIKey (str "MYPREFIX") (Key.mk exampleKey)
       (str "VNBP1HX5VMAJDWWHK7TZJ") [])
  = str "E4809599".
Proof. vm_compute. reflexivity. Qed.

(** ** Parsing: the order of the checks *)

Lemma isUpperHexUnit_iff (u : N) :
  Hex.isUpperHexUnit u = true <-> (48 <= u <= 57)%N \/ (65 <= u <= 70)%N.
Proof.
  unfold Hex.isUpperHexUnit.
  rewrite orb_true_iff, !andb_true_iff, !N.leb_le. tauto.
Qed.

Lemma isValidChecksum_iff (c : jsstring) :
  ApiKey.isValidChecksum c = true <-> IsChecksumText c.
Proof.
  unfold ApiKey.isValidChecksum, IsChecksumText, Constants.CHECKSUM_LENGTH.
  destruct (Nat.eqb_spec (length c) 8) as [L | L]; cbn.
  - rewrite forallb_forall, Forall_forall. split.
    + intros H. split; [exact L |].
      intros u Hu. apply isUpperHexUnit_iff, H, Hu.
    + intros [_ H] u Hu. apply isUpperHexUnit_iff, H, Hu.
  - split; [discriminate | intros [L' _]; contradiction].
Qed.

Lemma eqb_true_iff (s t : jsstring) : JS.eqb s t = true <-> s = t.
Proof.
  unfold JS.eqb. destruct (list_eq_dec N.eq_dec s t); split;
    congruence.
Qed.

Lemma parse_wrong_part_count (s : jsstring) :
  s <> [] -> length (JS.split underscore s) <> 3 ->
  ApiKey.parse s = Throw (WrongPartCount (length (JS.split underscore s))).
Proof.
  intros Hs Hn. unfold ApiKey.parse.
  destruct s as [| u s]; [contradiction |].
  destruct (JS.split underscore (u :: s)) as [| p [| r [| c [| x l]]]];
    try reflexivity.
  cbn in Hn. contradiction.
Qed.

Lemma parse_three_parts (s p r c : jsstring) :
  s <> [] -> JS.split underscore s = [p; r; c] ->
  parseParts p r c (ApiKey.parse s).
Proof.
  intros Hs Hsplit. unfold ApiKey.parse.
  destruct s as [| u s]; [contradiction |].
  rewrite Hsplit. clear Hsplit Hs u s.
  unfold parseParts, Constants.KEY_LENGTH_WITHOUT_HYPHENS, JS.slice,
    JS.sliceFrom, Key.parse, Key.new.
  change (28 - 0) with 28; change (skipn 0 r) with r.
  destruct p as [| u p].
  { repeat split; try reflexivity; intros; congruence. }
  destruct (Nat.ltb_spec (length r) 28) as [Hr | Hr].
  { repeat split; try reflexivity; intros; try congruence; lia. }
  destruct (ApiKey.isValidChecksum c) eqn:Hc; cbn [negb].
  2:{ assert (Hn : ~ IsChecksumText c).
      { intros H. apply isValidChecksum_iff in H. congruence. }
      repeat split; try reflexivity; intros; try congruence;
        try contradiction; lia. }
  apply isValidChecksum_iff in Hc.
  destruct (Key.isValid (firstn 28 r)) eqn:Hk; cbn [negb bind].
  2:{ repeat split; try reflexivity; intros; try congruence;
        try contradiction; lia. }
  assert (Hnew : ApiKey.new (u :: p) (Key.mk (firstn 28 r)) (skipn 28 r) c
                 = mkAPIKey (u :: p) (Key.mk (firstn 28 r)) (skipn 28 r) c).
  { destruct c as [| x c]; [| reflexivity].
    destruct Hc as [Hc _]. discriminate Hc. }
  rewrite Hnew.
  destruct (JS.eqb c _) eqn:He; cbn [negb].
  + apply eqb_true_iff in He.
    repeat split; try reflexivity; intros; try congruence;
      try contradiction; lia.
  + assert (Hne : c <> ApiKey.calculateChecksum
                        (mkAPIKey (u :: p) (Key.mk (firstn 28 r))
                           (skipn 28 r) c)).
    { intros H. apply eqb_true_iff in H. congruence. }
    repeat split; try reflexivity; intros; try congruence;
      try contradiction; lia.
Qed.

(** C4: [parse] checks, in this order and stopping at the first failure:
    the empty text; the number of parts between underscores (exactly three,
    the error carries the number found); an empty prefix; a second part
    shorter than 28; a third part that is not eight characters of 0-9A-F;
    the first 28 characters of the second part as a Key; the checksum
    against the one computed from prefix, key and entropy (the error carries
    both).  Only then does it return the APIKey. *)
Theorem parse_checks_in_order (s : jsstring) :
  (s = [] -> ApiKey.parse s = Throw InvalidAPIKeyFormat)
  /\ (s <> [] -> length (JS.split underscore s) <> 3 ->
      ApiKey.parse s
      = Throw (WrongPartCount (length (JS.split underscore s))))
  /\ (forall p r c,
        s <> [] -> JS.split underscore s = [p; r; c] ->
        parseParts p r c (ApiKey.parse s)).
Proof.
  split; [intros ->; reflexivity |].
  split; [apply parse_wrong_part_count |].
  intros p r c. apply parse_three_parts.
Qed.

(** The failing inputs of the test suite, check by check. *)
Example parse_empty : ApiKey.parse [] = Throw InvalidAPIKeyFormat.
Proof. reflexivity. Qed.

Example parse_two_parts :
  ApiKey.parse
    (str "MYPREFIX_38QARV01ET0G6Z2CJD9VA2ZZAR0XVNBP1HX5VMAJDWWHK7TZJ")
  = Throw (WrongPartCount 2)
  /\ message (WrongPartCount 2)
     = str "invalid APIKey format: expected 3 parts, got 2".
Proof. vm_compute. split; reflexivity. Qed.

Example parse_empty_prefix :
  ApiKey.parse
    (str "_38QARV01ET0G6Z2CJD9VA2ZZAR0XVNBP1HX5VMAJDWWHK7TZJ_E4809523")
  = Throw InvalidPrefixEmpty.
Proof. vm_compute. reflexivity. Qed.

Example parse_short_key :
  ApiKey.parse (str "MYPREFIX_38QARV01ET0G6Z2CJD9VA2ZZAR0_E480") 
  = Throw InsufficientLength.
Proof. vm_compute. reflexivity. Qed.

Example parse_long_checksum :
  ApiKey.parse
    (str "MYPREFIX_38QARV01ET0G6Z2CJD9VA2ZZAR0XVNBP1HX5VMAJDWWHK7TZJJ_E480952332")
  = Throw InvalidChecksumFormat.
Proof. vm_compute. reflexivity. Qed.

Example parse_bad_key :
  ApiKey.parse
    (str "MYPREFIX_38qarv01ET0G6Z2CJD9VA2ZZAR0XVNBP1HX5VMAJDWWHK7TZJ_E4809599")
  = Throw InvalidUUIDKeyParse.
Proof. vm_compute. reflexivity. Qed.

Example parse_wrong_checksum :
  ApiKey.parse
    (str "MYPREFIX_38QARV01ET0G6Z2CJD9VA2ZZAR0XVNBP1HX5VMAJDWWHK7TZJ_E4809523")
  = Throw (InvalidChecksum (str "E4809599") (str "E4809523")).
Proof. vm_compute. reflexivity. Qed.

Example parse_accepts :
  ApiKey.parse
    (str "MYPREFIX_38QARV01ET0G6Z2CJD9VA2ZZAR0XVNBP1HX5VMAJDWWHK7TZJ_E4809599")
  = Ok (mkAPIKey (str "MYPREFIX") (Key.mk exampleKey)
          (str "VNBP1HX5VMAJDWWHK7TZJ") (str "E4809599")).
Proof. vm_compute. reflexivity. Qed.

(** ** The Crockford encoder *)

(** Numbers below thirty-two, one by one. *)
Ltac small_cases x H :=
  let p := fresh "p" in
  destruct x as [| p];
  [| do 5 (try (destruct p as [p | p |])); try (exfalso; lia) ];
  clear H.

Lemma hex_digit_facts (x : N) :
  (x < 16)%N ->
  Hex.isHexUnit (Hex.charAt Hex.hex x) = true
  /\ JS.lowerUnit (Hex.charAt Hex.hex x) = Hex.charAt Hex.hex x
  /\ Hex.indexOf Hex.hex (Hex.charAt Hex.hex x) = x
  /\ Buffer.unhex (Hex.charAt Hex.hex x) = Some x.
Proof. intros H. nibble_cases x H; repeat split. Qed.

Lemma c32_digit_facts (i : N) :
  (i < 32)%N ->
  isCrockfordUpper (Hex.charAt Hex.c32 i) = true
  /\ (Hex.charAt Hex.c32 i =? Hex.zero)%N = (i =? 0)%N.
Proof. intros H. small_cases i H; split; reflexivity. Qed.

Lemma digitIndex_lt_32 (carry x y : N) :
  (carry < 4)%N -> (x < 16)%N -> (y < 16)%N ->
  (digitIndex carry x y < 32)%N.
Proof.
  intros Hc Hx Hy.
  nibble_cases carry Hc; nibble_cases x Hx; nibble_cases y Hy; reflexivity.
Qed.

Lemma nibbles_lt_16 (buf : Buffer.t) : Forall (fun x => (x < 16)%N) (nibbles buf).
Proof.
  induction buf as [| b buf IH]; cbn [nibbles flat_map app]; [constructor |].
  constructor; [apply N.mod_lt; discriminate |].
  constructor; [apply N.mod_lt; discriminate | exact IH].
Qed.

Lemma toHex_nibbles (buf : Buffer.t) :
  Buffer.toHex buf = map (Hex.charAt Hex.hex) (nibbles buf).
Proof.
  induction buf as [| b buf IH]; [reflexivity |].
  unfold Buffer.toHex, nibbles in *. cbn [flat_map].
  rewrite map_app, IH. reflexivity.
Qed.

Lemma isHexString_digits (l : list N) :
  Forall (fun x => (x < 16)%N) l ->
  Hex.isHexString (map (Hex.charAt Hex.hex) l) = true
  /\ JS.toLowerCase (map (Hex.charAt Hex.hex) l) = map (Hex.charAt Hex.hex) l.
Proof.
  induction 1 as [| x l Hx _ [IH1 IH2]]; [split; reflexivity |].
  destruct (hex_digit_facts _ Hx) as (F1 & F2 & _).
  unfold Hex.isHexString, JS.toLowerCase in *. cbn [map forallb].
  rewrite F1, F2, IH1, IH2. split; reflexivity.
Qed.

Lemma byte_of_nibbles (b : N) : (16 * ((b / 16) mod 16) + b mod 16 = b mod 256)%N.
Proof.
  rewrite (N.Div0.mod_mul_r b 16 16) at 1.
  change (16 * 16)%N with 256%N. lia.
Qed.

Lemma fromHex_toHex (buf : Buffer.t) :
  Buffer.fromHex (Buffer.toHex buf) = map (fun b => b mod 256)%N buf.
Proof.
  induction buf as [| b buf IH]; [reflexivity |].
  change (Buffer.toHex (b :: buf))
    with (Hex.charAt Hex.hex ((b / 16) mod 16)
            :: Hex.charAt Hex.hex (b mod 16) :: Buffer.toHex buf).
  cbn [Buffer.fromHex map].
  destruct (hex_digit_facts ((b / 16) mod 16)) as (_ & _ & _ & ->);
    [apply N.mod_lt; discriminate |].
  destruct (hex_digit_facts (b mod 16)) as (_ & _ & _ & ->);
    [apply N.mod_lt; discriminate |].
  rewrite IH, byte_of_nibbles. reflexivity.
Qed.

Lemma toHex_length (buf : Buffer.t) : length (Buffer.toHex buf) = 2 * length buf.
Proof.
  induction buf as [| b buf IH]; [reflexivity |].
  change (Buffer.toHex (b :: buf))
    with (Buffer.byteToHex b ++ Buffer.toHex buf).
  rewrite length_app, IH. cbn [Buffer.byteToHex length]. lia.
Qed.

(** The loop on characters is the loop on values. *)
Lemma encodeLoop_nibbles (digits : list N) :
  forall carry res,
    Forall (fun x => (x < 16)%N) digits ->
    C32check.encodeLoop (map (Hex.charAt Hex.hex) digits) carry
      (map (Hex.charAt Hex.c32) res)
    = map (Hex.charAt Hex.c32) (encodeNibbles digits carry res).
Proof.
  induction digits as [| x before IH]; intros carry res Hd; [reflexivity |].
  inversion Hd as [| ? ? Hx Hb]; subst.
  cbn [map C32check.encodeLoop encodeNibbles].
  destruct (carry <? 4)%N; [| apply IH; exact Hb].
  destruct (hex_digit_facts _ Hx) as (_ & _ & -> & _).
  rewrite <- (IH _ _ Hb). f_equal. cbn [map]. f_equal. unfold digitIndex.
  destruct before as [| y before']; [reflexivity |].
  inversion Hb as [| ? ? Hy _]; subst. cbn [map].
  destruct (hex_digit_facts _ Hy) as (_ & _ & -> & _). reflexivity.
Qed.

Lemma encodeNibbles_lt_32 (digits : list N) :
  forall carry res,
    Forall (fun x => (x < 16)%N) digits ->
    Forall (fun i => (i < 32)%N) res ->
    Forall (fun i => (i < 32)%N) (encodeNibbles digits carry res).
Proof.
  induction digits as [| x before IH]; intros carry res Hd Hr; [exact Hr |].
  inversion Hd as [| ? ? Hx Hb]; subst. cbn [encodeNibbles].
  destruct (N.ltb_spec carry 4) as [Hc | Hc]; [| apply IH; assumption].
  apply IH; [exact Hb |]. constructor; [| exact Hr].
  apply digitIndex_lt_32; [exact Hc | exact Hx |].
  destruct before as [| y ?]; [reflexivity |].
  inversion Hb; assumption.
Qed.

Lemma dropLeading_suffix (c : N) (l : list N) :
  exists n, l = repeat c n ++ Hex.dropLeading c l
            /\ n = Hex.countLeading c l.
Proof.
  induction l as [| x l (n & IH & Hn)]; [exists 0; split; reflexivity |].
  cbn [Hex.dropLeading Hex.countLeading].
  destruct (N.eqb_spec x c) as [-> | _]; [| exists 0; split; reflexivity].
  exists (S n). split; [cbn [repeat app]; f_equal; exact IH | f_equal; exact Hn].
Qed.

Lemma dropLeading_length (c : N) (l : list N) :
  length (Hex.dropLeading c l) <= length l.
Proof.
  destruct (dropLeading_suffix c l) as (n & H & _).
  rewrite H at 2. rewrite length_app. lia.
Qed.

Lemma dropLeading_Forall (P : N -> Prop) (c : N) (l : list N) :
  Forall P l -> Forall P (Hex.dropLeading c l).
Proof.
  destruct (dropLeading_suffix c l) as (n & H & _).
  intros HP. rewrite H in HP. apply Forall_app in HP. apply HP.
Qed.

Lemma dropLeading_c32 (l : list N) :
  Forall (fun i => (i < 32)%N) l ->
  Hex.dropLeading Hex.zero (map (Hex.charAt Hex.c32) l)
  = map (Hex.charAt Hex.c32) (Hex.dropLeading 0%N l).
Proof.
  induction 1 as [| i l Hi _ IH]; [reflexivity |].
  cbn [map Hex.dropLeading].
  destruct (c32_digit_facts _ Hi) as [_ ->].
  destruct (i =? 0)%N; [exact IH | reflexivity].
Qed.

(** The byte-order mark changes the count of the leading zero bytes only
    where a zero byte follows it. *)
Lemma dropByteOrderMark_count (l : list N) :
  startsWithMarkAndZero l = false ->
  Hex.countLeading 0%N (C32check.dropByteOrderMark l) = Hex.countLeading 0%N l.
Proof.
  unfold startsWithMarkAndZero, C32check.dropByteOrderMark.
  destruct l as [| a [| b [| c rest]]]; try reflexivity.
  destruct (N.eqb_spec a 239) as [-> | _]; [| reflexivity].
  destruct (N.eqb_spec b 187) as [-> | _]; [| reflexivity].
  destruct (N.eqb_spec c 191) as [-> | _]; [| reflexivity].
  destruct rest as [| d rest]; [reflexivity |].
  cbn [andb Hex.countLeading]. intros ->. reflexivity.
Qed.

Lemma dropByteOrderMark_count_ge (l : list N) :
  Hex.countLeading 0%N l
  <= Hex.countLeading 0%N (C32check.dropByteOrderMark l).
Proof.
  unfold C32check.dropByteOrderMark.
  destruct l as [| a [| b [| c rest]]]; try apply le_n.
  destruct (N.eqb_spec a 239) as [-> | _]; [| apply le_n].
  destruct (N.eqb_spec b 187) as [-> | _]; [| apply le_n].
  destruct (N.eqb_spec c 191) as [-> | _]; [| apply le_n].
  cbn [andb Hex.countLeading N.eqb]. apply Nat.le_0_l.
Qed.

(** [c32encode] of the hexadecimal text of a buffer never fails: one zero per
    zero byte at the start of the bytes left without the byte-order mark,
    then the digits of the number without leading zeros. *)
Lemma c32encode_toHex (buf : Buffer.t) :
  C32check.c32encode (Buffer.toHex buf)
  = Ok (repeat Hex.zero
          (Hex.countLeading 0%N
             (C32check.dropByteOrderMark (map (fun b => b mod 256)%N buf)))
        ++ map (Hex.charAt Hex.c32)
             (Hex.dropLeading 0%N (encodeNibbles (rev (nibbles buf)) 0%N []))).
Proof.
  unfold C32check.c32encode.
  rewrite toHex_length.
  replace (Nat.odd (2 * length buf)) with false
    by (symmetry; rewrite <- Nat.negb_even, Nat.even_mul; reflexivity).
  pose proof (nibbles_lt_16 buf) as Hn.
  rewrite toHex_nibbles.
  destruct (isHexString_digits _ Hn) as [-> ->]. cbn [negb].
  rewrite <- toHex_nibbles, fromHex_toHex, toHex_nibbles.
  rewrite <- map_rev.
  change (@nil N) with (map (Hex.charAt Hex.c32) []) at 1.
  rewrite encodeLoop_nibbles by (apply Forall_rev; exact Hn).
  rewrite dropLeading_c32; [reflexivity |].
  apply encodeNibbles_lt_32; [apply Forall_rev; exact Hn | constructor].
Qed.

(** Where the buffer does not start with a byte-order mark and a zero byte,
    that is one zero per leading zero byte. *)
Lemma c32encode_toHex_plain (buf : Buffer.t) :
  startsWithMarkAndZero (map (fun b => b mod 256)%N buf) = false ->
  C32check.c32encode (Buffer.toHex buf)
  = Ok (repeat Hex.zero
          (Hex.countLeading 0%N (map (fun b => b mod 256)%N buf))
        ++ map (Hex.charAt Hex.c32)
             (Hex.dropLeading 0%N (encodeNibbles (rev (nibbles buf)) 0%N []))).
Proof.
  intros H. rewrite c32encode_toHex, (dropByteOrderMark_count _ H).
  reflexivity.
Qed.

Lemma forallb_repeat (f : N -> bool) (c : N) (n : nat) :
  f c = true -> forallb f (repeat c n) = true.
Proof. intros H. induction n as [| n IH]; cbn; [reflexivity | now rewrite H]. Qed.

(** Every character [c32encode] writes is an upper-case Crockford digit. *)
Lemma c32encode_toHex_alphabet (buf : Buffer.t) (r : jsstring) :
  C32check.c32encode (Buffer.toHex buf) = Ok r ->
  forallb isCrockfordUpper r = true.
Proof.
  rewrite c32encode_toHex. intros [= <-].
  rewrite forallb_app, forallb_repeat by reflexivity. cbn [andb].
  apply forallb_forall. intros c Hc. apply in_map_iff in Hc.
  destruct Hc as (i & <- & Hi).
  assert (H32 : Forall (fun i => (i < 32)%N)
                  (Hex.dropLeading 0%N
                     (encodeNibbles (rev (nibbles buf)) 0%N []))).
  { apply dropLeading_Forall, encodeNibbles_lt_32;
      [apply Forall_rev, nibbles_lt_16 | constructor]. }
  rewrite Forall_forall in H32.
  apply c32_digit_facts, H32, Hi.
Qed.

(** *** Four bytes other than EF BB BF 00 give at most seven digits *)

Lemma encodeNibbles_8 (h0 l0 h1 l1 h2 l2 h3 l3 : N) :
  encodeNibbles [l3; h3; l2; h2; l1; h1; l0; h0] 0%N []
  = [ digitIndex 2 h0 0; digitIndex 1 l0 h0; digitIndex 0 h1 l0;
      digitIndex 3 h2 l1; digitIndex 2 l2 h2; digitIndex 1 h3 l2;
      digitIndex 0 l3 h3 ].
Proof. reflexivity. Qed.

Lemma zero_byte_nibbles (b : N) :
  (b mod 256 = 0)%N -> ((b / 16) mod 16 = 0 /\ b mod 16 = 0)%N.
Proof.
  intros H. pose proof (byte_of_nibbles b) as E. rewrite H in E. clear H.
  revert E. generalize ((b / 16) mod 16)%N (b mod 16)%N. intros x y. lia.
Qed.

Lemma dropLeading_zero_cons (l : list N) :
  Hex.dropLeading 0%N (0%N :: l) = Hex.dropLeading 0%N l.
Proof. reflexivity. Qed.

Lemma Ok_inj {A} (a b : A) : Ok a = Ok b -> a = b.
Proof. congruence. Qed.

Lemma c32encode_4_bytes_length (b0 b1 b2 b3 : N) (r : jsstring) :
  startsWithMarkAndZero (map (fun b => b mod 256)%N [b0; b1; b2; b3]) = false ->
  C32check.c32encode (Buffer.toHex [b0; b1; b2; b3]) = Ok r ->
  length r <= 7.
Proof.
  intros M. rewrite (c32encode_toHex_plain _ M). clear M.
  intros H. apply Ok_inj in H. subst r.
  rewrite length_app, repeat_length, length_map.
  change (rev (nibbles [b0; b1; b2; b3]))
    with [ b3 mod 16; (b3 / 16) mod 16; b2 mod 16; (b2 / 16) mod 16;
           b1 mod 16; (b1 / 16) mod 16; b0 mod 16; (b0 / 16) mod 16 ]%N.
  rewrite encodeNibbles_8.
  cbn [map Hex.countLeading].
  destruct (N.eqb_spec (b0 mod 256) 0) as [E0 | _];
    [| match goal with
       | |- context [Hex.dropLeading ?c ?l] =>
           pose proof (dropLeading_length c l) as Hl; cbn [length] in Hl; lia
       end].
  destruct (zero_byte_nibbles _ E0) as [-> ->].
  change (digitIndex 2 0 0) with 0%N; change (digitIndex 1 0 0) with 0%N.
  rewrite !dropLeading_zero_cons.
  destruct (N.eqb_spec (b1 mod 256) 0) as [E1 | _];
    [| match goal with
       | |- context [Hex.dropLeading ?c ?l] =>
           pose proof (dropLeading_length c l) as Hl; cbn [length] in Hl; lia
       end].
  destruct (zero_byte_nibbles _ E1) as [-> ->].
  change (digitIndex 0 0 0) with 0%N.
  rewrite !dropLeading_zero_cons.
  destruct (N.eqb_spec (b2 mod 256) 0) as [E2 | _];
    [| match goal with
       | |- context [Hex.dropLeading ?c ?l] =>
           pose proof (dropLeading_length c l) as Hl; cbn [length] in Hl; lia
       end].
  destruct (zero_byte_nibbles _ E2) as [-> ->].
  change (digitIndex 3 0 0) with 0%N; change (digitIndex 2 0 0) with 0%N.
  rewrite !dropLeading_zero_cons.
  match goal with
  | |- context [Hex.dropLeading ?c ?l] =>
      pose proof (dropLeading_length c l) as Hl; cbn [length] in Hl
  end.
  destruct (N.eqb_spec (b3 mod 256) 0); lia.
Qed.

(** *** [encodePart] *)

Lemma unhex_isHexUnit (c : N) :
  Hex.isHexUnit c = true -> exists x, Buffer.unhex c = Some x.
Proof.
  unfold Hex.isHexUnit, Buffer.unhex. intros H.
  destruct ((48 <=? c) && (c <=? 57))%N; [eauto |].
  destruct ((97 <=? c) && (c <=? 102))%N; [eauto |].
  destruct ((65 <=? c) && (c <=? 70))%N; [eauto | discriminate H].
Qed.

Lemma padStart_length (n : nat) (c : N) (s : jsstring) :
  length s <= n -> length (JS.padStart n c s) = n.
Proof.
  intros H. unfold JS.padStart. rewrite length_app, repeat_length. lia.
Qed.

Lemma upperUnit_crockford (c : N) :
  isCrockfordUpper c = true -> JS.upperUnit c = c.
Proof.
  unfold isCrockfordUpper, JS.upperUnit. intros H.
  destruct (N.leb_spec 97 c); [| reflexivity].
  exfalso.
  destruct (N.leb_spec 48 c), (N.leb_spec c 57), (N.leb_spec 65 c),
    (N.leb_spec c 90); cbn in H; try discriminate H; lia.
Qed.

Lemma toUpperCase_crockford (s : jsstring) :
  forallb isCrockfordUpper s = true -> JS.toUpperCase s = s.
Proof.
  induction s as [| c s IH]; [reflexivity |].
  cbn [forallb JS.toUpperCase map]. intros H. split_andb.
  rewrite upperUnit_crockford by assumption.
  f_equal. apply IH. assumption.
Qed.

(** Whatever [encodePart] returns consists of upper-case Crockford digits,
    seven at least. *)
Lemma encodePart_alphabet (hex p : jsstring) :
  Key.encodePart hex = Ok p ->
  forallb isCrockfordUpper p = true /\ 7 <= length p.
Proof.
  unfold Key.encodePart.
  destruct (C32check.c32encode _) as [r | e] eqn:E; [| discriminate].
  cbn [bind]. intros [= <-].
  apply c32encode_toHex_alphabet in E.
  assert (Hp : forallb isCrockfordUpper (JS.padStart 7 Hex.zero r) = true).
  { unfold JS.padStart. rewrite forallb_app, forallb_repeat by reflexivity.
    exact E. }
  rewrite toUpperCase_crockford by exact Hp. split; [exact Hp |].
  unfold JS.padStart. rewrite length_app, repeat_length. lia.
Qed.

(** ** Key.encode *)

Local Arguments Hex.isHexUnit : simpl never.
Local Arguments isCrockfordUpper : simpl never.

(** Four parts of seven upper-case Crockford digits make a valid key text,
    with or without hyphens between them. *)
Lemma joined_parts_valid (p0 p1 p2 p3 : jsstring) :
  length p0 = 7 -> length p1 = 7 -> length p2 = 7 -> length p3 = 7 ->
  forallb isCrockfordUpper p0 = true -> forallb isCrockfordUpper p1 = true ->
  forallb isCrockfordUpper p2 = true -> forallb isCrockfordUpper p3 = true ->
  Key.isValid (JS.join [] [p0; p1; p2; p3]) = true
  /\ length (JS.join [] [p0; p1; p2; p3]) = 28
  /\ Key.isValid (JS.join [Key.hyphen] [p0; p1; p2; p3]) = true
  /\ length (JS.join [Key.hyphen] [p0; p1; p2; p3]) = 31
  /\ (forall i c,
        nth_error (JS.join [Key.hyphen] [p0; p1; p2; p3]) i = Some c ->
        if isHyphenIndex i then c = Key.hyphen
        else isCrockfordUpper c = true).
Proof.
  intros L0 L1 L2 L3 A0 A1 A2 A3.
  explode p0 L0; explode p1 L1; explode p2 L2; explode p3 L3.
  cbn [forallb] in A0, A1, A2, A3. split_andb.
  cbn [JS.join app].
  split; [| split; [reflexivity |]].
  { cbn. rewrite !isValidPart_spec. cbn [length Nat.eqb forallb andb].
    repeat match goal with
           | H : isCrockfordUpper _ = true |- _ => rewrite H; clear H
           end.
    reflexivity. }
  split; [| split; [reflexivity |]].
  { cbn. rewrite !isValidPart_spec. cbn [length Nat.eqb forallb andb].
    repeat match goal with
           | H : isCrockfordUpper _ = true |- _ => rewrite H; clear H
           end.
    reflexivity. }
  intros i c Hi.
  do 31 (destruct i as [| i];
         [injection Hi as <-; cbn; first [reflexivity | assumption] |]).
  destruct i; discriminate Hi.
Qed.

(** C6 fails on the code.  The group efbbbf00 is the text of the bytes
    EF BB BF 00.  [c32encode] counts the zeros it puts back in front on the
    bytes decoded as text, and the decoder drops the byte-order mark
    EF BB BF, so the zero byte after it counts as a leading one: [encodePart]
    returns eight characters, and the constructor refuses the key.  For a
    valid version-4 UUID text with this first group [Key.encode] throws
    'Invalid Key format', with either value of the hyphen flag. *)
Theorem encode_refuses_mark_group :
  isUUID markUUID = true
  /\ Key.encodePart (JS.slice 0 8 markUUID) = Ok markPart
  /\ length markPart = 8
  /\ Key.encode markUUID false = Throw InvalidKeyFormat
  /\ Key.encode markUUID true = Throw InvalidKeyFormat.
Proof. repeat split; vm_compute; reflexivity. Qed.

(** ** Building a compound key and reading it back *)

Lemma crockford_not_underscore (s : jsstring) :
  forallb isCrockfordUpper s = true -> ~ In underscore s.
Proof.
  intros H Hin. rewrite forallb_forall in H. apply H in Hin.
  discriminate Hin.
Qed.

Lemma upper_hex_not_underscore (s : jsstring) :
  forallb Hex.isUpperHexUnit s = true -> ~ In underscore s.
Proof.
  intros H Hin. rewrite forallb_forall in H. apply H in Hin.
  discriminate Hin.
Qed.

Lemma forallb_firstn {A} (f : A -> bool) (n : nat) (l : list A) :
  forallb f l = true -> forallb f (firstn n l) = true.
Proof.
  revert n. induction l as [| a l IH]; intros [| n] H; try reflexivity.
  cbn [firstn forallb] in *.
  apply andb_true_iff in H. destruct H as [-> H]. apply IH, H.
Qed.

(** [split] at a separator that occurs nowhere else. *)
Lemma split_no_separator (sep : N) (s : jsstring) :
  ~ In sep s -> JS.split sep s = [s].
Proof.
  induction s as [| c s IH]; intros H; [reflexivity |].
  cbn [JS.split].
  destruct (N.eqb_spec c sep) as [-> | _]; [exfalso; apply H; left; reflexivity |].
  rewrite IH; [reflexivity |]. intros Hin. apply H. right. exact Hin.
Qed.

Lemma split_app_separator (sep : N) (s t : jsstring) :
  ~ In sep s -> JS.split sep (s ++ sep :: t) = s :: JS.split sep t.
Proof.
  induction s as [| c s IH]; intros H; cbn [app JS.split].
  - rewrite N.eqb_refl. reflexivity.
  - destruct (N.eqb_spec c sep) as [-> | _];
      [exfalso; apply H; left; reflexivity |].
    rewrite IH; [reflexivity |]. intros Hin. apply H. right. exact Hin.
Qed.


(** What [Key.encode] returns without hyphens is a valid text of 28
    upper-case Crockford digits. *)
Lemma encode_plain_key (uuid : jsstring) (k : Key.t) :
  Key.encode uuid false = Ok k ->
  length (Key.value k) = 28
  /\ Key.isValid (Key.value k) = true
  /\ forallb isCrockfordUpper (Key.value k) = true.
Proof.
  unfold Key.encode.
  destruct (negb _); [discriminate |].
  destruct (Key.encodePart _) as [p0 | ?] eqn:E0; [| discriminate].
  destruct (Key.encodePart (_ ++ _)) as [p1 | ?] eqn:E1; [| discriminate].
  destruct (Key.encodePart (JS.slice 19 23 uuid ++ _)) as [p2 | ?] eqn:E2;
    [| discriminate].
  destruct (Key.encodePart (JS.slice 28 36 uuid)) as [p3 | ?] eqn:E3;
    [| discriminate].
  cbn [bind JS.join]. unfold Key.new.
  destruct (Key.isValid _) eqn:V; [| discriminate].
  cbn [negb]. intros H. apply Ok_inj in H. subst k. cbn [Key.value].
  apply encodePart_alphabet in E0, E1, E2, E3.
  destruct E0 as [A0 _], E1 as [A1 _], E2 as [A2 _], E3 as [A3 _].
  assert (A : forallb isCrockfordUpper
                (p0 ++ [] ++ p1 ++ [] ++ p2 ++ [] ++ p3) = true).
  { cbn [app]. rewrite !forallb_app, A0, A1, A2, A3. reflexivity. }
  split; [| split; [exact V | exact A]].
  revert V A. generalize (p0 ++ [] ++ p1 ++ [] ++ p2 ++ [] ++ p3).
  intros v V A. unfold Key.isValid in V.
  destruct (Nat.eqb_spec (length v) Constants.KEY_LENGTH_WITH_HYPHENS).
  - exfalso. unfold JS.at_ in V.
    destruct (nth_error v 7) as [c |] eqn:E7; cbn [Key.isHyphen negb orb] in V;
      [| discriminate V].
    destruct (N.eqb_spec c Key.hyphen) as [-> | _]; [| discriminate V].
    apply nth_error_In in E7. rewrite forallb_forall in A.
    apply A in E7. discriminate E7.
  - destruct (Nat.eqb_spec (length v) Constants.KEY_LENGTH_WITHOUT_HYPHENS);
      [assumption | discriminate V].
Qed.

Section CompoundKey.

Variable randomBytes : nat -> Buffer.t.

(** The entropy text is always produced, and consists of upper-case
    Crockford digits. *)
Lemma generateEntropy_alphabet (size : EntropyBits) :
  exists e, ApiKey.generateEntropy randomBytes size = Ok e
            /\ forallb isCrockfordUpper e = true.
Proof.
  unfold ApiKey.generateEntropy, ApiKey.encodeBase32Crockford.
  destruct (C32check.c32encode _) as [r | ?] eqn:E;
    [| rewrite c32encode_toHex in E; discriminate E].
  apply c32encode_toHex_alphabet in E.
  cbn [bind]. eexists. split; [reflexivity |].
  rewrite toUpperCase_crockford by exact E.
  apply forallb_firstn. exact E.
Qed.

(** A key built from a prefix without underscores parses back to itself. *)
Lemma parse_toString_new (p : jsstring) (k : Key.t) (e : jsstring) :
  p <> [] -> ~ In underscore p ->
  length (Key.value k) = 28 -> Key.isValid (Key.value k) = true ->
  forallb isCrockfordUpper (Key.value k) = true ->
  forallb isCrockfordUpper e = true ->
  ApiKey.parse (ApiKey.toString (ApiKey.new p k e []))
  = Ok (ApiKey.new p k e []).
Proof.
  intros Hp Hu Lk Vk Ak Ae.
  destruct k as [v]. cbn [Key.value] in *.
  set (c := ApiKey.calculateChecksum (mkAPIKey p (Key.mk v) e [])).
  change (ApiKey.new p (Key.mk v) e []) with (mkAPIKey p (Key.mk v) e c).
  destruct (calculateChecksum_hex (mkAPIKey p (Key.mk v) e [])) as [Lc Ac].
  fold c in Lc, Ac.
  assert (Hsplit : JS.split underscore
                     (ApiKey.toString (mkAPIKey p (Key.mk v) e c))
                   = [p; v ++ e; c]).
  { unfold ApiKey.toString, Key.toString. cbn [prefix key entropy checksum
      Key.value app].
    rewrite split_app_separator by exact Hu.
    rewrite app_assoc, split_app_separator.
    - rewrite split_no_separator; [reflexivity |].
      apply upper_hex_not_underscore, Ac.
    - apply crockford_not_underscore. rewrite forallb_app, Ak, Ae.
      reflexivity. }
  assert (Hne : ApiKey.toString (mkAPIKey p (Key.mk v) e c) <> []).
  { unfold ApiKey.toString. cbn [prefix]. destruct p; [contradiction |].
    discriminate. }
  destruct (parse_three_parts _ _ _ _ Hne Hsplit) as (_ & _ & _ & _ & _ & H).
  assert (F : firstn 28 (v ++ e) = v).
  { rewrite <- Lk, firstn_app, Nat.sub_diag, firstn_all. cbn [firstn].
    apply app_nil_r. }
  assert (S : skipn 28 (v ++ e) = e).
  { rewrite <- Lk, skipn_app, Nat.sub_diag, skipn_all. reflexivity. }
  rewrite F, S in H. apply H.
  - exact Hp.
  - rewrite length_app. lia.
  - apply isValidChecksum_iff. unfold ApiKey.isValidChecksum.
    rewrite Lc, Ac. reflexivity.
  - exact Vk.
  - reflexivity.
Qed.

(** C5: for every non-empty prefix without underscore, every UUID text that
    [Key.encode] accepts, every entropy option and every output of the
    random source, [newAPIKey] succeeds and the text of its key parses back
    to the same APIKey, hence to the same text. *)
Theorem newAPIKey_toString_reparses
  (p uuid : jsstring) (opt : Option) (k : Key.t) :
  p <> [] -> ~ In underscore p ->
  Key.encode uuid false = Ok k ->
  exists a,
    ApiKey.newAPIKey randomBytes p uuid opt = Ok a
    /\ ApiKey.parse (ApiKey.toString a) = Ok a
    /\ (a' <- ApiKey.parse (ApiKey.toString a) ;; Ok (ApiKey.toString a'))
       = Ok (ApiKey.toString a).
Proof.
  intros Hp Hu Hk.
  destruct (encode_plain_key _ _ Hk) as (Lk & Vk & Ak).
  destruct (generateEntropy_alphabet
              (entropySize (ApiKey.applyOptions opt))) as (e & He & Ae).
  exists (ApiKey.new p k e []).
  assert (Hnew : ApiKey.newAPIKey randomBytes p uuid opt
                 = Ok (ApiKey.new p k e [])).
  { unfold ApiKey.newAPIKey. destruct p; [contradiction |].
    rewrite Hk. cbn [bind]. rewrite He. reflexivity. }
  pose proof (parse_toString_new p k e Hp Hu Lk Vk Ak Ae) as Hparse.
  split; [exact Hnew | split; [exact Hparse |]].
  rewrite Hparse. reflexivity.
Qed.


End CompoundKey.

(** ** The round trip through the key *)

(** C1 fails on the code.  [encodePart] pads the Crockford text of a group
    with zeros up to seven characters, and [c32decode] reads every leading
    zero as a zero byte: a group below 0x40000000 comes back longer than it
    went in.  For a version-7 UUID and for the nil UUID, with either value of
    the hyphen flag, [toUUID] succeeds and returns a text that is not the
    UUID, whatever the case of the letters. *)
Theorem encode_toUUID_lengthens_small_groups :
  isUUID timestampUUID = true
  /\ Key.encode timestampUUID false
     = Ok (Key.mk (str "00S5MX41DPRZFF20J6HB724TQKFF"))
  /\ encodeThenToUUID timestampUUID false
     = Ok (str "00000192d3a4-5b6c-7def-8123-456789abcdef")
  /\ encodeThenToUUID timestampUUID true
     = Ok (str "00000192d3a4-5b6c-7def-8123-456789abcdef")
  /\ ~ sameIgnoringCase (str "00000192d3a4-5b6c-7def-8123-456789abcdef")
         timestampUUID
  /\ isUUID nilUUID = true
  /\ encodeThenToUUID nilUUID false
     = Ok (str "00000000000000-0000-0000000000-0000-000000000000000000000000")
  /\ encodeThenToUUID nilUUID true
     = Ok (str "00000000000000-0000-0000000000-0000-000000000000000000000000")
  /\ ~ sameIgnoringCase
         (str "00000000000000-0000-0000000000-0000-000000000000000000000000")
         nilUUID.
Proof.
  repeat split; try (vm_compute; reflexivity);
    unfold sameIgnoringCase; vm_compute; discriminate.
Qed.

(** The round trip does hold on the UUID of the test suite, in either case
    of its letters and with either value of the hyphen flag. *)
Example encode_toUUID_example :
  encodeThenToUUID exampleUUID false = Ok exampleUUID
  /\ encodeThenToUUID exampleUUID true = Ok exampleUUID
  /\ encodeThenToUUID (JS.toUpperCase exampleUUID) true = Ok exampleUUID.
Proof. vm_compute. repeat split. Qed.

(** ** The encoder writes the number of its input in base 32 *)

Ltac Zify.zify_post_hook ::= Z.to_euclidean_division_equations.

Ltac compute_powers :=
  repeat match goal with
         | |- context [(2 ^ ?k)%N] =>
             let v := eval vm_compute in (2 ^ k)%N in
             progress change (2 ^ k)%N with v
         end.

(** The step of the loop, on the numbers: the digit written at carry [c]
    and what is left of the number add up to the number shifted by [c]. *)
Lemma digitIndex_step (c x y R : N) :
  (c < 4)%N -> (x < 16)%N -> (y < 16)%N ->
  (digitIndex c x y + 32 * ((y + 16 * R) / 2 ^ (1 + c))
   = (x + 16 * (y + 16 * R)) / 2 ^ c)%N.
Proof.
  intros Hc Hx Hy. unfold digitIndex.
  rewrite N.shiftr_div_pow2, !N.shiftl_mul_pow2.
  nibble_cases c Hc; cbn [N.add N.sub Pos.add Pos.succ Pos.sub Pos.sub_mask
    Pos.pred_double Pos.double_mask Pos.succ_double_mask Pos.double_pred_mask];
    compute_powers; lia.
Qed.

Lemma encodeNibbles_value (xs : list N) :
  forall c res,
    Forall (fun x => (x < 16)%N) xs -> (c <= 4)%N ->
    valueBE 32 (encodeNibbles xs c res)
    = (valueBE 32 res
       + 32 ^ N.of_nat (length res) * (valueLE 16 xs / 2 ^ c))%N.
Proof.
  induction xs as [| x before IH]; intros c res Hxs Hc.
  - cbn [encodeNibbles valueLE]. rewrite N.Div0.div_0_l. lia.
  - inversion Hxs as [| ? ? Hx Hb]; subst.
    cbn [encodeNibbles valueLE].
    destruct (N.ltb_spec c 4) as [Hlt | Hge].
    + rewrite IH by (assumption || lia).
      cbn [valueBE length]. rewrite Nat2N.inj_succ, N.pow_succ_r'.
      set (P := (32 ^ N.of_nat (length res))%N).
      assert (E : (digitIndex c x
                     match before with
                     | [] => 0
                     | y :: _ => y
                     end
                   + 32 * (valueLE 16 before / 2 ^ (1 + c))
                   = (x + 16 * valueLE 16 before) / 2 ^ c)%N).
      { destruct before as [| y rest]; cbn [valueLE].
        - pose proof (digitIndex_step c x 0 0 Hlt Hx eq_refl) as E0.
          change (0 + 16 * 0)%N with 0%N in E0. exact E0.
        - inversion Hb; subst. apply digitIndex_step; assumption. }
      rewrite <- E. ring.
    + assert (c = 4%N) by lia. subst c.
      rewrite IH by (assumption || lia).
      f_equal. f_equal. compute_powers. lia.
Qed.

Lemma valueLE_app (base : N) (xs ys : list N) :
  valueLE base (xs ++ ys)
  = (valueLE base xs + base ^ N.of_nat (length xs) * valueLE base ys)%N.
Proof.
  induction xs as [| x xs IH]; cbn [app valueLE length].
  - change (N.of_nat 0) with 0%N. rewrite N.pow_0_r. lia.
  - rewrite IH, Nat2N.inj_succ, N.pow_succ_r'. ring.
Qed.

Lemma valueBE_dropLeading (base : N) (l : list N) :
  valueBE base (Hex.dropLeading 0%N l) = valueBE base l.
Proof.
  induction l as [| d l IH]; [reflexivity |].
  cbn [Hex.dropLeading valueBE].
  destruct (N.eqb_spec d 0) as [-> | _]; [rewrite IH; lia | reflexivity].
Qed.

Lemma valueBE_lt (l : list N) :
  Forall (fun i => (i < 32)%N) l ->
  (valueBE 32 l < 32 ^ N.of_nat (length l))%N.
Proof.
  induction 1 as [| d l Hd _ IH]; [cbn; lia |].
  cbn [valueBE length]. rewrite Nat2N.inj_succ, N.pow_succ_r'.
  set (P := (32 ^ N.of_nat (length l))%N) in *. nia.
Qed.

(** The number of a buffer, read from its last byte: at least 256 to the
    number of bytes after the first one that is not zero. *)
Lemma buffer_value_lower_bound (buf : Buffer.t) :
  Hex.countLeading 0%N (map (fun b => b mod 256)%N buf) < length buf ->
  (256 ^ N.of_nat
           (length buf - 1
            - Hex.countLeading 0%N (map (fun b => b mod 256)%N buf))
   <= valueLE 16 (rev (nibbles buf)))%N.
Proof.
  induction buf as [| b buf IH]; cbn [length map Hex.countLeading];
    [lia |].
  change (nibbles (b :: buf))
    with ([(b / 16) mod 16; b mod 16]%N ++ nibbles buf).
  rewrite rev_app_distr, valueLE_app, length_rev.
  assert (Ln : length (nibbles buf) = 2 * length buf).
  { clear. induction buf as [| x buf IH]; [reflexivity |].
    change (nibbles (x :: buf))
      with ([(x / 16) mod 16; x mod 16]%N ++ nibbles buf).
    rewrite length_app, IH. cbn [length]. lia. }
  rewrite Ln.
  replace (16 ^ N.of_nat (2 * length buf))%N
    with (256 ^ N.of_nat (length buf))%N
    by (rewrite Nat2N.inj_mul, N.pow_mul_r; reflexivity).
  cbn [rev app valueLE].
  replace (b mod 16 + 16 * ((b / 16) mod 16 + 16 * 0))%N with (b mod 256)%N
    by lia.
  destruct (N.eqb_spec (b mod 256) 0) as [E | E]; intros Hc.
  - rewrite E, N.mul_0_r, N.add_0_r.
    replace (S (length buf) - 1 - S (Hex.countLeading 0%N
                                       (map (fun b => b mod 256)%N buf)))
      with (length buf - 1
            - Hex.countLeading 0%N (map (fun b => b mod 256)%N buf)) by lia.
    apply IH. lia.
  - replace (S (length buf) - 1 - 0) with (length buf) by lia.
    set (P := (256 ^ N.of_nat (length buf))%N).
    assert (1 <= b mod 256)%N by lia. nia.
Qed.

(** [c32encode] writes at least one character for every byte. *)
Lemma c32encode_length_ge_bytes (buf : Buffer.t) (r : jsstring) :
  C32check.c32encode (Buffer.toHex buf) = Ok r -> length buf <= length r.
Proof.
  rewrite c32encode_toHex. intros H. apply Ok_inj in H. subst r.
  rewrite length_app, repeat_length, length_map.
  pose proof (dropByteOrderMark_count_ge (map (fun b => b mod 256)%N buf))
    as Hmark.
  set (z8 := Hex.countLeading 0%N (map (fun b => b mod 256)%N buf)) in *.
  set (digits := encodeNibbles (rev (nibbles buf)) 0%N []).
  destruct (Nat.lt_ge_cases z8 (length buf)) as [Hz | Hz]; [| lia].
  pose proof (buffer_value_lower_bound buf Hz) as Hlow. fold z8 in Hlow.
  assert (Hval : valueBE 32 (Hex.dropLeading 0%N digits)
                 = valueLE 16 (rev (nibbles buf))).
  { rewrite valueBE_dropLeading. unfold digits.
    rewrite encodeNibbles_value;
      [| apply Forall_rev, nibbles_lt_16 | lia ].
    cbn [valueBE length N.of_nat]. rewrite N.pow_0_r, N.pow_0_r, N.div_1_r.
    lia. }
  assert (Hup : (valueBE 32 (Hex.dropLeading 0%N digits)
                 < 32 ^ N.of_nat (length (Hex.dropLeading 0%N digits)))%N).
  { apply valueBE_lt, dropLeading_Forall, encodeNibbles_lt_32;
      [apply Forall_rev, nibbles_lt_16 | constructor]. }
  rewrite Hval in Hup.
  set (sig := length (Hex.dropLeading 0%N digits)) in *.
  assert (Hpow : (256 ^ N.of_nat (length buf - 1 - z8)
                  < 256 ^ N.of_nat sig)%N).
  { apply N.le_lt_trans with (valueLE 16 (rev (nibbles buf))); [exact Hlow |].
    apply N.lt_le_trans with (32 ^ N.of_nat sig)%N; [exact Hup |].
    apply N.pow_le_mono_l. lia. }
  apply N.pow_lt_mono_r_iff in Hpow; lia.
Qed.

(** ** The length of the entropy text *)

Lemma bytesBE_length (n : nat) (x : N) : length (Sha256.bytesBE n x) = n.
Proof.
  revert x. induction n as [| n IH]; intros x; [reflexivity |].
  cbn [Sha256.bytesBE]. rewrite length_app, IH. cbn [length]. lia.
Qed.

Lemma round_length (st : list N) (kw : N * N) :
  length st = 8 -> length (Sha256.round st kw) = 8.
Proof. intros L. explode st L. reflexivity. Qed.

Lemma rounds_length (kws : list (N * N)) :
  forall st, length st = 8 -> length (fold_left Sha256.round kws st) = 8.
Proof.
  induction kws as [| kw kws IH]; intros st L; [exact L |].
  cbn [fold_left]. apply IH, round_length, L.
Qed.

Lemma compress_length (st block : list N) :
  length st = 8 -> length (Sha256.compress st block) = 8.
Proof.
  intros L. unfold Sha256.compress.
  rewrite length_map, length_combine, rounds_length by exact L. lia.
Qed.

Lemma blocks_length (blocks : list (list N)) :
  forall st, length st = 8 ->
             length (fold_left Sha256.compress blocks st) = 8.
Proof.
  induction blocks as [| b blocks IH]; intros st L; [exact L |].
  cbn [fold_left]. apply IH, compress_length, L.
Qed.

(** A SHA-256 digest has 32 bytes. *)
Lemma sha256_length (msg : list N) : length (Sha256.sha256 msg) = 32.
Proof.
  unfold Sha256.sha256.
  pose proof (blocks_length
                (Sha256.chunks (length (Sha256.pad msg) / 64) 64
                   (Sha256.pad msg)) Sha256.H0 eq_refl) as L.
  revert L. generalize (fold_left Sha256.compress
                          (Sha256.chunks (length (Sha256.pad msg) / 64) 64
                             (Sha256.pad msg)) Sha256.H0).
  intros st L. explode st L.
  cbn [flat_map]. rewrite !length_app, !bytesBE_length. reflexivity.
Qed.

Section EntropyLength.

Variable randomBytes : nat -> Buffer.t.

(** The entropy text is the Crockford text of the digest, cut after the
    number of characters of the class; that text has at least 32
    characters, one for every byte of the digest. *)
Lemma generateEntropy_cut (size : EntropyBits) :
  exists r,
    ApiKey.encodeBase32Crockford
      (Sha256.sha256 (randomBytes (Constants.entropyBytes size))) = Ok r
    /\ 32 <= length r
    /\ ApiKey.generateEntropy randomBytes size
       = Ok (JS.slice 0 (entropyChars size) r).
Proof.
  unfold ApiKey.generateEntropy, ApiKey.encodeBase32Crockford.
  destruct (C32check.c32encode _) as [r | ?] eqn:E;
    [| rewrite c32encode_toHex in E; discriminate E].
  cbn [bind]. exists (JS.toUpperCase r).
  split; [reflexivity |]. split; [| reflexivity].
  apply c32encode_length_ge_bytes in E. rewrite sha256_length in E.
  unfold JS.toUpperCase. rewrite length_map. exact E.
Qed.

(** X1: whatever the random source hands out, the entropy text has exactly 14
    characters for the 128-bit class and exactly 21 for the 160-bit class;
    for the 256-bit class it has at most 42 and at least 32. *)
Theorem generateEntropy_length :
  (exists e, ApiKey.generateEntropy randomBytes Bits128 = Ok e
             /\ length e = 14)
  /\ (exists e, ApiKey.generateEntropy randomBytes Bits160 = Ok e
                /\ length e = 21)
  /\ (exists e, ApiKey.generateEntropy randomBytes Bits256 = Ok e
                /\ 32 <= length e <= 42).
Proof.
  repeat split.
  - destruct (generateEntropy_cut Bits128) as (r & _ & L & ->).
    eexists. split; [reflexivity |].
    unfold JS.slice. cbn [entropyChars Nat.sub skipn].
    rewrite length_firstn. lia.
  - destruct (generateEntropy_cut Bits160) as (r & _ & L & ->).
    eexists. split; [reflexivity |].
    unfold JS.slice. cbn [entropyChars Nat.sub skipn].
    rewrite length_firstn. lia.
  - destruct (generateEntropy_cut Bits256) as (r & _ & L & ->).
    eexists. split; [reflexivity |].
    unfold JS.slice. cbn [entropyChars Nat.sub skipn].
    rewrite length_firstn. lia.
Qed.

End EntropyLength.

(** The cut falls short when the Crockford text of the digest is short: a
    digest of 32 zero bytes is written with 32 characters. *)
Example encodeBase32Crockford_zero_digest :
  ApiKey.encodeBase32Crockford (repeat 0%N 32) = Ok (repeat Hex.zero 32).
Proof. vm_compute. reflexivity. Qed.

(** ** The round trip on groups of full width *)

Lemma c32_decode_facts (i : N) :
  (i < 32)%N ->
  C32check.normalizeUnit (JS.lowerUnit (Hex.charAt Hex.c32 i))
  = Hex.charAt Hex.c32 i
  /\ existsb (N.eqb (Hex.charAt Hex.c32 i)) Hex.c32 = true
  /\ Hex.indexOf Hex.c32 (Hex.charAt Hex.c32 i) = i.
Proof. intros H. small_cases i H; repeat split. Qed.

(** One step of the loop of [c32decode] below four carry bits: the digit,
    shifted, and the carry make a hexadecimal digit [r] and a new carry [q]. *)
Lemma decodeLoop_step (D carry cb cb' q r : N) (before res : jsstring) :
  (D < 32)%N -> (cb < 4)%N -> cb' = (cb + 1)%N -> (carry < 2 ^ cb)%N ->
  (D * 2 ^ cb + carry = 16 * q + r)%N -> (r < 16)%N ->
  C32check.decodeLoop (Hex.charAt Hex.c32 D :: before) carry cb res
  = C32check.decodeLoop before q cb' (Hex.charAt Hex.hex r :: res).
Proof.
  intros HD Hcb -> Hcarry E Hr. cbn [C32check.decodeLoop].
  destruct (c32_decode_facts D HD) as (_ & _ & ->).
  replace (cb =? 4)%N with false by (symmetry; apply N.eqb_neq; lia).
  rewrite N.shiftl_mul_pow2, N.shiftr_div_pow2, N.shiftl_mul_pow2.
  change (2 ^ 4)%N with 16%N. rewrite E.
  replace ((16 * q + r) mod 16)%N with r by lia.
  replace ((16 * q + r) / 16)%N with q by lia.
  replace (1 * 2 ^ (cb + 1) <? q)%N with false; [reflexivity |].
  symmetry. apply N.ltb_ge. rewrite N.pow_add_r. change (2 ^ 1)%N with 2%N.
  set (P := (2 ^ cb)%N) in *. nia.
Qed.

(** The step at four carry bits: the carry is written first. *)
Lemma decodeLoop_flush (D carry q r : N) (before res : jsstring) :
  (D < 32)%N -> D = (16 * q + r)%N -> (r < 16)%N ->
  C32check.decodeLoop (Hex.charAt Hex.c32 D :: before) carry 4 res
  = C32check.decodeLoop before q 1
      (Hex.charAt Hex.hex r :: Hex.charAt Hex.hex carry :: res).
Proof.
  intros HD E Hr. cbn [C32check.decodeLoop].
  destruct (c32_decode_facts D HD) as (_ & _ & ->).
  change (4 =? 4)%N with true. cbv iota beta.
  rewrite N.shiftl_0_r, N.add_0_r, N.shiftr_div_pow2.
  change (2 ^ 4)%N with 16%N. change (0 + 1)%N with 1%N.
  replace (D mod 16)%N with r by lia.
  replace (D / 16)%N with q by lia.
  replace (N.shiftl 1 1 <? q)%N with false; [reflexivity |].
  symmetry. apply N.ltb_ge. change (N.shiftl 1 1) with 2%N. lia.
Qed.

Lemma digitIndex_arith (c x y : N) :
  (c < 4)%N ->
  digitIndex c x y = (x / 2 ^ c + (y mod 2 ^ (1 + c)) * 2 ^ (4 - c))%N.
Proof.
  intros Hc. unfold digitIndex.
  rewrite N.shiftr_div_pow2, !N.shiftl_mul_pow2.
  nibble_cases c Hc; reflexivity.
Qed.

Ltac digit_arith :=
  rewrite ?digitIndex_arith by reflexivity;
  cbn [N.add N.sub Pos.add Pos.succ Pos.sub Pos.sub_mask Pos.pred_double
         Pos.double_mask Pos.succ_double_mask Pos.double_pred_mask];
  compute_powers; lia.

(** The loop of [c32decode] on the seven digits of a group gives back the
    eight hexadecimal digits, with nothing left to carry. *)
Lemma decodeLoop_group (x0 x1 x2 x3 x4 x5 x6 x7 : N) :
  (x0 < 16)%N -> (x1 < 16)%N -> (x2 < 16)%N -> (x3 < 16)%N ->
  (x4 < 16)%N -> (x5 < 16)%N -> (x6 < 16)%N -> (x7 < 16)%N ->
  C32check.decodeLoop
    (rev (map (Hex.charAt Hex.c32) (groupDigits x0 x1 x2 x3 x4 x5 x6 x7)))
    0%N 0%N []
  = Ok (0%N, map (Hex.charAt Hex.hex) [x0; x1; x2; x3; x4; x5; x6; x7]).
Proof.
  intros H0 H1 H2 H3 H4 H5 H6 H7.
  unfold groupDigits. cbn [map rev app].
  rewrite (decodeLoop_step (digitIndex 0 x7 x6) 0 0 1 (x6 mod 2) x7);
    [| apply digitIndex_lt_32; (assumption || reflexivity)
     | reflexivity | reflexivity | reflexivity | digit_arith | assumption ].
  rewrite (decodeLoop_step (digitIndex 1 x6 x5) (x6 mod 2) 1 2 (x5 mod 4) x6);
    [| apply digitIndex_lt_32; (assumption || reflexivity)
     | reflexivity | reflexivity | digit_arith | digit_arith | assumption ].
  rewrite (decodeLoop_step (digitIndex 2 x5 x4) (x5 mod 4) 2 3 (x4 mod 8) x5);
    [| apply digitIndex_lt_32; (assumption || reflexivity)
     | reflexivity | reflexivity | digit_arith | digit_arith | assumption ].
  rewrite (decodeLoop_step (digitIndex 3 x4 x3) (x4 mod 8) 3 4 x3 x4);
    [| apply digitIndex_lt_32; (assumption || reflexivity)
     | reflexivity | reflexivity | digit_arith | digit_arith | assumption ].
  rewrite (decodeLoop_flush (digitIndex 0 x2 x1) x3 (x1 mod 2) x2);
    [| apply digitIndex_lt_32; (assumption || reflexivity)
     | digit_arith | assumption ].
  rewrite (decodeLoop_step (digitIndex 1 x1 x0) (x1 mod 2) 1 2 (x0 mod 4) x1);
    [| apply digitIndex_lt_32; (assumption || reflexivity)
     | reflexivity | reflexivity | digit_arith | digit_arith | assumption ].
  rewrite (decodeLoop_step (digitIndex 2 x0 0) (x0 mod 4) 2 3 0 x0);
    [| apply digitIndex_lt_32; (assumption || reflexivity)
     | reflexivity | reflexivity | digit_arith | digit_arith | assumption ].
  reflexivity.
Qed.

Lemma hex_digit_zero (x : N) :
  (x < 16)%N -> (Hex.charAt Hex.hex x =? Hex.zero)%N = (x =? 0)%N.
Proof. intros H. nibble_cases x H; reflexivity. Qed.

Lemma normalize_lower_c32 (l : list N) :
  Forall (fun i => (i < 32)%N) l ->
  C32check.c32normalize (JS.toLowerCase (map (Hex.charAt Hex.c32) l))
  = map (Hex.charAt Hex.c32) l
  /\ C32check.isC32String (map (Hex.charAt Hex.c32) l) = true.
Proof.
  induction 1 as [| i l Hi _ [IH1 IH2]]; [split; reflexivity |].
  destruct (c32_decode_facts i Hi) as (F1 & F2 & _).
  unfold C32check.c32normalize, JS.toLowerCase, C32check.isC32String in *.
  cbn [map forallb]. rewrite F1, F2, IH1, IH2. split; reflexivity.
Qed.

Lemma groupDigits_lt_32 (x0 x1 x2 x3 x4 x5 x6 x7 : N) :
  (x0 < 16)%N -> (x1 < 16)%N -> (x2 < 16)%N -> (x3 < 16)%N ->
  (x4 < 16)%N -> (x5 < 16)%N -> (x6 < 16)%N -> (x7 < 16)%N ->
  Forall (fun i => (i < 32)%N) (groupDigits x0 x1 x2 x3 x4 x5 x6 x7).
Proof.
  intros. unfold groupDigits.
  repeat constructor; apply digitIndex_lt_32; (assumption || reflexivity).
Qed.

Lemma first_digit_not_zero (x0 : N) :
  (x0 < 16)%N -> (4 <= x0)%N -> digitIndex 2 x0 0 <> 0%N.
Proof. intros H L. nibble_cases x0 H; try lia; discriminate. Qed.

(** [c32decode] of the seven digits of a group whose first hexadecimal digit
    is 4 or more gives the eight hexadecimal digits back. *)
Lemma c32decode_group (x0 x1 x2 x3 x4 x5 x6 x7 : N) :
  (x0 < 16)%N -> (x1 < 16)%N -> (x2 < 16)%N -> (x3 < 16)%N ->
  (x4 < 16)%N -> (x5 < 16)%N -> (x6 < 16)%N -> (x7 < 16)%N ->
  (4 <= x0)%N ->
  C32check.c32decode
    (JS.toLowerCase
       (map (Hex.charAt Hex.c32) (groupDigits x0 x1 x2 x3 x4 x5 x6 x7)))
  = Ok (map (Hex.charAt Hex.hex) [x0; x1; x2; x3; x4; x5; x6; x7]).
Proof.
  intros H0 H1 H2 H3 H4 H5 H6 H7 L.
  pose proof (groupDigits_lt_32 x0 x1 x2 x3 x4 x5 x6 x7
                H0 H1 H2 H3 H4 H5 H6 H7) as HD.
  destruct (normalize_lower_c32 _ HD) as [En Ec].
  unfold C32check.c32decode. rewrite En, Ec. cbn [negb].
  rewrite decodeLoop_group by assumption. cbn [bind].
  assert (Z5 : Hex.countLeading Hex.zero
                 (map (Hex.charAt Hex.c32)
                    (groupDigits x0 x1 x2 x3 x4 x5 x6 x7)) = 0).
  { unfold groupDigits. cbn [map Hex.countLeading].
    inversion HD as [| ? ? Hd _]; subst.
    destruct (c32_digit_facts _ Hd) as [_ ->].
    pose proof (first_digit_not_zero x0 H0 L) as Hne.
    apply N.eqb_neq in Hne. rewrite Hne. reflexivity. }
  rewrite Z5. cbn [repeat concat app map length].
  change (Nat.odd 9) with true. cbv iota.
  cbn [Hex.countLeading].
  change (Hex.charAt Hex.hex 0 =? Hex.zero)%N with true.
  change (Hex.zero =? Hex.zero)%N with true. cbv iota.
  rewrite (hex_digit_zero x0 H0).
  replace (x0 =? 0)%N with false by (symmetry; apply N.eqb_neq; lia).
  reflexivity.
Qed.

Lemma unhex_lt (c x : N) : Buffer.unhex c = Some x -> (x < 16)%N.
Proof.
  unfold Buffer.unhex.
  destruct (N.leb_spec 48 c), (N.leb_spec c 57), (N.leb_spec 97 c),
    (N.leb_spec c 102), (N.leb_spec 65 c), (N.leb_spec c 70); cbn;
    intros E; inversion E; subst; lia.
Qed.

Lemma unhex_range (c x : N) : Buffer.unhex c = Some x -> (c <= 102)%N.
Proof.
  unfold Buffer.unhex.
  destruct (N.leb_spec 48 c), (N.leb_spec c 57), (N.leb_spec 97 c),
    (N.leb_spec c 102), (N.leb_spec 65 c), (N.leb_spec c 70); cbn;
    intros E; inversion E; subst; lia.
Qed.

(** The hexadecimal digit of the value of a digit is the digit in lower
    case. *)
Lemma unhex_lower (c x : N) :
  Buffer.unhex c = Some x -> Hex.charAt Hex.hex x = JS.lowerUnit c.
Proof.
  intros E. pose proof (unhex_range c x E) as Hc.
  destruct c as [| p]; [discriminate E |].
  do 7 (try (destruct p as [p | p |])); try (exfalso; lia);
    try discriminate E; injection E as <-; reflexivity.
Qed.

Lemma c32_digits_upper (l : list N) :
  Forall (fun i => (i < 32)%N) l ->
  forallb isCrockfordUpper (map (Hex.charAt Hex.c32) l) = true.
Proof.
  induction 1 as [| i l Hi _ IH]; [reflexivity |].
  cbn [map forallb]. destruct (c32_digit_facts i Hi) as [-> _]. exact IH.
Qed.

(** The bytes of eight hexadecimal digits are below 256. *)
Lemma group_bytes_mod (x0 x1 x2 x3 x4 x5 x6 x7 : N) :
  (x0 < 16)%N -> (x1 < 16)%N -> (x2 < 16)%N -> (x3 < 16)%N ->
  (x4 < 16)%N -> (x5 < 16)%N -> (x6 < 16)%N -> (x7 < 16)%N ->
  map (fun b => b mod 256)%N
    [16 * x0 + x1; 16 * x2 + x3; 16 * x4 + x5; 16 * x6 + x7]%N
  = [16 * x0 + x1; 16 * x2 + x3; 16 * x4 + x5; 16 * x6 + x7]%N.
Proof.
  intros. cbn [map]. rewrite !N.mod_small by lia. reflexivity.
Qed.

(** [encodePart] of eight hexadecimal digits whose first is 4 or more, other
    than efbbbf00: the seven Crockford digits of the group, none dropped and
    none added. *)
Lemma encodePart_group (c0 c1 c2 c3 c4 c5 c6 c7 x0 x1 x2 x3 x4 x5 x6 x7 : N) :
  Buffer.unhex c0 = Some x0 -> Buffer.unhex c1 = Some x1 ->
  Buffer.unhex c2 = Some x2 -> Buffer.unhex c3 = Some x3 ->
  Buffer.unhex c4 = Some x4 -> Buffer.unhex c5 = Some x5 ->
  Buffer.unhex c6 = Some x6 -> Buffer.unhex c7 = Some x7 ->
  (4 <= x0)%N ->
  startsWithMarkAndZero
    [16 * x0 + x1; 16 * x2 + x3; 16 * x4 + x5; 16 * x6 + x7]%N = false ->
  Key.encodePart [c0; c1; c2; c3; c4; c5; c6; c7]
  = Ok (map (Hex.charAt Hex.c32) (groupDigits x0 x1 x2 x3 x4 x5 x6 x7)).
Proof.
  intros E0 E1 E2 E3 E4 E5 E6 E7 L M.
  pose proof (unhex_lt _ _ E0) as H0; pose proof (unhex_lt _ _ E1) as H1;
    pose proof (unhex_lt _ _ E2) as H2; pose proof (unhex_lt _ _ E3) as H3;
    pose proof (unhex_lt _ _ E4) as H4; pose proof (unhex_lt _ _ E5) as H5;
    pose proof (unhex_lt _ _ E6) as H6; pose proof (unhex_lt _ _ E7) as H7.
  pose proof (groupDigits_lt_32 x0 x1 x2 x3 x4 x5 x6 x7
                H0 H1 H2 H3 H4 H5 H6 H7) as HD.
  unfold Key.encodePart. cbn [Buffer.fromHex].
  rewrite E0, E1, E2, E3, E4, E5, E6, E7.
  rewrite c32encode_toHex_plain
    by (rewrite group_bytes_mod by assumption; exact M).
  cbn [bind].
  assert (Hn : rev (nibbles [16 * x0 + x1; 16 * x2 + x3;
                             16 * x4 + x5; 16 * x6 + x7]%N)
               = [x7; x6; x5; x4; x3; x2; x1; x0]).
  { cbn [nibbles flat_map app rev]. repeat f_equal; lia. }
  rewrite Hn, encodeNibbles_8. fold (groupDigits x0 x1 x2 x3 x4 x5 x6 x7).
  assert (Hz : Hex.countLeading 0%N
                 (map (fun b => b mod 256)%N
                    [16 * x0 + x1; 16 * x2 + x3;
                     16 * x4 + x5; 16 * x6 + x7]%N) = 0).
  { cbn [map Hex.countLeading].
    replace ((16 * x0 + x1) mod 256 =? 0)%N with false; [reflexivity |].
    symmetry. apply N.eqb_neq. lia. }
  rewrite Hz. cbn [repeat app].
  assert (Hd : Hex.dropLeading 0%N (groupDigits x0 x1 x2 x3 x4 x5 x6 x7)
               = groupDigits x0 x1 x2 x3 x4 x5 x6 x7).
  { unfold groupDigits at 1. cbn [Hex.dropLeading].
    pose proof (first_digit_not_zero x0 H0 L) as Hne.
    apply N.eqb_neq in Hne. rewrite Hne. reflexivity. }
  rewrite Hd.
  unfold JS.padStart. rewrite length_map.
  change (length (groupDigits x0 x1 x2 x3 x4 x5 x6 x7)) with 7.
  cbn [Nat.sub repeat app].
  rewrite toUpperCase_crockford by (apply c32_digits_upper, HD).
  reflexivity.
Qed.

Local Arguments C32check.c32decode : simpl never.
Local Arguments JS.toLowerCase : simpl never.

(** [toUUID] of the key made of four parts: the decoded parts in the layout
    of a UUID text. *)
Lemma toUUID_of_parts (p0 p1 p2 p3 d0 d1 d2 d3 : jsstring) (h : bool) :
  length p0 = 7 -> length p1 = 7 -> length p2 = 7 -> length p3 = 7 ->
  forallb isCrockfordUpper p0 = true -> forallb isCrockfordUpper p1 = true ->
  forallb isCrockfordUpper p2 = true -> forallb isCrockfordUpper p3 = true ->
  C32check.c32decode (JS.toLowerCase p0) = Ok d0 ->
  C32check.c32decode (JS.toLowerCase p1) = Ok d1 ->
  C32check.c32decode (JS.toLowerCase p2) = Ok d2 ->
  C32check.c32decode (JS.toLowerCase p3) = Ok d3 ->
  (k <- Key.new (if h then JS.join [Key.hyphen] [p0; p1; p2; p3]
                 else JS.join [] [p0; p1; p2; p3]) ;;
   Key.toUUID k)
  = Ok (d0 ++ [Key.hyphen] ++ JS.slice 0 4 d1 ++ [Key.hyphen]
          ++ JS.sliceFrom 4 d1 ++ [Key.hyphen] ++ JS.slice 0 4 d2
          ++ [Key.hyphen] ++ JS.sliceFrom 4 d2 ++ d3).
Proof.
  intros L0 L1 L2 L3 A0 A1 A2 A3 E0 E1 E2 E3.
  destruct (joined_parts_valid p0 p1 p2 p3 L0 L1 L2 L3 A0 A1 A2 A3)
    as (V28 & _ & V31 & _ & _).
  unfold Key.new, Key.toUUID.
  destruct h.
  - rewrite V31. cbn [negb bind Key.value]. rewrite V31. cbn [negb].
    unfold Key.decode, Key.getParts. cbn [Key.value].
    explode p0 L0; explode p1 L1; explode p2 L2; explode p3 L3.
    cbn [JS.join app length Nat.eqb Constants.KEY_LENGTH_WITH_HYPHENS
           JS.slice Nat.sub skipn firstn Key.mapM].
    rewrite E0, E1, E2, E3. cbn [bind nth JS.join app].
    reflexivity.
  - rewrite V28. cbn [negb bind Key.value]. rewrite V28. cbn [negb].
    unfold Key.decode, Key.getParts. cbn [Key.value].
    explode p0 L0; explode p1 L1; explode p2 L2; explode p3 L3.
    cbn [JS.join app length Nat.eqb Constants.KEY_LENGTH_WITH_HYPHENS
           JS.slice Nat.sub skipn firstn Key.mapM].
    rewrite E0, E1, E2, E3. cbn [bind nth JS.join app].
    reflexivity.
Qed.

Ltac hex_value c :=
  match goal with
  | Hu : Hex.isHexUnit c = true |- _ =>
      let x := fresh "x" in
      let E := fresh "E" in
      destruct (unhex_isHexUnit c Hu) as [x E]; clear Hu
  end.

(** What [hasMarkGroup] says of a text whose hexadecimal digits are known:
    none of the four groups of bytes is EF BB BF 00. *)
Ltac mark_groups M :=
  unfold hasMarkGroup, isMarkGroup in M;
  cbn [JS.slice Nat.sub firstn skipn app Buffer.fromHex] in M;
  repeat match goal with
         | E : Buffer.unhex ?c = Some _ |- _ =>
             match type of M with
             | context [Buffer.unhex c] => rewrite E in M
             end
         end;
  cbv iota beta in M;
  repeat match type of M with
         | _ || _ = false =>
             let M' := fresh "M" in
             apply orb_false_iff in M; destruct M as [M M']
         end.

(** X2: the round trip holds where no group starts with a zero digit: for every
    valid UUID text whose four groups have a first hexadecimal digit of 4 or
    more and are not efbbbf00, and either value of the hyphen flag, [toUUID]
    of the encoded key is the UUID text in lower case. *)
Theorem encode_toUUID_full_width_groups (uuid : jsstring) (h : bool) :
  isUUID uuid = true -> bigGroups uuid = true -> hasMarkGroup uuid = false ->
  encodeThenToUUID uuid h = Ok (JS.toLowerCase uuid).
Proof.
  unfold isUUID. intros H B M. apply andb_true_iff in H. destruct H as [L H].
  apply Nat.eqb_eq in L. explode uuid L.
  cbn in H. split_andb.
  repeat match goal with
         | Hy : (_ =? Key.hyphen)%N = true |- _ =>
             apply N.eqb_eq in Hy; subst
         end.
  repeat match goal with
         | Hu : Hex.isHexUnit ?c = true |- _ => hex_value c
         end.
  mark_groups M.
  unfold bigGroups, bigGroupAt in B. cbn [nth_error] in B.
  repeat match goal with
         | E : Buffer.unhex ?c = Some _ |- _ =>
             match type of B with
             | context [Buffer.unhex c] => rewrite E in B
             end
         end.
  split_andb.
  repeat match goal with
         | Hle : (4 <=? _)%N = true |- _ => apply N.leb_le in Hle
         end.
  unfold encodeThenToUUID, Key.encode, Constants.UUID_LENGTH.
  cbn [length Nat.eqb negb JS.slice Nat.sub firstn skipn app].
  repeat (erewrite encodePart_group; [| eassumption ..]).
  cbn [bind].
  match goal with
  | |- context [JS.join [] [?a; ?b; ?c; ?d]] =>
      change (if h then JS.join [Key.hyphen] [a; b; c; d]
              else JS.join [] [a; b; c; d])
        with (if h then JS.join [Key.hyphen] [a; b; c; d]
              else JS.join [] [a; b; c; d])
  end.
  erewrite toUUID_of_parts;
    try (apply c32decode_group; try eapply unhex_lt; eassumption);
    try reflexivity;
    try (apply c32_digits_upper, groupDigits_lt_32;
         eapply unhex_lt; eassumption).
  cbn [map JS.slice JS.sliceFrom Nat.sub firstn skipn app].
  unfold JS.toLowerCase. cbn [map].
  repeat match goal with
         | E : Buffer.unhex ?c = Some ?x |- _ =>
             rewrite (unhex_lower c x E); clear E
         end.
  reflexivity.
Qed.

(** The two UUID texts on which the round trip fails have a group that
    starts with a digit below 4. *)
Example small_groups :
  bigGroups timestampUUID = false /\ bigGroups nilUUID = false.
Proof. split; reflexivity. Qed.

(** ** Instances of the theorems with hypotheses *)

Ltac not_in_text :=
  let H := fresh "H" in
  intros H; vm_compute in H;
  repeat (destruct H as [H | H]; [discriminate H |]); exact H.

Lemma newAPIKey_toString_reparses_witness :
  str "MYPREFIX" <> []
  /\ ~ In underscore (str "MYPREFIX")
  /\ Key.encode exampleUUID false = Ok (Key.mk exampleKey)
  /\ exists a,
      ApiKey.newAPIKey (constantBytes 7) (str "MYPREFIX") exampleUUID
        Options.With160BitEntropy = Ok a
      /\ ApiKey.parse (ApiKey.toString a) = Ok a
      /\ (a' <- ApiKey.parse (ApiKey.toString a) ;; Ok (ApiKey.toString a'))
         = Ok (ApiKey.toString a).
Proof.
  split; [discriminate |].
  split; [not_in_text |].
  split; [vm_compute; reflexivity |].
  apply (newAPIKey_toString_reparses (constantBytes 7) (str "MYPREFIX")
           exampleUUID Options.With160BitEntropy (Key.mk exampleKey)).
  - discriminate.
  - not_in_text.
  - vm_compute; reflexivity.
Defined.


(** The key built from the prefix MY_PREFIX, and what [parse] says of it. *)
Example underscore_prefix_example :
  (a <- ApiKey.newAPIKey (constantBytes 7) (str "MY_PREFIX") exampleUUID
          Options.With128BitEntropy ;;
   Ok (ApiKey.toString a))
  = Ok (str "MY_PREFIX_38QARV01ET0G6Z2CJD9VA2ZZAR0X1324Y41PBBXY5K_20A782A1")
  /\ ApiKey.parse
       (str "MY_PREFIX_38QARV01ET0G6Z2CJD9VA2ZZAR0X1324Y41PBBXY5K_20A782A1")
     = Throw (WrongPartCount 4).
Proof. vm_compute. split; reflexivity. Qed.

Lemma encode_toUUID_full_width_groups_witness :
  isUUID exampleUUID = true
  /\ bigGroups exampleUUID = true
  /\ hasMarkGroup exampleUUID = false
  /\ encodeThenToUUID exampleUUID true = Ok (JS.toLowerCase exampleUUID).
Proof.
  split; [reflexivity |].
  split; [reflexivity |].
  split; [reflexivity |].
  apply (encode_toUUID_full_width_groups exampleUUID true); reflexivity.
Defined.

(** ** Decoding a part of a key *)

(** The loop of [c32decode] on any seven Crockford digits: eight hexadecimal
    digits, and the three high bits of the first digit in the carry.  It
    never panics. *)
Lemma decodeLoop_digits (d0 d1 d2 d3 d4 d5 d6 : N) :
  (d0 < 32)%N -> (d1 < 32)%N -> (d2 < 32)%N -> (d3 < 32)%N ->
  (d4 < 32)%N -> (d5 < 32)%N -> (d6 < 32)%N ->
  C32check.decodeLoop
    (rev (map (Hex.charAt Hex.c32) [d0; d1; d2; d3; d4; d5; d6])) 0%N 0%N []
  = Ok ((d0 / 4)%N,
        map (Hex.charAt Hex.hex) (digitNibbles d0 d1 d2 d3 d4 d5 d6)).
Proof.
  intros H0 H1 H2 H3 H4 H5 H6. cbn [map rev app].
  rewrite (decodeLoop_step d6 0 0 1 (d6 / 16) (d6 mod 16));
    [| assumption | reflexivity | reflexivity | reflexivity
     | compute_powers; lia | lia ].
  rewrite (decodeLoop_step d5 (d6 / 16) 1 2 (d5 / 8)
             ((d5 mod 8) * 2 + d6 / 16));
    [| assumption | reflexivity | reflexivity | compute_powers; lia
     | compute_powers; lia | lia ].
  rewrite (decodeLoop_step d4 (d5 / 8) 2 3 (d4 / 4)
             ((d4 mod 4) * 4 + d5 / 8));
    [| assumption | reflexivity | reflexivity | compute_powers; lia
     | compute_powers; lia | lia ].
  rewrite (decodeLoop_step d3 (d4 / 4) 3 4 (d3 / 2)
             ((d3 mod 2) * 8 + d4 / 4));
    [| assumption | reflexivity | reflexivity | compute_powers; lia
     | compute_powers; lia | lia ].
  rewrite (decodeLoop_flush d2 (d3 / 2) (d2 / 16) (d2 mod 16));
    [| assumption | lia | lia ].
  rewrite (decodeLoop_step d1 (d2 / 16) 1 2 (d1 / 8)
             ((d1 mod 8) * 2 + d2 / 16));
    [| assumption | reflexivity | reflexivity | compute_powers; lia
     | compute_powers; lia | lia ].
  rewrite (decodeLoop_step d0 (d1 / 8) 2 3 (d0 / 4)
             ((d0 mod 4) * 4 + d1 / 8));
    [| assumption | reflexivity | reflexivity | compute_powers; lia
     | compute_powers; lia | lia ].
  reflexivity.
Qed.

Lemma digitNibbles_lt_16 (d0 d1 d2 d3 d4 d5 d6 : N) :
  (d0 < 32)%N -> (d1 < 32)%N -> (d2 < 32)%N -> (d3 < 32)%N ->
  (d4 < 32)%N -> (d5 < 32)%N -> (d6 < 32)%N ->
  Forall (fun x => (x < 16)%N)
    ((d0 / 4)%N :: digitNibbles d0 d1 d2 d3 d4 d5 d6).
Proof.
  intros. unfold digitNibbles. repeat constructor; lia.
Qed.

Lemma countLeading_c32 (l : list N) :
  Forall (fun i => (i < 32)%N) l ->
  Hex.countLeading Hex.zero (map (Hex.charAt Hex.c32) l)
  = Hex.countLeading 0%N l.
Proof.
  induction 1 as [| i l Hi _ IH]; [reflexivity |].
  cbn [map Hex.countLeading].
  destruct (c32_digit_facts _ Hi) as [_ ->]. rewrite IH. reflexivity.
Qed.

Lemma countLeading_hex (l : list N) :
  Forall (fun x => (x < 16)%N) l ->
  Hex.countLeading Hex.zero (map (Hex.charAt Hex.hex) l)
  = Hex.countLeading 0%N l.
Proof.
  induction 1 as [| x l Hx _ IH]; [reflexivity |].
  cbn [map Hex.countLeading].
  rewrite (hex_digit_zero x Hx), IH. reflexivity.
Qed.

(** [c32decode] of any seven Crockford digits never fails: two zeros for
    every leading zero digit, then the hexadecimal digits of the number
    without its leading pairs of zeros. *)
Lemma c32decode_digits (d0 d1 d2 d3 d4 d5 d6 : N) :
  (d0 < 32)%N -> (d1 < 32)%N -> (d2 < 32)%N -> (d3 < 32)%N ->
  (d4 < 32)%N -> (d5 < 32)%N -> (d6 < 32)%N ->
  C32check.c32decode
    (JS.toLowerCase (map (Hex.charAt Hex.c32) [d0; d1; d2; d3; d4; d5; d6]))
  = Ok (concat (repeat [Hex.zero; Hex.zero]
                  (Hex.countLeading 0%N [d0; d1; d2; d3; d4; d5; d6]))
        ++ skipn
             (S (Hex.countLeading 0%N
                   ((d0 / 4)%N :: digitNibbles d0 d1 d2 d3 d4 d5 d6))
              - S (Hex.countLeading 0%N
                     ((d0 / 4)%N :: digitNibbles d0 d1 d2 d3 d4 d5 d6))
                mod 2)
             (Hex.zero
                :: map (Hex.charAt Hex.hex)
                     ((d0 / 4)%N :: digitNibbles d0 d1 d2 d3 d4 d5 d6))).
Proof.
  intros H0 H1 H2 H3 H4 H5 H6.
  assert (HD : Forall (fun i => (i < 32)%N) [d0; d1; d2; d3; d4; d5; d6])
    by (repeat constructor; assumption).
  pose proof (digitNibbles_lt_16 d0 d1 d2 d3 d4 d5 d6
                H0 H1 H2 H3 H4 H5 H6) as HX.
  destruct (normalize_lower_c32 _ HD) as [En Ec].
  unfold C32check.c32decode. rewrite En, Ec. cbn [negb].
  rewrite decodeLoop_digits by assumption. cbn [bind].
  rewrite (countLeading_c32 _ HD).
  change (Nat.odd
            (length
               (Hex.charAt Hex.hex (d0 / 4)
                  :: map (Hex.charAt Hex.hex)
                       (digitNibbles d0 d1 d2 d3 d4 d5 d6))))
    with true.
  cbv iota.
  change (Hex.charAt Hex.hex (d0 / 4)
            :: map (Hex.charAt Hex.hex) (digitNibbles d0 d1 d2 d3 d4 d5 d6))
    with (map (Hex.charAt Hex.hex)
            ((d0 / 4)%N :: digitNibbles d0 d1 d2 d3 d4 d5 d6)).
  set (xs := ((d0 / 4)%N :: digitNibbles d0 d1 d2 d3 d4 d5 d6)) in *.
  cbn [Hex.countLeading]. rewrite N.eqb_refl.
  rewrite (countLeading_hex _ HX). reflexivity.
Qed.

Lemma countLeading_le (c : N) (l : list N) : Hex.countLeading c l <= length l.
Proof.
  induction l as [| x l IH]; cbn [Hex.countLeading length]; [lia |].
  destruct (x =? c)%N; lia.
Qed.

Ltac is_zero a :=
  replace (a =? 0)%N with true by (symmetry; apply N.eqb_eq; lia); cbv iota.
Ltac not_zero a :=
  replace (a =? 0)%N with false by (symmetry; apply N.eqb_neq; lia); cbv iota.
Ltac not_both_zero a b :=
  destruct (N.eqb_spec a 0); cbv iota;
  [ destruct (N.eqb_spec b 0); cbv iota; [exfalso; lia |] |];
  cbn [Nat.sub Nat.modulo Nat.divmod fst snd Nat.add Nat.mul]; lia.

(** The leading zeros of seven Crockford digits against those of the
    hexadecimal digits they decode to: a leading zero digit is written as a
    whole zero byte, which is more than its five bits. *)
Lemma zeros_balance (d0 d1 d2 d3 d4 d5 d6 : N) :
  (d0 < 32)%N -> (d1 < 32)%N -> (d2 < 32)%N -> (d3 < 32)%N ->
  (d4 < 32)%N -> (d5 < 32)%N -> (d6 < 32)%N ->
  let z5 := Hex.countLeading 0%N [d0; d1; d2; d3; d4; d5; d6] in
  let z := S (Hex.countLeading 0%N
                ((d0 / 4)%N :: digitNibbles d0 d1 d2 d3 d4 d5 d6)) in
  z <= 10
  /\ z - z mod 2 <= 2 + 2 * z5
  /\ ((1 <= d0 <= 3)%N -> z5 = 0 /\ z = 2)
  /\ (~ (1 <= d0 <= 3)%N -> z - z mod 2 < 2 + 2 * z5).
Proof.
  intros H0 H1 H2 H3 H4 H5 H6. cbv zeta.
  pose proof (countLeading_le 0
                ((d0 / 4)%N :: digitNibbles d0 d1 d2 d3 d4 d5 d6)) as Hb.
  change (length ((d0 / 4)%N :: digitNibbles d0 d1 d2 d3 d4 d5 d6))
    with 9 in Hb.
  set (z5 := Hex.countLeading 0%N [d0; d1; d2; d3; d4; d5; d6]).
  set (zn := Hex.countLeading 0%N
               ((d0 / 4)%N :: digitNibbles d0 d1 d2 d3 d4 d5 d6)) in *.
  assert (Big : (4 <= d0)%N -> z5 = 0 /\ zn = 0).
  { intros L. unfold z5, zn. cbn [Hex.countLeading].
    not_zero d0. not_zero (d0 / 4)%N. split; reflexivity. }
  assert (Mid : (1 <= d0 <= 3)%N -> z5 = 0 /\ zn = 1).
  { intros L. unfold z5, zn, digitNibbles. cbn [Hex.countLeading].
    not_zero d0. is_zero (d0 / 4)%N. not_zero (d0 mod 4 * 4 + d1 / 8)%N.
    split; reflexivity. }
  assert (Zero : d0 = 0%N -> S zn - S zn mod 2 < 2 + 2 * z5).
  { intros E0. unfold z5, zn, digitNibbles. clear z5 zn Hb Big Mid.
    cbn [Hex.countLeading].
    is_zero d0. is_zero (d0 / 4)%N.
    destruct (N.eqb_spec d1 0) as [E1 | N1]; cbv iota;
      [| not_both_zero (d0 mod 4 * 4 + d1 / 8)%N
           (d1 mod 8 * 2 + d2 / 16)%N ].
    is_zero (d0 mod 4 * 4 + d1 / 8)%N.
    destruct (N.eqb_spec d2 0) as [E2 | N2]; cbv iota;
      [| not_both_zero (d1 mod 8 * 2 + d2 / 16)%N (d2 mod 16)%N ].
    is_zero (d1 mod 8 * 2 + d2 / 16)%N. is_zero (d2 mod 16)%N.
    destruct (N.eqb_spec d3 0) as [E3 | N3]; cbv iota;
      [| not_both_zero (d3 / 2)%N (d3 mod 2 * 8 + d4 / 4)%N ].
    is_zero (d3 / 2)%N.
    destruct (N.eqb_spec d4 0) as [E4 | N4]; cbv iota;
      [| not_both_zero (d3 mod 2 * 8 + d4 / 4)%N
           (d4 mod 4 * 4 + d5 / 8)%N ].
    is_zero (d3 mod 2 * 8 + d4 / 4)%N.
    pose proof (countLeading_le 0 [d5; d6]).
    pose proof (countLeading_le 0
                  [(d4 mod 4 * 4 + d5 / 8)%N;
                   (d5 mod 8 * 2 + d6 / 16)%N; (d6 mod 16)%N]).
    cbn [Hex.countLeading length] in *. lia. }
  lia.
Qed.

(** Every upper-case Crockford digit is a digit of c32check's alphabet. *)
Lemma crockford_digit (c : N) :
  isCrockfordUpper c = true ->
  exists d, (d < 32)%N /\ c = Hex.charAt Hex.c32 d.
Proof.
  intros H. exists (Hex.indexOf Hex.c32 c).
  assert (Hc : (c <= 90)%N).
  { unfold isCrockfordUpper in H.
    destruct (N.leb_spec 48 c), (N.leb_spec c 57), (N.leb_spec 65 c),
      (N.leb_spec c 90); cbn in H; try discriminate H; lia. }
  destruct c as [| p]; [discriminate H |].
  do 7 (try (destruct p as [p | p |])); try (exfalso; lia);
    try (vm_compute in H; discriminate H); split; reflexivity.
Qed.

Lemma one_to_three_digit (d : N) :
  (d < 32)%N ->
  isOneToThree (Hex.charAt Hex.c32 d) = ((1 <=? d) && (d <=? 3))%N.
Proof. intros H. small_cases d H; reflexivity. Qed.

(** The Crockford digits of the hexadecimal digits of seven Crockford digits,
    the first of them below 4, are these digits. *)
Lemma groupDigits_digitNibbles (d0 d1 d2 d3 d4 d5 d6 : N) :
  (d0 < 4)%N -> (d1 < 32)%N -> (d2 < 32)%N -> (d3 < 32)%N ->
  (d4 < 32)%N -> (d5 < 32)%N -> (d6 < 32)%N ->
  groupDigits ((d0 mod 4) * 4 + d1 / 8) ((d1 mod 8) * 2 + d2 / 16)
    (d2 mod 16) (d3 / 2) ((d3 mod 2) * 8 + d4 / 4)
    ((d4 mod 4) * 4 + d5 / 8) ((d5 mod 8) * 2 + d6 / 16) (d6 mod 16)
  = [d0; d1; d2; d3; d4; d5; d6].
Proof.
  intros H0 H1 H2 H3 H4 H5 H6. unfold groupDigits.
  do 6 (f_equal; [digit_arith |]). f_equal. digit_arith.
Qed.

Lemma map_c32_zeros (n : nat) :
  map (Hex.charAt Hex.c32) (repeat 0%N n) = repeat Hex.zero n.
Proof.
  induction n as [| n IH]; [reflexivity |].
  cbn [repeat map]. rewrite IH. reflexivity.
Qed.

(** [encodePart] of any eight hexadecimal digits other than efbbbf00: the
    seven Crockford digits of the group.  The zeros [c32encode] drops and the
    ones it adds for zero bytes are made up for by the padding. *)
Lemma encodePart_any_group
  (c0 c1 c2 c3 c4 c5 c6 c7 x0 x1 x2 x3 x4 x5 x6 x7 : N) :
  Buffer.unhex c0 = Some x0 -> Buffer.unhex c1 = Some x1 ->
  Buffer.unhex c2 = Some x2 -> Buffer.unhex c3 = Some x3 ->
  Buffer.unhex c4 = Some x4 -> Buffer.unhex c5 = Some x5 ->
  Buffer.unhex c6 = Some x6 -> Buffer.unhex c7 = Some x7 ->
  startsWithMarkAndZero
    [16 * x0 + x1; 16 * x2 + x3; 16 * x4 + x5; 16 * x6 + x7]%N = false ->
  Key.encodePart [c0; c1; c2; c3; c4; c5; c6; c7]
  = Ok (map (Hex.charAt Hex.c32) (groupDigits x0 x1 x2 x3 x4 x5 x6 x7)).
Proof.
  intros E0 E1 E2 E3 E4 E5 E6 E7 M.
  pose proof (unhex_lt _ _ E0) as H0; pose proof (unhex_lt _ _ E1) as H1;
    pose proof (unhex_lt _ _ E2) as H2; pose proof (unhex_lt _ _ E3) as H3;
    pose proof (unhex_lt _ _ E4) as H4; pose proof (unhex_lt _ _ E5) as H5;
    pose proof (unhex_lt _ _ E6) as H6; pose proof (unhex_lt _ _ E7) as H7.
  pose proof (groupDigits_lt_32 x0 x1 x2 x3 x4 x5 x6 x7
                H0 H1 H2 H3 H4 H5 H6 H7) as HD.
  unfold Key.encodePart. cbn [Buffer.fromHex].
  rewrite E0, E1, E2, E3, E4, E5, E6, E7.
  assert (M' : startsWithMarkAndZero
                 (map (fun b => b mod 256)%N
                    [16 * x0 + x1; 16 * x2 + x3; 16 * x4 + x5; 16 * x6 + x7]%N)
               = false)
    by (rewrite group_bytes_mod by assumption; exact M).
  destruct (C32check.c32encode _) as [r | e] eqn:E;
    [| rewrite c32encode_toHex in E; discriminate E].
  pose proof (c32encode_4_bytes_length _ _ _ _ _ M' E) as Hlen.
  rewrite (c32encode_toHex_plain _ M') in E. apply Ok_inj in E. subst r.
  cbn [bind].
  assert (Hn : rev (nibbles [16 * x0 + x1; 16 * x2 + x3;
                             16 * x4 + x5; 16 * x6 + x7]%N)
               = [x7; x6; x5; x4; x3; x2; x1; x0]).
  { cbn [nibbles flat_map app rev]. repeat f_equal; lia. }
  rewrite Hn, encodeNibbles_8 in Hlen |- *.
  fold (groupDigits x0 x1 x2 x3 x4 x5 x6 x7) in Hlen |- *.
  destruct (dropLeading_suffix 0 (groupDigits x0 x1 x2 x3 x4 x5 x6 x7))
    as (n & Hgd & _).
  assert (L7 : n + length (Hex.dropLeading 0%N
                             (groupDigits x0 x1 x2 x3 x4 x5 x6 x7)) = 7).
  { rewrite <- repeat_length with (x := 0%N) (n := n) at 1.
    rewrite <- length_app, <- Hgd. reflexivity. }
  rewrite length_app, repeat_length, length_map in Hlen.
  unfold JS.padStart.
  rewrite length_app, repeat_length, length_map, app_assoc, <- repeat_app.
  match goal with
  | |- context [repeat Hex.zero ?k] => replace k with n by lia
  end.
  rewrite <- map_c32_zeros, <- map_app, <- Hgd.
  rewrite toUpperCase_crockford by (apply c32_digits_upper, HD).
  reflexivity.
Qed.

Lemma unhex_hex_digit (x : N) :
  (x < 16)%N -> Buffer.unhex (Hex.charAt Hex.hex x) = Some x.
Proof. intros H. apply hex_digit_facts, H. Qed.

Lemma concat_pairs_length (a b : N) (n : nat) :
  length (concat (repeat [a; b] n)) = 2 * n.
Proof. induction n as [| n IH]; cbn [repeat concat app length]; lia. Qed.

Lemma forallb_concat_pairs (f : N -> bool) (a b : N) (n : nat) :
  f a = true -> f b = true -> forallb f (concat (repeat [a; b] n)) = true.
Proof.
  intros Ha Hb. induction n as [| n IH]; [reflexivity |].
  cbn [repeat concat app forallb]. rewrite Ha, Hb. exact IH.
Qed.

Lemma forallb_skipn {A} (f : A -> bool) (n : nat) (l : list A) :
  forallb f l = true -> forallb f (skipn n l) = true.
Proof.
  revert n. induction l as [| a l IH]; intros [| n] H; try exact H.
  cbn [skipn]. cbn [forallb] in H. apply andb_true_iff in H. apply IH, H.
Qed.

Lemma lower_hex_digits (l : list N) :
  Forall (fun x => (x < 16)%N) l ->
  forallb isLowerHexUnit (map (Hex.charAt Hex.hex) l) = true.
Proof.
  induction 1 as [| x l Hx _ IH]; [reflexivity |].
  cbn [map forallb]. rewrite IH, andb_true_r.
  nibble_cases x Hx; reflexivity.
Qed.

(** [c32decode] of a part of a key: it never fails; the result is made of
    lower-case hexadecimal digits, eight at least, and exactly eight when the
    part starts with 1, 2 or 3, in which case [encodePart] gives the part
    back, unless the digits are efbbbf00. *)
Lemma c32decode_part (p : jsstring) :
  length p = 7 -> forallb isCrockfordUpper p = true ->
  exists d,
    C32check.c32decode (JS.toLowerCase p) = Ok d
    /\ forallb isLowerHexUnit d = true
    /\ 8 <= length d
    /\ (length d = 8 <-> partStartsAt p 0 = true)
    /\ (partStartsAt p 0 = true -> isMarkGroup d = false ->
        Key.encodePart d = Ok p).
Proof.
  intros L A. explode p L. cbn [forallb] in A. split_andb.
  repeat match goal with
         | H : isCrockfordUpper ?c = true |- _ =>
             let g := fresh "g" in
             let Hg := fresh "Hg" in
             destruct (crockford_digit c H) as (g & Hg & ->); clear H
         end.
  match goal with
  | |- context [JS.toLowerCase [Hex.charAt _ ?a; Hex.charAt _ ?b;
                                Hex.charAt _ ?c; Hex.charAt _ ?d;
                                Hex.charAt _ ?e; Hex.charAt _ ?f;
                                Hex.charAt _ ?g]] =>
      rename a into d0; rename b into d1; rename c into d2; rename d into d3;
      rename e into d4; rename f into d5; rename g into d6
  end.
  change [Hex.charAt Hex.c32 d0; Hex.charAt Hex.c32 d1; Hex.charAt Hex.c32 d2;
          Hex.charAt Hex.c32 d3; Hex.charAt Hex.c32 d4; Hex.charAt Hex.c32 d5;
          Hex.charAt Hex.c32 d6]
    with (map (Hex.charAt Hex.c32) [d0; d1; d2; d3; d4; d5; d6]).
  rewrite c32decode_digits by assumption.
  eexists. split; [reflexivity |].
  destruct (zeros_balance d0 d1 d2 d3 d4 d5 d6) as (Z10 & Zle & Zmid & Zout);
    try assumption.
  pose proof (digitNibbles_lt_16 d0 d1 d2 d3 d4 d5 d6) as HX.
  set (z5 := Hex.countLeading 0%N [d0; d1; d2; d3; d4; d5; d6]) in *.
  set (z := S (Hex.countLeading 0%N
                 ((d0 / 4)%N :: digitNibbles d0 d1 d2 d3 d4 d5 d6))) in *.
  assert (Hstart : partStartsAt (map (Hex.charAt Hex.c32)
                                   [d0; d1; d2; d3; d4; d5; d6]) 0 = true
                   <-> (1 <= d0 <= 3)%N).
  { unfold partStartsAt. cbn [map nth_error].
    rewrite one_to_three_digit by assumption.
    rewrite andb_true_iff, !N.leb_le. tauto. }
  assert (Hlen : length
                   (concat (repeat [Hex.zero; Hex.zero] z5)
                    ++ skipn (z - z mod 2)
                         (Hex.zero
                            :: map (Hex.charAt Hex.hex)
                                 ((d0 / 4)%N
                                    :: digitNibbles d0 d1 d2 d3 d4 d5 d6)))
                 = 2 * z5 + (10 - (z - z mod 2))).
  { rewrite length_app, concat_pairs_length, length_skipn. reflexivity. }
  split; [| split; [| split]].
  - rewrite forallb_app, forallb_concat_pairs by reflexivity.
    apply forallb_skipn. cbn [forallb].
    apply lower_hex_digits. apply HX; assumption.
  - rewrite Hlen. lia.
  - rewrite Hlen, Hstart. split.
    + intros E. destruct (N.le_gt_cases 1 d0); [| exfalso; lia].
      destruct (N.le_gt_cases d0 3); [lia | exfalso; lia].
    + intros R. destruct (Zmid R) as [-> ->]. reflexivity.
  - intros R. apply Hstart in R. destruct (Zmid R) as [E5 Ez].
    rewrite E5, Ez.
    cbn [repeat concat app Nat.sub Nat.modulo Nat.divmod fst snd skipn map].
    unfold digitNibbles. cbn [map]. intros M.
    unfold isMarkGroup in M. cbn [Buffer.fromHex] in M.
    rewrite !unhex_hex_digit in M by lia.
    erewrite encodePart_any_group;
      try (apply unhex_hex_digit; lia); try exact M.
    rewrite groupDigits_digitNibbles by (assumption || lia).
    reflexivity.
Qed.

(** ** [toUUID] on every key *)

(** A valid key text is four parts of seven upper-case Crockford digits,
    joined with hyphens when it has 31 characters and bare otherwise. *)
Lemma isValid_parts (s : jsstring) :
  Key.isValid s = true ->
  exists p0 p1 p2 p3,
    s = (if length s =? 31 then JS.join [Key.hyphen] [p0; p1; p2; p3]
         else JS.join [] [p0; p1; p2; p3])
    /\ (length p0 = 7 /\ length p1 = 7 /\ length p2 = 7 /\ length p3 = 7)
    /\ (forallb isCrockfordUpper p0 = true
        /\ forallb isCrockfordUpper p1 = true
        /\ forallb isCrockfordUpper p2 = true
        /\ forallb isCrockfordUpper p3 = true).
Proof.
  unfold Key.isValid, Constants.KEY_LENGTH_WITH_HYPHENS,
    Constants.KEY_LENGTH_WITHOUT_HYPHENS.
  destruct (Nat.eqb_spec (length s) 31) as [L31 | N31].
  - intros H. explode s L31. cbn in H.
    repeat match type of H with
           | context [(?a =? Key.hyphen)%N] =>
               destruct (N.eqb_spec a Key.hyphen); [| discriminate H]
           end.
    subst. cbn in H. rewrite !isValidPart_spec in H.
    cbn [length Nat.eqb andb] in H. split_andb.
    match goal with
    | |- context [?a0 :: ?a1 :: ?a2 :: ?a3 :: ?a4 :: ?a5 :: ?a6 :: Key.hyphen
                  :: ?b0 :: ?b1 :: ?b2 :: ?b3 :: ?b4 :: ?b5 :: ?b6
                  :: Key.hyphen
                  :: ?c0 :: ?c1 :: ?c2 :: ?c3 :: ?c4 :: ?c5 :: ?c6
                  :: Key.hyphen
                  :: ?e0 :: ?e1 :: ?e2 :: ?e3 :: ?e4 :: ?e5 :: ?e6 :: nil] =>
        exists [a0; a1; a2; a3; a4; a5; a6], [b0; b1; b2; b3; b4; b5; b6],
          [c0; c1; c2; c3; c4; c5; c6], [e0; e1; e2; e3; e4; e5; e6]
    end.
    repeat split; assumption.
  - destruct (Nat.eqb_spec (length s) 28) as [L28 | N28]; [| discriminate].
    intros H. explode s L28. cbn in H. rewrite !isValidPart_spec in H.
    cbn [length Nat.eqb andb] in H. split_andb.
    match goal with
    | |- context [?a0 :: ?a1 :: ?a2 :: ?a3 :: ?a4 :: ?a5 :: ?a6
                  :: ?b0 :: ?b1 :: ?b2 :: ?b3 :: ?b4 :: ?b5 :: ?b6
                  :: ?c0 :: ?c1 :: ?c2 :: ?c3 :: ?c4 :: ?c5 :: ?c6
                  :: ?e0 :: ?e1 :: ?e2 :: ?e3 :: ?e4 :: ?e5 :: ?e6 :: nil] =>
        exists [a0; a1; a2; a3; a4; a5; a6], [b0; b1; b2; b3; b4; b5; b6],
          [c0; c1; c2; c3; c4; c5; c6], [e0; e1; e2; e3; e4; e5; e6]
    end.
    repeat split; assumption.
Qed.

Lemma fullWidthParts_joined (p0 p1 p2 p3 : jsstring) (h : bool) :
  length p0 = 7 -> length p1 = 7 -> length p2 = 7 -> length p3 = 7 ->
  fullWidthParts (if h then JS.join [Key.hyphen] [p0; p1; p2; p3]
                  else JS.join [] [p0; p1; p2; p3])
  = partStartsAt p0 0 && partStartsAt p1 0
    && partStartsAt p2 0 && partStartsAt p3 0.
Proof.
  intros L0 L1 L2 L3.
  explode p0 L0; explode p1 L1; explode p2 L2; explode p3 L3.
  destruct h; reflexivity.
Qed.

(** [toUUID] of a valid key text: the four parts decode, and the result is
    the decoded parts in the layout of a UUID text. *)
Lemma toUUID_valid_key (s : jsstring) :
  Key.isValid s = true ->
  exists p0 p1 p2 p3 d0 d1 d2 d3,
    s = (if length s =? 31 then JS.join [Key.hyphen] [p0; p1; p2; p3]
         else JS.join [] [p0; p1; p2; p3])
    /\ (length p0 = 7 /\ length p1 = 7 /\ length p2 = 7 /\ length p3 = 7)
    /\ (forallb isCrockfordUpper p0 = true
        /\ forallb isCrockfordUpper p1 = true
        /\ forallb isCrockfordUpper p2 = true
        /\ forallb isCrockfordUpper p3 = true)
    /\ Key.toUUID (Key.mk s)
       = Ok (d0 ++ [Key.hyphen] ++ JS.slice 0 4 d1 ++ [Key.hyphen]
               ++ JS.sliceFrom 4 d1 ++ [Key.hyphen] ++ JS.slice 0 4 d2
               ++ [Key.hyphen] ++ JS.sliceFrom 4 d2 ++ d3)
    /\ (forallb isLowerHexUnit d0 = true /\ forallb isLowerHexUnit d1 = true
        /\ forallb isLowerHexUnit d2 = true
        /\ forallb isLowerHexUnit d3 = true)
    /\ (8 <= length d0 /\ 8 <= length d1 /\ 8 <= length d2 /\ 8 <= length d3)
    /\ ((length d0 = 8 <-> partStartsAt p0 0 = true)
        /\ (length d1 = 8 <-> partStartsAt p1 0 = true)
        /\ (length d2 = 8 <-> partStartsAt p2 0 = true)
        /\ (length d3 = 8 <-> partStartsAt p3 0 = true))
    /\ ((partStartsAt p0 0 = true -> isMarkGroup d0 = false ->
         Key.encodePart d0 = Ok p0)
        /\ (partStartsAt p1 0 = true -> isMarkGroup d1 = false ->
            Key.encodePart d1 = Ok p1)
        /\ (partStartsAt p2 0 = true -> isMarkGroup d2 = false ->
            Key.encodePart d2 = Ok p2)
        /\ (partStartsAt p3 0 = true -> isMarkGroup d3 = false ->
            Key.encodePart d3 = Ok p3)).
Proof.
  intros V.
  destruct (isValid_parts s V)
    as (p0 & p1 & p2 & p3 & Es & (L0 & L1 & L2 & L3) & (A0 & A1 & A2 & A3)).
  destruct (c32decode_part p0 L0 A0) as (d0 & E0 & B0 & G0 & I0 & R0).
  destruct (c32decode_part p1 L1 A1) as (d1 & E1 & B1 & G1 & I1 & R1).
  destruct (c32decode_part p2 L2 A2) as (d2 & E2 & B2 & G2 & I2 & R2).
  destruct (c32decode_part p3 L3 A3) as (d3 & E3 & B3 & G3 & I3 & R3).
  exists p0, p1, p2, p3, d0, d1, d2, d3.
  split; [exact Es |].
  split; [repeat split; assumption |].
  split; [repeat split; assumption |].
  split; [| repeat split; (assumption || apply I0 || apply I1 || apply I2
                           || apply I3) ].
  pose proof (toUUID_of_parts p0 p1 p2 p3 d0 d1 d2 d3 (length s =? 31)
                L0 L1 L2 L3 A0 A1 A2 A3 E0 E1 E2 E3) as T.
  rewrite <- Es in T. unfold Key.new in T. rewrite V in T. exact T.
Qed.

Lemma forallb_weaken {A} (f g : A -> bool) (l : list A) :
  (forall a, f a = true -> g a = true) ->
  forallb f l = true -> forallb g l = true.
Proof.
  intros W. induction l as [| a l IH]; [reflexivity |].
  cbn [forallb]. intros H. apply andb_true_iff in H. destruct H as [Ha Hl].
  rewrite (W a Ha), (IH Hl). reflexivity.
Qed.

Lemma slice_sliceFrom_length (d : jsstring) :
  length (JS.slice 0 4 d) + length (JS.sliceFrom 4 d) = length d.
Proof.
  unfold JS.slice, JS.sliceFrom. change (4 - 0) with 4.
  change (skipn 0 d) with d. rewrite length_firstn, length_skipn. lia.
Qed.

(** X3: [toUUID] never throws on a key the constructor has accepted: its own
    check passes and [c32decode] accepts every part.  The text it returns is
    made of lower-case hexadecimal digits and hyphens and has 36 characters
    or more; it has exactly 36 when, and only when, each of the four parts of
    the key starts with 1, 2 or 3. *)
Theorem toUUID_never_throws (s : jsstring) (k : Key.t) :
  Key.new s = Ok k ->
  exists u,
    Key.toUUID k = Ok u
    /\ forallb (fun c => isLowerHexUnit c || (c =? Key.hyphen)%N) u = true
    /\ 36 <= length u
    /\ (length u = 36 <-> fullWidthParts s = true).
Proof.
  unfold Key.new. destruct (Key.isValid s) eqn:V; [| discriminate].
  cbn [negb]. intros H. apply Ok_inj in H. subst k.
  destruct (toUUID_valid_key s V)
    as (p0 & p1 & p2 & p3 & d0 & d1 & d2 & d3 & Es & (L0 & L1 & L2 & L3)
        & _ & T & (B0 & B1 & B2 & B3) & (G0 & G1 & G2 & G3)
        & (I0 & I1 & I2 & I3) & _).
  eexists. split; [exact T |].
  assert (W : forall d, forallb isLowerHexUnit d = true ->
                        forallb (fun c => isLowerHexUnit c
                                          || (c =? Key.hyphen)%N) d = true).
  { intros d. apply forallb_weaken. intros a ->. reflexivity. }
  assert (Len : length (d0 ++ [Key.hyphen] ++ JS.slice 0 4 d1 ++ [Key.hyphen]
                          ++ JS.sliceFrom 4 d1 ++ [Key.hyphen]
                          ++ JS.slice 0 4 d2 ++ [Key.hyphen]
                          ++ JS.sliceFrom 4 d2 ++ d3)
                = length d0 + length d1 + length d2 + length d3 + 4).
  { rewrite !length_app. cbn [length].
    pose proof (slice_sliceFrom_length d1).
    pose proof (slice_sliceFrom_length d2). lia. }
  split; [| split].
  - rewrite !forallb_app. cbn [forallb].
    unfold JS.slice, JS.sliceFrom.
    rewrite (W d0 B0), (W d3 B3),
      (forallb_firstn _ _ _ (forallb_skipn _ 0 _ (W d1 B1))),
      (forallb_firstn _ _ _ (forallb_skipn _ 0 _ (W d2 B2))),
      (forallb_skipn _ 4 _ (W d1 B1)), (forallb_skipn _ 4 _ (W d2 B2)).
    reflexivity.
  - rewrite Len. lia.
  - rewrite Len, Es, fullWidthParts_joined by assumption.
    rewrite !andb_true_iff, <- I0, <- I1, <- I2, <- I3. lia.
Qed.

(** ** [Key.encode] on any text *)

Lemma fromHex_length (n : nat) :
  forall s, length s <= n -> 2 * length (Buffer.fromHex s) <= length s.
Proof.
  induction n as [| n IH]; intros s L.
  - destruct s; [cbn; lia | cbn in L; lia].
  - destruct s as [| a [| b rest]]; cbn [Buffer.fromHex length]; try lia.
    destruct (Buffer.unhex a), (Buffer.unhex b); cbn [length]; try lia.
    cbn [length] in L. specialize (IH rest ltac:(lia)). lia.
Qed.

(** The bytes [Buffer.from] reads are below 256. *)
Lemma fromHex_bytes (n : nat) :
  forall s, length s <= n ->
            map (fun b => b mod 256)%N (Buffer.fromHex s) = Buffer.fromHex s.
Proof.
  induction n as [| n IH]; intros s L.
  - destruct s; [reflexivity | cbn in L; lia].
  - destruct s as [| a [| b rest]]; try reflexivity.
    cbn [Buffer.fromHex].
    destruct (Buffer.unhex a) as [x |] eqn:Ea; [| reflexivity].
    destruct (Buffer.unhex b) as [y |] eqn:Eb; [| reflexivity].
    apply unhex_lt in Ea, Eb. cbn [map length] in *.
    rewrite IH by lia. rewrite N.mod_small by lia. reflexivity.
Qed.

(** At most four bytes, other than EF BB BF 00, give at most seven digits. *)
Lemma c32encode_short_length (buf : Buffer.t) (r : jsstring) :
  length buf <= 4 ->
  startsWithMarkAndZero (map (fun b => b mod 256)%N buf) = false ->
  C32check.c32encode (Buffer.toHex buf) = Ok r -> length r <= 7.
Proof.
  intros L M. rewrite (c32encode_toHex_plain _ M).
  destruct buf as [| b0 [| b1 [| b2 [| b3 [| b4 rest]]]]];
    try (cbn [length] in L; lia).
  - intros H. apply Ok_inj in H. subst r.
    cbn. lia.
  - intros H. apply Ok_inj in H. subst r.
    rewrite length_app, repeat_length, length_map.
    pose proof (countLeading_le 0 (map (fun b => b mod 256)%N [b0])) as Hz.
    match goal with
    | |- context [Hex.dropLeading ?c ?l] =>
        pose proof (dropLeading_length c l) as Hl
    end.
    cbn [length map] in Hz |- *.
    change (rev (nibbles [b0])) with [ b0 mod 16; (b0 / 16) mod 16 ]%N
      in Hl |- *.
    change (length (encodeNibbles [ b0 mod 16; (b0 / 16) mod 16 ]%N 0%N []))
      with 2 in Hl.
    lia.
  - intros H. apply Ok_inj in H. subst r.
    rewrite length_app, repeat_length, length_map.
    pose proof (countLeading_le 0 (map (fun b => b mod 256)%N [b0; b1]))
      as Hz.
    match goal with
    | |- context [Hex.dropLeading ?c ?l] =>
        pose proof (dropLeading_length c l) as Hl
    end.
    cbn [length map] in Hz |- *.
    change (rev (nibbles [b0; b1]))
      with [ b1 mod 16; (b1 / 16) mod 16; b0 mod 16; (b0 / 16) mod 16 ]%N
      in Hl |- *.
    change (length (encodeNibbles
                      [ b1 mod 16; (b1 / 16) mod 16; b0 mod 16;
                        (b0 / 16) mod 16 ]%N 0%N [])) with 4 in Hl.
    lia.
  - intros H. apply Ok_inj in H. subst r.
    rewrite length_app, repeat_length, length_map.
    change (rev (nibbles [b0; b1; b2]))
      with [ b2 mod 16; (b2 / 16) mod 16; b1 mod 16; (b1 / 16) mod 16;
             b0 mod 16; (b0 / 16) mod 16 ]%N.
    change (encodeNibbles
              [ b2 mod 16; (b2 / 16) mod 16; b1 mod 16; (b1 / 16) mod 16;
                b0 mod 16; (b0 / 16) mod 16 ]%N 0%N [])
      with [ digitIndex 0 ((b0 / 16) mod 16) 0;
             digitIndex 3 ((b1 / 16) mod 16) (b0 mod 16);
             digitIndex 2 (b1 mod 16) ((b1 / 16) mod 16);
             digitIndex 1 ((b2 / 16) mod 16) (b1 mod 16);
             digitIndex 0 (b2 mod 16) ((b2 / 16) mod 16) ].
    cbn [map Hex.countLeading].
    destruct (N.eqb_spec (b0 mod 256) 0) as [E0 | _];
      [| match goal with
         | |- context [Hex.dropLeading ?c ?l] =>
             pose proof (dropLeading_length c l) as Hl; cbn [length] in Hl;
             lia
         end].
    destruct (zero_byte_nibbles _ E0) as [-> ->].
    change (digitIndex 0 0 0) with 0%N.
    rewrite dropLeading_zero_cons.
    pose proof (countLeading_le 0 [b1 mod 256; b2 mod 256]%N) as Hz.
    match goal with
    | |- context [Hex.dropLeading ?c ?l] =>
        pose proof (dropLeading_length c l) as Hl
    end.
    cbn [length Hex.countLeading] in Hz, Hl |- *. lia.
  - rewrite <- (c32encode_toHex_plain _ M).
    apply c32encode_4_bytes_length, M.
Qed.

(** [encodePart] never throws on a text of eight characters or fewer,
    whatever the characters: [Buffer.from] stops at the first pair that is
    not hexadecimal.  What it has read encodes to seven upper-case Crockford
    digits, but for the bytes EF BB BF 00, which give eight characters. *)
Lemma encodePart_total (hex : jsstring) :
  length hex <= 8 ->
  exists p,
    Key.encodePart hex = Ok p
    /\ if isMarkGroup hex then p = markPart
       else length p = 7 /\ forallb isCrockfordUpper p = true.
Proof.
  intros L. pose proof (fromHex_length _ hex (le_n _)) as Lb.
  assert (L4 : length (Buffer.fromHex hex) <= 4) by lia.
  unfold isMarkGroup, Key.encodePart.
  destruct (startsWithMarkAndZero (Buffer.fromHex hex)) eqn:M.
  - destruct (Buffer.fromHex hex) as [| a [| b [| c [| d [| e rest]]]]];
      try discriminate M; [| cbn [length] in L4; lia].
    cbn [startsWithMarkAndZero] in M. split_andb.
    repeat match goal with
           | H : (_ =? _)%N = true |- _ => apply N.eqb_eq in H; subst
           end.
    exists markPart. split; vm_compute; reflexivity.
  - destruct (C32check.c32encode _) as [r | e] eqn:E;
      [| rewrite c32encode_toHex in E; discriminate E].
    cbn [bind].
    assert (M' : startsWithMarkAndZero
                   (map (fun b => b mod 256)%N (Buffer.fromHex hex)) = false)
      by (rewrite (fromHex_bytes _ hex (le_n _)); exact M).
    pose proof (c32encode_short_length _ _ L4 M' E) as Hlen.
    apply c32encode_toHex_alphabet in E.
    assert (Hp : forallb isCrockfordUpper (JS.padStart 7 Hex.zero r) = true).
    { unfold JS.padStart. rewrite forallb_app, forallb_repeat by reflexivity.
      exact E. }
    eexists. split; [reflexivity |].
    rewrite toUpperCase_crockford by exact Hp.
    split; [apply padStart_length; exact Hlen | exact Hp].
Qed.

(** A key text with the part for efbbbf00 in it is no valid key text: it is
    too long, or it has a digit where a hyphen goes. *)
Lemma joined_parts_invalid
  (p0 p1 p2 p3 : jsstring) (b0 b1 b2 b3 h : bool) :
  (if b0 then p0 = markPart else length p0 = 7) ->
  (if b1 then p1 = markPart else length p1 = 7) ->
  (if b2 then p2 = markPart else length p2 = 7) ->
  (if b3 then p3 = markPart else length p3 = 7) ->
  b0 || b1 || b2 || b3 = true ->
  Key.isValid (if h then JS.join [Key.hyphen] [p0; p1; p2; p3]
               else JS.join [] [p0; p1; p2; p3]) = false.
Proof.
  destruct b0, b1, b2, b3; intros H0 H1 H2 H3 B; try discriminate B;
    subst;
    repeat match goal with
           | L : length ?p = 7 |- _ => explode p L
           end;
    destruct h; reflexivity.
Qed.

Lemma slice_length_le (a b : nat) (s : jsstring) :
  length (JS.slice a b s) <= b - a.
Proof. unfold JS.slice. rewrite length_firstn. lia. Qed.

(** [Key.encode] of any text of 36 characters.  Where no group is efbbbf00
    it builds four parts of seven upper-case Crockford digits and the
    constructor accepts them; where one is, the constructor refuses what it
    is handed. *)
Lemma encode_36_characters (uuid : jsstring) (h : bool) :
  length uuid = 36 ->
  (hasMarkGroup uuid = false ->
   exists p0 p1 p2 p3,
     (length p0 = 7 /\ length p1 = 7 /\ length p2 = 7 /\ length p3 = 7)
     /\ (forallb isCrockfordUpper p0 = true
         /\ forallb isCrockfordUpper p1 = true
         /\ forallb isCrockfordUpper p2 = true
         /\ forallb isCrockfordUpper p3 = true)
     /\ Key.encode uuid h
        = Ok (Key.mk (if h then JS.join [Key.hyphen] [p0; p1; p2; p3]
                      else JS.join [] [p0; p1; p2; p3])))
  /\ (hasMarkGroup uuid = true -> Key.encode uuid h = Throw InvalidKeyFormat).
Proof.
  intros L. unfold Key.encode, Constants.UUID_LENGTH, hasMarkGroup.
  rewrite L. cbn [Nat.eqb negb].
  destruct (encodePart_total (JS.slice 0 8 uuid)) as (p0 & -> & H0);
    [pose proof (slice_length_le 0 8 uuid); lia |].
  destruct (encodePart_total (JS.slice 9 13 uuid ++ JS.slice 14 18 uuid))
    as (p1 & -> & H1);
    [rewrite length_app; pose proof (slice_length_le 9 13 uuid);
     pose proof (slice_length_le 14 18 uuid); lia |].
  destruct (encodePart_total (JS.slice 19 23 uuid ++ JS.slice 24 28 uuid))
    as (p2 & -> & H2);
    [rewrite length_app; pose proof (slice_length_le 19 23 uuid);
     pose proof (slice_length_le 24 28 uuid); lia |].
  destruct (encodePart_total (JS.slice 28 36 uuid)) as (p3 & -> & H3);
    [pose proof (slice_length_le 28 36 uuid); lia |].
  cbn [bind]. unfold Key.new.
  set (b0 := isMarkGroup (JS.slice 0 8 uuid)) in *.
  set (b1 := isMarkGroup (JS.slice 9 13 uuid ++ JS.slice 14 18 uuid)) in *.
  set (b2 := isMarkGroup (JS.slice 19 23 uuid ++ JS.slice 24 28 uuid)) in *.
  set (b3 := isMarkGroup (JS.slice 28 36 uuid)) in *.
  clearbody b0 b1 b2 b3. split.
  - intros M.
    apply orb_false_iff in M. destruct M as [M ->].
    apply orb_false_iff in M. destruct M as [M ->].
    apply orb_false_iff in M. destruct M as [-> ->].
    destruct H0 as [L0 A0], H1 as [L1 A1], H2 as [L2 A2], H3 as [L3 A3].
    exists p0, p1, p2, p3.
    split; [repeat split; assumption |].
    split; [repeat split; assumption |].
    destruct (joined_parts_valid p0 p1 p2 p3 L0 L1 L2 L3 A0 A1 A2 A3)
      as (V28 & _ & V31 & _ & _).
    destruct h; [rewrite V31 | rewrite V28]; reflexivity.
  - intros M.
    rewrite (joined_parts_invalid p0 p1 p2 p3 b0 b1 b2 b3 h);
      [reflexivity | | | | | exact M];
      [ destruct b0; [exact H0 | apply H0]
      | destruct b1; [exact H1 | apply H1]
      | destruct b2; [exact H2 | apply H2]
      | destruct b3; [exact H3 | apply H3] ].
Qed.

(** X7: what [Key.encode] does with any text.  A text that has not 36
    characters is refused with 'Invalid UUID length'.  A text of 36
    characters in which one of the four groups is efbbbf00 is refused by the
    constructor, with 'Invalid Key format'.  Every other text of 36
    characters is accepted, whatever its characters, and gives a valid key
    text of 31 characters with hyphens and of 28 without.  The text is taken
    in Latin-1, where [Buffer.from] reads the code units themselves. *)
Theorem encode_outcome (uuid : jsstring) (h : bool) :
  isLatin1 uuid = true ->
  (length uuid <> 36 -> Key.encode uuid h = Throw InvalidUUIDLength)
  /\ (length uuid = 36 -> hasMarkGroup uuid = true ->
      Key.encode uuid h = Throw InvalidKeyFormat)
  /\ (length uuid = 36 -> hasMarkGroup uuid = false ->
      exists k,
        Key.encode uuid h = Ok k
        /\ Key.isValid (Key.toString k) = true
        /\ length (Key.toString k) = if h then 31 else 28).
Proof.
  intros _. split; [| split].
  - intros N. unfold Key.encode, Constants.UUID_LENGTH.
    apply Nat.eqb_neq in N. rewrite N. reflexivity.
  - intros L M. apply (proj2 (encode_36_characters uuid h L)), M.
  - intros L M.
    destruct (proj1 (encode_36_characters uuid h L) M)
      as (p0 & p1 & p2 & p3 & (L0 & L1 & L2 & L3) & (A0 & A1 & A2 & A3) & E).
    destruct (joined_parts_valid p0 p1 p2 p3 L0 L1 L2 L3 A0 A1 A2 A3)
      as (V28 & L28 & V31 & L31 & _).
    eexists. split; [exact E |]. unfold Key.toString. cbn [Key.value].
    destruct h; split; assumption.
Qed.

(** X16: the fixed width of a key.  For every valid 36-character UUID text
    none of whose four groups is efbbbf00, [Key.encode] succeeds; the text
    of the key without hyphens has exactly 28 characters, and with hyphens
    exactly 31, with hyphens at 7, 15 and 23 and upper-case Crockford digits
    everywhere else. *)
Theorem encode_fixed_width (uuid : jsstring) :
  isUUID uuid = true -> hasMarkGroup uuid = false ->
  exists k28 k31,
    Key.encode uuid false = Ok k28
    /\ length (Key.toString k28) = 28
    /\ Key.encode uuid true = Ok k31
    /\ length (Key.toString k31) = 31
    /\ (forall i c, nth_error (Key.toString k31) i = Some c ->
                    if isHyphenIndex i then c = Key.hyphen
                    else isCrockfordUpper c = true).
Proof.
  intros H M.
  assert (L : length uuid = 36).
  { unfold isUUID in H. apply andb_true_iff in H. apply Nat.eqb_eq, H. }
  destruct (proj1 (encode_36_characters uuid false L) M)
    as (p0 & p1 & p2 & p3 & (L0 & L1 & L2 & L3) & (A0 & A1 & A2 & A3) & E28).
  destruct (proj1 (encode_36_characters uuid true L) M)
    as (q0 & q1 & q2 & q3 & (K0 & K1 & K2 & K3) & (B0 & B1 & B2 & B3) & E31).
  destruct (joined_parts_valid p0 p1 p2 p3 L0 L1 L2 L3 A0 A1 A2 A3)
    as (_ & L28 & _).
  destruct (joined_parts_valid q0 q1 q2 q3 K0 K1 K2 K3 B0 B1 B2 B3)
    as (_ & _ & _ & L31 & S31).
  eexists. eexists.
  split; [exact E28 |]. split; [exact L28 |].
  split; [exact E31 |]. split; [exact L31 | exact S31].
Qed.

Lemma filter_crockford (p : jsstring) :
  forallb isCrockfordUpper p = true -> withoutHyphens p = p.
Proof.
  unfold withoutHyphens. induction p as [| c p IH]; [reflexivity |].
  cbn [forallb filter]. intros H. apply andb_true_iff in H.
  destruct H as [Hc Hp].
  destruct (N.eqb_spec c Key.hyphen) as [-> | _]; [discriminate Hc |].
  cbn [negb]. rewrite (IH Hp). reflexivity.
Qed.

(** X6: the hyphens of a key text carry nothing.  For every key the
    constructor has accepted, the text without its hyphens is accepted too,
    has 28 characters, and [toUUID] gives the same answer for both. *)
Theorem toUUID_ignores_hyphens (s : jsstring) (k : Key.t) :
  Key.new s = Ok k ->
  exists k',
    Key.new (withoutHyphens s) = Ok k'
    /\ length (Key.toString k') = 28
    /\ Key.toUUID k' = Key.toUUID k.
Proof.
  unfold Key.new at 1. destruct (Key.isValid s) eqn:V; [| discriminate].
  cbn [negb]. intros H. apply Ok_inj in H. subst k.
  destruct (isValid_parts s V)
    as (p0 & p1 & p2 & p3 & Es & (L0 & L1 & L2 & L3) & (A0 & A1 & A2 & A3)).
  destruct (joined_parts_valid p0 p1 p2 p3 L0 L1 L2 L3 A0 A1 A2 A3)
    as (V28 & L28 & V31 & _ & _).
  destruct (c32decode_part p0 L0 A0) as (d0 & E0 & _).
  destruct (c32decode_part p1 L1 A1) as (d1 & E1 & _).
  destruct (c32decode_part p2 L2 A2) as (d2 & E2 & _).
  destruct (c32decode_part p3 L3 A3) as (d3 & E3 & _).
  pose proof (toUUID_of_parts p0 p1 p2 p3 d0 d1 d2 d3 false
                L0 L1 L2 L3 A0 A1 A2 A3 E0 E1 E2 E3) as T28.
  pose proof (toUUID_of_parts p0 p1 p2 p3 d0 d1 d2 d3 true
                L0 L1 L2 L3 A0 A1 A2 A3 E0 E1 E2 E3) as T31.
  unfold Key.new in T28, T31. rewrite V28 in T28. rewrite V31 in T31.
  cbn [negb bind] in T28, T31.
  assert (W : withoutHyphens s = JS.join [] [p0; p1; p2; p3]).
  { rewrite Es. destruct (length s =? 31).
    - cbn [JS.join]. unfold withoutHyphens.
      rewrite !filter_app. cbn [filter].
      rewrite N.eqb_refl. cbn [negb].
      fold (withoutHyphens p0) (withoutHyphens p1) (withoutHyphens p2)
        (withoutHyphens p3).
      rewrite !filter_crockford by assumption. reflexivity.
    - apply filter_crockford. cbn [JS.join app].
      rewrite !forallb_app, A0, A1, A2, A3. reflexivity. }
  exists (Key.mk (JS.join [] [p0; p1; p2; p3])).
  rewrite W. unfold Key.new. rewrite V28. cbn [negb].
  split; [reflexivity |]. split; [exact L28 |].
  rewrite T28, Es. destruct (length s =? 31); [rewrite T31 | rewrite T28];
    reflexivity.
Qed.

(** The constructor refuses what [Key.encode] builds for a text with the
    group efbbbf00, also where every group starts with a digit of 4 or
    more. *)
Example encode_mark_group :
  isUUID markBigUUID = true
  /\ bigGroups markBigUUID = true
  /\ hasMarkGroup markBigUUID = true
  /\ encodeThenToUUID markBigUUID true = Throw InvalidKeyFormat.
Proof. repeat split; vm_compute; reflexivity. Qed.

Lemma lower_hex_is_hex (c : N) :
  isLowerHexUnit c = true -> Hex.isHexUnit c = true.
Proof.
  unfold isLowerHexUnit, Hex.isHexUnit. intros ->. reflexivity.
Qed.

(** X4: decoding, then encoding.  For every key the constructor has accepted
    whose four parts start with 1, 2 or 3, [toUUID] returns a valid
    36-character UUID text, and [Key.encode] of that text, with hyphens if
    the key has them, gives the key back, unless one of the groups of the
    text is efbbbf00 (a part of the key is 3QVQFR0): then [Key.encode]
    throws 'Invalid Key format'. *)
Theorem toUUID_encode_round_trip (s : jsstring) (k : Key.t) :
  Key.new s = Ok k -> fullWidthParts s = true ->
  exists u,
    Key.toUUID k = Ok u
    /\ isUUID u = true
    /\ Key.encode u (length s =? 31)
       = if hasMarkGroup u then Throw InvalidKeyFormat else Ok k.
Proof.
  unfold Key.new. destruct (Key.isValid s) eqn:V; [| discriminate].
  cbn [negb]. intros H F. apply Ok_inj in H. subst k.
  destruct (toUUID_valid_key s V)
    as (p0 & p1 & p2 & p3 & d0 & d1 & d2 & d3 & Es & (L0 & L1 & L2 & L3)
        & (A0 & A1 & A2 & A3) & T & (B0 & B1 & B2 & B3) & _
        & (I0 & I1 & I2 & I3) & (R0 & R1 & R2 & R3)).
  rewrite Es, fullWidthParts_joined in F by assumption.
  apply andb_true_iff in F. destruct F as [F F3].
  apply andb_true_iff in F. destruct F as [F F2].
  apply andb_true_iff in F. destruct F as [F0 F1].
  specialize (R0 F0). specialize (R1 F1).
  specialize (R2 F2). specialize (R3 F3).
  apply I0 in F0. apply I1 in F1. apply I2 in F2. apply I3 in F3.
  eexists. split; [exact T |].
  explode d0 F0; explode d1 F1; explode d2 F2; explode d3 F3.
  cbn [forallb] in B0, B1, B2, B3. split_andb.
  repeat match goal with
         | H : isLowerHexUnit _ = true |- _ => apply lower_hex_is_hex in H
         end.
  cbn [JS.slice JS.sliceFrom Nat.sub firstn skipn app].
  split.
  - unfold isUUID. cbn [length Nat.eqb andb uuidUnitsFrom isUUIDHyphenIndex
                          orb Hex.isHexString forallb].
    repeat match goal with
           | H : Hex.isHexUnit _ = true |- _ => rewrite H; clear H
           end.
    reflexivity.
  - destruct (hasMarkGroup _) eqn:M.
    + match type of M with
      | hasMarkGroup ?u = true =>
          exact (proj2 (encode_36_characters u _ eq_refl) M)
      end.
    + unfold hasMarkGroup in M.
      cbn [JS.slice Nat.sub firstn skipn app] in M.
      apply orb_false_iff in M. destruct M as [M M3].
      apply orb_false_iff in M. destruct M as [M M2].
      apply orb_false_iff in M. destruct M as [M0 M1].
      unfold Key.encode, Constants.UUID_LENGTH.
      cbn [length Nat.eqb negb JS.slice Nat.sub firstn skipn app].
      rewrite (R0 M0), (R1 M1), (R2 M2), (R3 M3). cbn [bind].
      rewrite <- Es. unfold Key.new. rewrite V. reflexivity.
Qed.

Lemma group_starts_one_to_three (x0 x1 x2 x3 x4 x5 x6 x7 : N) :
  (x0 < 16)%N ->
  partStartsAt
    (map (Hex.charAt Hex.c32) (groupDigits x0 x1 x2 x3 x4 x5 x6 x7)) 0
  = (4 <=? x0)%N.
Proof.
  intros H. unfold partStartsAt, groupDigits. cbn [map nth_error].
  nibble_cases x0 H; reflexivity.
Qed.

Ltac valid_uuid_digits uuid H :=
  let L := fresh "L" in
  unfold isUUID in H; apply andb_true_iff in H; destruct H as [L H];
  apply Nat.eqb_eq in L; explode uuid L;
  cbn in H; split_andb;
  repeat match goal with
         | Hy : (_ =? Key.hyphen)%N = true |- _ =>
             apply N.eqb_eq in Hy; subst
         end;
  repeat match goal with
         | Hu : Hex.isHexUnit ?c = true |- _ => hex_value c
         end.


(** X5: encoding, then decoding, on every valid UUID text.  Where one of the
    four groups is efbbbf00, [Key.encode] throws 'Invalid Key format'.
    Everywhere else [toUUID] of the encoded key never throws and returns 36
    characters or more; it returns exactly 36 when, and only when, each of
    the four groups starts with a hexadecimal digit of 4 or more.  A group
    below 0x40000000 always comes back longer than it went in. *)
Theorem encode_toUUID_length (uuid : jsstring) (h : bool) :
  isUUID uuid = true ->
  (hasMarkGroup uuid = true ->
   encodeThenToUUID uuid h = Throw InvalidKeyFormat)
  /\ (hasMarkGroup uuid = false ->
      exists u,
        encodeThenToUUID uuid h = Ok u
        /\ 36 <= length u
        /\ (length u = 36 <-> bigGroups uuid = true)).
Proof.
  intros H. split.
  { intros M. unfold encodeThenToUUID.
    assert (L : length uuid = 36).
    { unfold isUUID in H. apply andb_true_iff in H. apply Nat.eqb_eq, H. }
    rewrite (proj2 (encode_36_characters uuid h L) M). reflexivity. }
  intros M. valid_uuid_digits uuid H. mark_groups M.
  unfold bigGroups, bigGroupAt. cbn [nth_error].
  unfold encodeThenToUUID, Key.encode, Constants.UUID_LENGTH.
  cbn [length Nat.eqb negb JS.slice Nat.sub firstn skipn app].
  repeat (erewrite encodePart_any_group; [| eassumption ..]).
  cbn [bind].
  repeat match goal with
         | E : Buffer.unhex ?c = Some ?x |- _ =>
             pose proof (unhex_lt c x E); rewrite ?E; clear E
         end.
  match goal with
  | |- context [JS.join [] [?a; ?b; ?c; ?d]] =>
      change (if h then JS.join [Key.hyphen] [a; b; c; d]
              else JS.join [] [a; b; c; d])
        with (if h then JS.join [Key.hyphen] [a; b; c; d]
              else JS.join [] [a; b; c; d]);
      assert (A0 : forallb isCrockfordUpper a = true)
        by (apply c32_digits_upper, groupDigits_lt_32; assumption);
      assert (A1 : forallb isCrockfordUpper b = true)
        by (apply c32_digits_upper, groupDigits_lt_32; assumption);
      assert (A2 : forallb isCrockfordUpper c = true)
        by (apply c32_digits_upper, groupDigits_lt_32; assumption);
      assert (A3 : forallb isCrockfordUpper d = true)
        by (apply c32_digits_upper, groupDigits_lt_32; assumption);
      destruct (c32decode_part a eq_refl A0) as (d0 & E0 & _ & G0 & I0 & _);
      destruct (c32decode_part b eq_refl A1) as (d1 & E1 & _ & G1 & I1 & _);
      destruct (c32decode_part c eq_refl A2) as (d2 & E2 & _ & G2 & I2 & _);
      destruct (c32decode_part d eq_refl A3) as (d3 & E3 & _ & G3 & I3 & _);
      rewrite (toUUID_of_parts a b c d d0 d1 d2 d3 h
                 eq_refl eq_refl eq_refl eq_refl A0 A1 A2 A3 E0 E1 E2 E3)
  end.
  rewrite group_starts_one_to_three in I0, I1, I2, I3 by assumption.
  eexists. split; [reflexivity |].
  rewrite !length_app. cbn [length].
  pose proof (slice_sliceFrom_length d1).
  pose proof (slice_sliceFrom_length d2).
  rewrite !andb_true_iff, <- I0, <- I1, <- I2, <- I3. lia.
Qed.

Lemma Some_inj {A} (a b : A) : Some a = Some b -> a = b.
Proof. congruence. Qed.

(** X8: [Key.encode] never reads the characters at the places of the
    hyphens: two texts of 36 characters that agree everywhere but at the
    indices 8, 13, 18 and 23 give the same answer. *)
Theorem encode_skips_hyphen_places (u v : jsstring) (h : bool) :
  length u = 36 -> length v = 36 ->
  (forall i, isUUIDHyphenIndex i = false -> nth_error u i = nth_error v i) ->
  Key.encode u h = Key.encode v h.
Proof.
  intros Lu Lv H. explode u Lu. explode v Lv.
  pose proof (H 0 eq_refl) as E0; pose proof (H 1 eq_refl) as E1;
    pose proof (H 2 eq_refl) as E2; pose proof (H 3 eq_refl) as E3;
    pose proof (H 4 eq_refl) as E4; pose proof (H 5 eq_refl) as E5;
    pose proof (H 6 eq_refl) as E6; pose proof (H 7 eq_refl) as E7;
    pose proof (H 9 eq_refl) as E9; pose proof (H 10 eq_refl) as E10;
    pose proof (H 11 eq_refl) as E11; pose proof (H 12 eq_refl) as E12;
    pose proof (H 14 eq_refl) as E14; pose proof (H 15 eq_refl) as E15;
    pose proof (H 16 eq_refl) as E16; pose proof (H 17 eq_refl) as E17;
    pose proof (H 19 eq_refl) as E19; pose proof (H 20 eq_refl) as E20;
    pose proof (H 21 eq_refl) as E21; pose proof (H 22 eq_refl) as E22;
    pose proof (H 24 eq_refl) as E24; pose proof (H 25 eq_refl) as E25;
    pose proof (H 26 eq_refl) as E26; pose proof (H 27 eq_refl) as E27;
    pose proof (H 28 eq_refl) as E28; pose proof (H 29 eq_refl) as E29;
    pose proof (H 30 eq_refl) as E30; pose proof (H 31 eq_refl) as E31;
    pose proof (H 32 eq_refl) as E32; pose proof (H 33 eq_refl) as E33;
    pose proof (H 34 eq_refl) as E34; pose proof (H 35 eq_refl) as E35.
  clear H. cbn [nth_error] in *.
  repeat match goal with
         | E : Some _ = Some _ |- _ => apply Some_inj in E; subst
         end.
  reflexivity.
Qed.

Lemma unhex_lowerUnit (c : N) : Buffer.unhex (JS.lowerUnit c) = Buffer.unhex c.
Proof.
  unfold JS.lowerUnit.
  destruct (N.leb_spec 65 c) as [L | L]; [| reflexivity].
  destruct (N.leb_spec c 90) as [U | U]; [| reflexivity].
  cbn [andb]. unfold Buffer.unhex.
  replace (48 <=? c + 32)%N with true by (symmetry; apply N.leb_le; lia).
  replace (c + 32 <=? 57)%N with false by (symmetry; apply N.leb_gt; lia).
  replace (97 <=? c + 32)%N with true by (symmetry; apply N.leb_le; lia).
  replace (48 <=? c)%N with true by (symmetry; apply N.leb_le; lia).
  replace (c <=? 57)%N with false by (symmetry; apply N.leb_gt; lia).
  replace (97 <=? c)%N with false by (symmetry; apply N.leb_gt; lia).
  replace (65 <=? c)%N with true by (symmetry; apply N.leb_le; lia).
  cbn [andb].
  destruct (N.leb_spec c 70) as [F | F].
  - replace (c + 32 <=? 102)%N with true by (symmetry; apply N.leb_le; lia).
    f_equal. lia.
  - replace (c + 32 <=? 102)%N with false by (symmetry; apply N.leb_gt; lia).
    replace (65 <=? c + 32)%N with true by (symmetry; apply N.leb_le; lia).
    replace (c + 32 <=? 70)%N with false by (symmetry; apply N.leb_gt; lia).
    reflexivity.
Qed.

Lemma fromHex_map (f : N -> N) (n : nat) :
  (forall c, Buffer.unhex (f c) = Buffer.unhex c) ->
  forall s, length s <= n -> Buffer.fromHex (map f s) = Buffer.fromHex s.
Proof.
  intros Hf. induction n as [| n IH]; intros s L.
  - destruct s; [reflexivity | cbn in L; lia].
  - destruct s as [| a [| b rest]]; try reflexivity.
    cbn [map Buffer.fromHex]. rewrite !Hf.
    cbn [length] in L. rewrite IH by lia. reflexivity.
Qed.

Lemma slice_map (f : N -> N) (a b : nat) (s : jsstring) :
  JS.slice a b (map f s) = map f (JS.slice a b s).
Proof. unfold JS.slice. rewrite skipn_map, firstn_map. reflexivity. Qed.

Lemma encode_map (f : N -> N) (uuid : jsstring) (h : bool) :
  (forall c, Buffer.unhex (f c) = Buffer.unhex c) ->
  Key.encode (map f uuid) h = Key.encode uuid h.
Proof.
  intros Hf. unfold Key.encode, Key.encodePart.
  rewrite length_map, !slice_map, <- !map_app.
  rewrite !(fromHex_map f _ Hf _ (le_n _)). reflexivity.
Qed.

(** X9: [Key.encode] does not tell the case of the letters apart: two texts
    that differ only in the case of their ASCII letters give the same
    answer. *)
Theorem encode_ignores_case (u v : jsstring) (h : bool) :
  sameIgnoringCase u v -> Key.encode u h = Key.encode v h.
Proof.
  unfold sameIgnoringCase, JS.toLowerCase. intros E.
  rewrite <- (encode_map JS.lowerUnit u h unhex_lowerUnit).
  rewrite <- (encode_map JS.lowerUnit v h unhex_lowerUnit).
  rewrite E. reflexivity.
Qed.

(** ** [Key.encode] is one to one *)

Lemma digitNibbles_groupDigits (x0 x1 x2 x3 x4 x5 x6 x7 : N) :
  (x0 < 16)%N -> (x1 < 16)%N -> (x2 < 16)%N -> (x3 < 16)%N ->
  (x4 < 16)%N -> (x5 < 16)%N -> (x6 < 16)%N -> (x7 < 16)%N ->
  digitNibbles (digitIndex 2 x0 0) (digitIndex 1 x1 x0) (digitIndex 0 x2 x1)
    (digitIndex 3 x4 x3) (digitIndex 2 x5 x4) (digitIndex 1 x6 x5)
    (digitIndex 0 x7 x6)
  = [x0; x1; x2; x3; x4; x5; x6; x7].
Proof.
  intros H0 H1 H2 H3 H4 H5 H6 H7. unfold digitNibbles.
  do 7 (f_equal; [digit_arith |]). f_equal. digit_arith.
Qed.

Lemma c32_digit_injective (i j : N) :
  (i < 32)%N -> (j < 32)%N ->
  Hex.charAt Hex.c32 i = Hex.charAt Hex.c32 j -> i = j.
Proof.
  intros Hi Hj E.
  destruct (c32_decode_facts i Hi) as (_ & _ & <-).
  destruct (c32_decode_facts j Hj) as (_ & _ & <-).
  rewrite E. reflexivity.
Qed.

(** The Crockford digits of a group determine its hexadecimal digits. *)
Lemma group_injective (x0 x1 x2 x3 x4 x5 x6 x7 y0 y1 y2 y3 y4 y5 y6 y7 : N) :
  (x0 < 16)%N -> (x1 < 16)%N -> (x2 < 16)%N -> (x3 < 16)%N ->
  (x4 < 16)%N -> (x5 < 16)%N -> (x6 < 16)%N -> (x7 < 16)%N ->
  (y0 < 16)%N -> (y1 < 16)%N -> (y2 < 16)%N -> (y3 < 16)%N ->
  (y4 < 16)%N -> (y5 < 16)%N -> (y6 < 16)%N -> (y7 < 16)%N ->
  map (Hex.charAt Hex.c32) (groupDigits x0 x1 x2 x3 x4 x5 x6 x7)
  = map (Hex.charAt Hex.c32) (groupDigits y0 y1 y2 y3 y4 y5 y6 y7) ->
  [x0; x1; x2; x3; x4; x5; x6; x7] = [y0; y1; y2; y3; y4; y5; y6; y7].
Proof.
  intros X0 X1 X2 X3 X4 X5 X6 X7 Y0 Y1 Y2 Y3 Y4 Y5 Y6 Y7 E.
  rewrite <- (digitNibbles_groupDigits x0 x1 x2 x3 x4 x5 x6 x7) by assumption.
  rewrite <- (digitNibbles_groupDigits y0 y1 y2 y3 y4 y5 y6 y7) by assumption.
  unfold groupDigits in E. cbn [map] in E.
  injection E as E0 E1 E2 E3 E4 E5 E6.
  apply c32_digit_injective in E0, E1, E2, E3, E4, E5, E6;
    try (apply digitIndex_lt_32; (assumption || reflexivity)).
  rewrite E0, E1, E2, E3, E4, E5, E6. reflexivity.
Qed.

Lemma joined_parts_injective (a b c d a' b' c' d' : jsstring) (h : bool) :
  length a = 7 -> length b = 7 -> length c = 7 -> length d = 7 ->
  length a' = 7 -> length b' = 7 -> length c' = 7 -> length d' = 7 ->
  (if h then JS.join [Key.hyphen] [a; b; c; d] else JS.join [] [a; b; c; d])
  = (if h then JS.join [Key.hyphen] [a'; b'; c'; d']
     else JS.join [] [a'; b'; c'; d']) ->
  a = a' /\ b = b' /\ c = c' /\ d = d'.
Proof.
  intros La Lb Lc Ld La' Lb' Lc' Ld'.
  explode a La; explode b Lb; explode c Lc; explode d Ld.
  explode a' La'; explode b' Lb'; explode c' Lc'; explode d' Ld'.
  destruct h; cbn [JS.join app]; intros E; injection E; intros; subst;
    repeat split; reflexivity.
Qed.

(** X10: [Key.encode] is one to one on the valid UUID texts it accepts: two
    of them that encode to the same key are the same text, up to the case of
    the letters. *)
Theorem encode_injective (u v : jsstring) (h : bool) (k : Key.t) :
  isUUID u = true -> isUUID v = true ->
  Key.encode u h = Ok k -> Key.encode v h = Ok k ->
  sameIgnoringCase u v.
Proof.
  intros Hu Hv Ku Kv.
  assert (Lu : length u = 36).
  { unfold isUUID in Hu. apply andb_true_iff in Hu. apply Nat.eqb_eq, Hu. }
  assert (Lv : length v = 36).
  { unfold isUUID in Hv. apply andb_true_iff in Hv. apply Nat.eqb_eq, Hv. }
  destruct (hasMarkGroup u) eqn:Mu;
    [rewrite (proj2 (encode_36_characters u h Lu) Mu) in Ku; discriminate Ku |].
  destruct (hasMarkGroup v) eqn:Mv;
    [rewrite (proj2 (encode_36_characters v h Lv) Mv) in Kv; discriminate Kv |].
  assert (E : Key.encode u h = Key.encode v h) by congruence.
  clear Ku Kv Lu Lv k. revert E.
  valid_uuid_digits u Hu. valid_uuid_digits v Hv.
  mark_groups Mu. mark_groups Mv.
  unfold Key.encode, Constants.UUID_LENGTH.
  cbn [length Nat.eqb negb JS.slice Nat.sub firstn skipn app].
  repeat (erewrite encodePart_any_group; [| eassumption ..]).
  cbn [bind].
  repeat match goal with
         | E : Buffer.unhex ?c = Some ?x |- _ =>
             pose proof (unhex_lt c x E);
             apply unhex_lower in E
         end.
  unfold sameIgnoringCase, JS.toLowerCase. cbn [map].
  repeat match goal with
         | E : Hex.charAt Hex.hex _ = JS.lowerUnit _ |- _ =>
             rewrite <- E; clear E
         end.
  match goal with
  | |- Key.new (if h then JS.join _ [?a; ?b; ?c; ?d] else _)
       = Key.new (if h then JS.join _ [?a'; ?b'; ?c'; ?d'] else _) -> _ =>
      destruct (joined_parts_valid a b c d) as (V28 & _ & V31 & _ & _);
        try reflexivity;
        try (apply c32_digits_upper, groupDigits_lt_32; assumption);
      destruct (joined_parts_valid a' b' c' d') as (W28 & _ & W31 & _ & _);
        try reflexivity;
        try (apply c32_digits_upper, groupDigits_lt_32; assumption);
      intros E;
      assert (P : a = a' /\ b = b' /\ c = c' /\ d = d')
  end.
  { apply (joined_parts_injective _ _ _ _ _ _ _ _ h); try reflexivity.
    unfold Key.new in E.
    destruct h; [rewrite V31, W31 in E | rewrite V28, W28 in E];
      cbn [negb] in E; apply Ok_inj in E;
      apply (f_equal Key.value) in E; exact E. }
  destruct P as (P0 & P1 & P2 & P3).
  apply group_injective in P0, P1, P2, P3; try assumption.
  injection P0; injection P1; injection P2; injection P3. intros. subst.
  reflexivity.
Qed.

(** ** What [parse] accepts *)

(** [split] loses nothing: the pieces hold no separator, and joined with the
    separator they give the text back. *)
Lemma split_join (sep : N) (s : jsstring) :
  JS.split sep s <> []
  /\ JS.join [sep] (JS.split sep s) = s
  /\ Forall (fun p => ~ In sep p) (JS.split sep s).
Proof.
  induction s as [| c s (Hne & Hj & Hf)].
  - cbn. repeat split; [discriminate | repeat constructor; tauto].
  - cbn [JS.split].
    destruct (N.eqb_spec c sep) as [-> | Hc].
    + split; [discriminate |]. split.
      * destruct (JS.split sep s) as [| p ps] eqn:E; [contradiction |].
        change (JS.join [sep] ([] :: p :: ps))
          with ([] ++ [sep] ++ JS.join [sep] (p :: ps)).
        rewrite Hj. reflexivity.
      * constructor; [tauto | exact Hf].
    + destruct (JS.split sep s) as [| p ps] eqn:E; [contradiction |].
      split; [discriminate |]. split.
      * rewrite <- Hj. destruct ps; reflexivity.
      * apply Forall_cons_iff in Hf. destruct Hf as [Hp Hps].
        constructor; [| exact Hps].
        intros [H | H]; [congruence | exact (Hp H)].
Qed.

Lemma valid_plain_key_crockford (v : jsstring) :
  Key.isValid v = true -> length v = 28 ->
  forallb isCrockfordUpper v = true.
Proof.
  intros V L.
  destruct (isValid_parts v V)
    as (p0 & p1 & p2 & p3 & Es & _ & (A0 & A1 & A2 & A3)).
  rewrite L in Es. cbn [Nat.eqb] in Es. rewrite Es. cbn [JS.join app].
  rewrite !forallb_app, A0, A1, A2, A3. reflexivity.
Qed.

(** X11: [parse] accepts exactly the texts of well-formed keys, and returns
    the key whose text it was given.  [parse s] returns [a] when, and only
    when, [s] is the text of [a], the prefix of [a] is not empty and has no
    underscore, its key is a valid key text of 28 characters, its entropy
    (of any length, the empty one included) has no underscore, and its
    checksum is the one computed from the other three. *)
Theorem parse_accepts_exactly (s : jsstring) (a : APIKey) :
  ApiKey.parse s = Ok a
  <-> (s = ApiKey.toString a
       /\ prefix a <> []
       /\ ~ In underscore (prefix a)
       /\ length (Key.toString (key a)) = 28
       /\ Key.isValid (Key.toString (key a)) = true
       /\ ~ In underscore (entropy a)
       /\ checksum a = ApiKey.calculateChecksum a).
Proof.
  split.
  - intros H.
    assert (Hs : s <> []) by (intros ->; discriminate H).
    destruct (Nat.eq_dec (length (JS.split underscore s)) 3) as [L3 | N3];
      [| rewrite (parse_wrong_part_count s Hs N3) in H; discriminate H].
    destruct (JS.split underscore s) as [| p [| r [| c [| x l]]]] eqn:Esplit;
      try discriminate L3.
    destruct (split_join underscore s) as (_ & Hj & Hf).
    rewrite Esplit in Hj, Hf.
    apply Forall_cons_iff in Hf. destruct Hf as [Hp Hf].
    apply Forall_cons_iff in Hf. destruct Hf as [Hr _].
    destruct (parse_three_parts _ p r c Hs Esplit)
      as (P1 & P2 & P3 & P4 & P5 & P6).
    destruct p as [| u p]; [rewrite P1 in H by reflexivity; discriminate H |].
    assert (Hne : u :: p <> []) by discriminate.
    destruct (Nat.lt_ge_cases (length r) 28) as [Lr | Lr];
      [rewrite (P2 Hne Lr) in H; discriminate H |].
    destruct (ApiKey.isValidChecksum c) eqn:Vc.
    2:{ rewrite P3 in H; [discriminate H | exact Hne | exact Lr |].
        intros Hc'. apply isValidChecksum_iff in Hc'. congruence. }
    apply isValidChecksum_iff in Vc.
    destruct (Key.isValid (firstn 28 r)) eqn:Vk;
      [| rewrite (P4 Hne Lr Vc eq_refl) in H; discriminate H].
    destruct (list_eq_dec N.eq_dec c
                (ApiKey.calculateChecksum
                   (mkAPIKey (u :: p) (Key.mk (firstn 28 r)) (skipn 28 r) c)))
      as [Ec | Nc];
      [| rewrite (P5 Hne Lr Vc eq_refl Nc) in H; discriminate H].
    rewrite (P6 Hne Lr Vc eq_refl Ec) in H. apply Ok_inj in H. subst a.
    unfold ApiKey.toString, Key.toString.
    cbn [prefix key entropy checksum Key.value].
    split.
    { rewrite <- Hj. cbn [JS.join].
      rewrite (app_assoc (firstn 28 r)), firstn_skipn. reflexivity. }
    split; [exact Hne |]. split; [exact Hp |].
    split; [rewrite length_firstn; lia |]. split; [exact Vk |].
    split; [| exact Ec].
    intros Hin. apply Hr. rewrite <- (firstn_skipn 28 r).
    apply in_or_app. right. exact Hin.
  - destruct a as [p [v] e c]. unfold ApiKey.toString, Key.toString.
    cbn [prefix key entropy checksum Key.value].
    intros (-> & Hp & Hu & Lv & Vv & He & Ec).
    destruct (calculateChecksum_hex (mkAPIKey p (Key.mk v) e c)) as [Lc Ac].
    rewrite <- Ec in Lc, Ac.
    pose proof (valid_plain_key_crockford v Vv Lv) as Av.
    assert (Hsplit : JS.split underscore
                       (p ++ [underscore] ++ v ++ e ++ [underscore] ++ c)
                     = [p; v ++ e; c]).
    { cbn [app]. rewrite split_app_separator by exact Hu.
      rewrite app_assoc, split_app_separator.
      - rewrite split_no_separator; [reflexivity |].
        apply upper_hex_not_underscore, Ac.
      - intros Hin. apply in_app_or in Hin. destruct Hin as [Hin | Hin];
          [exact (crockford_not_underscore v Av Hin) | exact (He Hin)]. }
    assert (Hne : p ++ [underscore] ++ v ++ e ++ [underscore] ++ c <> []).
    { destruct p; [contradiction | discriminate]. }
    destruct (parse_three_parts _ _ _ _ Hne Hsplit) as (_ & _ & _ & _ & _ & H).
    assert (F : firstn 28 (v ++ e) = v).
    { rewrite <- Lv, firstn_app, Nat.sub_diag, firstn_all. cbn [firstn].
      apply app_nil_r. }
    assert (S : skipn 28 (v ++ e) = e).
    { rewrite <- Lv, skipn_app, Nat.sub_diag, skipn_all. reflexivity. }
    rewrite F, S in H. apply H.
    + exact Hp.
    + rewrite length_app. lia.
    + apply isValidChecksum_iff. unfold ApiKey.isValidChecksum.
      rewrite Lc, Ac. reflexivity.
    + exact Vv.
    + exact Ec.
Qed.

Lemma byte_digit_facts (x : N) :
  (x < 16)%N ->
  Hex.isHexUnit (Hex.charAt Hex.hex x) = true
  /\ (Hex.charAt Hex.hex x =? Key.hyphen)%N = false.
Proof. intros H. nibble_cases x H; split; reflexivity. Qed.

Lemma withoutHyphens_hyphen (l : jsstring) :
  withoutHyphens (Key.hyphen :: l) = withoutHyphens l.
Proof. reflexivity. Qed.

Lemma withoutHyphens_other (c : N) (l : jsstring) :
  (c =? Key.hyphen)%N = false ->
  withoutHyphens (c :: l) = c :: withoutHyphens l.
Proof. intros H. unfold withoutHyphens. cbn [filter]. rewrite H. reflexivity. Qed.

(** [formatUUID] of sixteen bytes: a valid UUID text, whose hexadecimal
    digits are those of the bytes, in order. *)
Lemma formatUUID_16_bytes (buffer : Buffer.t) :
  length buffer = 16 ->
  isUUID (ApiKey.formatUUID buffer) = true
  /\ withoutHyphens (ApiKey.formatUUID buffer) = Buffer.toHex buffer.
Proof.
  intros L. explode buffer L.
  unfold ApiKey.formatUUID, Buffer.toHex, Buffer.byteToHex.
  cbn [flat_map app JS.slice JS.sliceFrom Nat.sub firstn skipn JS.join].
  repeat match goal with
         | |- context [Hex.charAt Hex.hex ?x] =>
             let d := fresh "d" in
             let Hd := fresh "Hd" in
             let F1 := fresh "F" in
             let F2 := fresh "F" in
             assert (Hd : (x < 16)%N) by (apply N.mod_lt; discriminate);
             destruct (byte_digit_facts x Hd) as [F1 F2];
             set (d := Hex.charAt Hex.hex x) in *; clearbody d; clear Hd
         end.
  split.
  - unfold isUUID. cbn [length Nat.eqb andb uuidUnitsFrom isUUIDHyphenIndex
                          orb Hex.isHexString forallb].
    rewrite !N.eqb_refl.
    repeat match goal with
           | H : Hex.isHexUnit _ = true |- _ => rewrite H; clear H
           end.
    reflexivity.
  - repeat first [ rewrite withoutHyphens_hyphen
                 | rewrite withoutHyphens_other by assumption ].
    reflexivity.
Qed.

(** ** Building a compound key: what can go wrong, and what comes out *)

Section KeyConstruction.

Variable randomBytes : nat -> Buffer.t.

(** X12: [newAPIKey] has three ways to fail and no other.  An empty prefix
    is refused first, whatever the UUID text; then a UUID text that has not
    36 characters; then a text one of whose four groups is efbbbf00, which
    the Key constructor refuses.  With a prefix that is not empty and any
    other text of 36 characters it returns a key with the prefix as given,
    the encoded key of 28 characters, an entropy of upper-case Crockford
    digits, and the checksum computed from these three, which is a
    well-formed checksum.  The UUID text is taken in Latin-1. *)
Theorem newAPIKey_outcome (p uuid : jsstring) (opt : Option) :
  isLatin1 uuid = true ->
  (p = [] ->
   ApiKey.newAPIKey randomBytes p uuid opt = Throw PrefixCannotBeEmpty)
  /\ (p <> [] -> length uuid <> 36 ->
      ApiKey.newAPIKey randomBytes p uuid opt = Throw InvalidUUIDLength)
  /\ (p <> [] -> length uuid = 36 -> hasMarkGroup uuid = true ->
      ApiKey.newAPIKey randomBytes p uuid opt = Throw InvalidKeyFormat)
  /\ (p <> [] -> length uuid = 36 -> hasMarkGroup uuid = false ->
      exists a,
        ApiKey.newAPIKey randomBytes p uuid opt = Ok a
        /\ prefix a = p
        /\ Key.encode uuid false = Ok (key a)
        /\ length (Key.toString (key a)) = 28
        /\ ApiKey.generateEntropy randomBytes (entropySize (opt DefaultConfig))
           = Ok (entropy a)
        /\ forallb isCrockfordUpper (entropy a) = true
        /\ checksum a = ApiKey.calculateChecksum a
        /\ ApiKey.isValidChecksum (checksum a) = true).
Proof.
  intros _. split; [intros ->; reflexivity |]. split; [| split].
  - intros Hp N. unfold ApiKey.newAPIKey. destruct p; [contradiction |].
    unfold Key.encode, Constants.UUID_LENGTH.
    apply Nat.eqb_neq in N. rewrite N. reflexivity.
  - intros Hp L M. unfold ApiKey.newAPIKey. destruct p; [contradiction |].
    rewrite (proj2 (encode_36_characters uuid false L) M). reflexivity.
  - intros Hp L M.
    destruct (proj1 (encode_36_characters uuid false L) M)
      as (p0 & p1 & p2 & p3 & (L0 & L1 & L2 & L3) & (A0 & A1 & A2 & A3) & E).
    destruct (joined_parts_valid p0 p1 p2 p3 L0 L1 L2 L3 A0 A1 A2 A3)
      as (_ & L28 & _).
    destruct (generateEntropy_alphabet randomBytes
                (entropySize (ApiKey.applyOptions opt))) as (e & He & Ae).
    set (k := Key.mk (JS.join [] [p0; p1; p2; p3])) in *.
    exists (ApiKey.new p k e []).
    assert (Hnew : ApiKey.newAPIKey randomBytes p uuid opt
                   = Ok (ApiKey.new p k e [])).
    { unfold ApiKey.newAPIKey. destruct p; [contradiction |].
      rewrite E. cbn [bind]. rewrite He. reflexivity. }
    destruct (calculateChecksum_hex (mkAPIKey p k e [])) as [Lc Ac].
    split; [exact Hnew |]. split; [reflexivity |].
    split; [exact E |]. split; [exact L28 |].
    split; [exact He |]. split; [exact Ae |].
    split; [reflexivity |].
    unfold ApiKey.isValidChecksum, Constants.CHECKSUM_LENGTH.
    cbn [ApiKey.new checksum]. rewrite Lc, Ac. reflexivity.
Qed.

(** X13: [newAPIKeyFromBytes] checks the number of bytes before anything
    else, the prefix included.  Sixteen bytes are written as a valid UUID
    text that holds their hexadecimal digits in order, and the answer is
    that of [newAPIKey] on this text: an empty prefix is refused; with any
    other prefix, bytes of which one of the four groups of four is
    EF BB BF 00 are refused with 'Invalid Key format', and all others give a
    key. *)
Theorem newAPIKeyFromBytes_outcome
  (p : jsstring) (uuid : Buffer.t) (opt : Option) :
  (length uuid <> 16 ->
   ApiKey.newAPIKeyFromBytes randomBytes p uuid opt = Throw UUIDNot16Bytes)
  /\ (length uuid = 16 ->
      isUUID (ApiKey.formatUUID uuid) = true
      /\ withoutHyphens (ApiKey.formatUUID uuid) = Buffer.toHex uuid
      /\ ApiKey.newAPIKeyFromBytes randomBytes p uuid opt
         = ApiKey.newAPIKey randomBytes p (ApiKey.formatUUID uuid) opt
      /\ (p = [] ->
          ApiKey.newAPIKeyFromBytes randomBytes p uuid opt
          = Throw PrefixCannotBeEmpty)
      /\ (p <> [] -> hasMarkGroup (ApiKey.formatUUID uuid) = true ->
          ApiKey.newAPIKeyFromBytes randomBytes p uuid opt
          = Throw InvalidKeyFormat)
      /\ (p <> [] -> hasMarkGroup (ApiKey.formatUUID uuid) = false ->
          exists a,
            ApiKey.newAPIKeyFromBytes randomBytes p uuid opt = Ok a
            /\ prefix a = p
            /\ Key.encode (ApiKey.formatUUID uuid) false = Ok (key a))).
Proof.
  unfold ApiKey.newAPIKeyFromBytes. split.
  - intros N. apply Nat.eqb_neq in N. rewrite N. reflexivity.
  - intros L. rewrite L. cbn [Nat.eqb negb].
    destruct (formatUUID_16_bytes uuid L) as [U W].
    split; [exact U |]. split; [exact W |]. split; [reflexivity |].
    split; [intros ->; reflexivity |].
    assert (L36 : length (ApiKey.formatUUID uuid) = 36).
    { unfold isUUID in U. apply andb_true_iff in U.
      apply Nat.eqb_eq, U. }
    split.
    + intros Hp M. unfold ApiKey.newAPIKey. destruct p; [contradiction |].
      rewrite (proj2 (encode_36_characters _ false L36) M). reflexivity.
    + intros Hp M.
      destruct (proj1 (encode_36_characters _ false L36) M)
        as (p0 & p1 & p2 & p3 & _ & _ & E).
      destruct (generateEntropy_alphabet randomBytes
                  (entropySize (ApiKey.applyOptions opt))) as (e & He & _).
      exists (ApiKey.new p (Key.mk (JS.join [] [p0; p1; p2; p3])) e []).
      split; [| split; [reflexivity | exact E]].
      unfold ApiKey.newAPIKey. destruct p; [contradiction |].
      rewrite E. cbn [bind]. rewrite He. reflexivity.
Qed.

End KeyConstruction.

(** ** The length of a Crockford text *)

Lemma dropLeading_head (c d : N) (l rest : list N) :
  Hex.dropLeading c l = d :: rest -> d <> c.
Proof.
  induction l as [| x l IH]; cbn [Hex.dropLeading]; [discriminate |].
  destruct (N.eqb_spec x c) as [-> | Hx]; [exact IH |].
  intros E. injection E as <- _. exact Hx.
Qed.

(** A number written without leading zeros is at least the power of the
    base at its first digit. *)
Lemma valueBE_lower (l : list N) :
  Hex.dropLeading 0%N l <> [] ->
  (32 ^ N.of_nat (length (Hex.dropLeading 0%N l) - 1)
   <= valueBE 32 (Hex.dropLeading 0%N l))%N.
Proof.
  destruct (Hex.dropLeading 0%N l) as [| d rest] eqn:E; [contradiction |].
  intros _. apply dropLeading_head in E.
  cbn [length valueBE]. replace (S (length rest) - 1) with (length rest) by lia.
  set (P := (32 ^ N.of_nat (length rest))%N). nia.
Qed.

(** The number of a buffer is below 256 to the number of its bytes from the
    first one that is not zero. *)
Lemma buffer_value_upper_bound (buf : Buffer.t) :
  (valueLE 16 (rev (nibbles buf))
   < 256 ^ N.of_nat
             (length buf
              - Hex.countLeading 0%N (map (fun b => b mod 256)%N buf)))%N.
Proof.
  induction buf as [| b buf IH]; cbn [length map Hex.countLeading];
    [cbn; lia |].
  change (nibbles (b :: buf))
    with ([(b / 16) mod 16; b mod 16]%N ++ nibbles buf).
  rewrite rev_app_distr, valueLE_app, length_rev.
  assert (Ln : length (nibbles buf) = 2 * length buf).
  { clear. induction buf as [| x buf IH]; [reflexivity |].
    change (nibbles (x :: buf))
      with ([(x / 16) mod 16; x mod 16]%N ++ nibbles buf).
    rewrite length_app, IH. cbn [length]. lia. }
  rewrite Ln.
  replace (16 ^ N.of_nat (2 * length buf))%N
    with (256 ^ N.of_nat (length buf))%N
    by (rewrite Nat2N.inj_mul, N.pow_mul_r; reflexivity).
  cbn [rev app valueLE].
  replace (b mod 16 + 16 * ((b / 16) mod 16 + 16 * 0))%N with (b mod 256)%N
    by lia.
  assert (Hall : (valueLE 16 (rev (nibbles buf))
                  < 256 ^ N.of_nat (length buf))%N).
  { eapply N.lt_le_trans; [exact IH |].
    apply N.pow_le_mono_r; lia. }
  destruct (N.eqb_spec (b mod 256) 0) as [E | E].
  - rewrite E, N.mul_0_r, N.add_0_r.
    replace (S (length buf)
             - S (Hex.countLeading 0%N (map (fun b => b mod 256)%N buf)))
      with (length buf
            - Hex.countLeading 0%N (map (fun b => b mod 256)%N buf)) by lia.
    exact IH.
  - replace (S (length buf) - 0) with (S (length buf)) by lia.
    rewrite Nat2N.inj_succ, N.pow_succ_r'.
    set (P := (256 ^ N.of_nat (length buf))%N) in *.
    assert (b mod 256 < 256)%N by (apply N.mod_lt; discriminate). nia.
Qed.

(** X14: [encodeBase32Crockford] never throws.  For a buffer of n bytes it
    returns upper-case Crockford digits, n of them at least; and, where the
    bytes do not start with EF BB BF 00, eight for every five bytes, rounded
    up, at most. *)
Theorem encodeBase32Crockford_length (buffer : Buffer.t) :
  exists r,
    ApiKey.encodeBase32Crockford buffer = Ok r
    /\ forallb isCrockfordUpper r = true
    /\ length buffer <= length r
    /\ (startsWithMarkAndZero (map (fun b => b mod 256)%N buffer) = false ->
        length r <= (8 * length buffer + 4) / 5).
Proof.
  unfold ApiKey.encodeBase32Crockford.
  destruct (C32check.c32encode _) as [r | e] eqn:E;
    [| rewrite c32encode_toHex in E; discriminate E].
  cbn [bind]. exists (JS.toUpperCase r).
  pose proof (c32encode_toHex_alphabet _ _ E) as A.
  pose proof (c32encode_length_ge_bytes _ _ E) as Lo.
  rewrite toUpperCase_crockford by exact A.
  split; [reflexivity |]. split; [exact A |]. split; [exact Lo |].
  intros M.
  rewrite (c32encode_toHex_plain _ M) in E. apply Ok_inj in E. subst r.
  rewrite length_app, repeat_length, length_map.
  set (z8 := Hex.countLeading 0%N (map (fun b => b mod 256)%N buffer)).
  set (digits := encodeNibbles (rev (nibbles buffer)) 0%N []).
  pose proof (Nat.div_mod_eq (8 * length buffer + 4) 5) as Hdiv.
  pose proof (Nat.mod_upper_bound (8 * length buffer + 4) 5) as Hmod.
  assert (Hz : z8 <= length buffer).
  { unfold z8. rewrite <- (length_map (fun b => b mod 256)%N buffer).
    apply countLeading_le. }
  destruct (Hex.dropLeading 0%N digits) as [| d rest] eqn:Ed.
  { cbn [length]. clearbody z8. lia. }
  assert (Hne : Hex.dropLeading 0%N digits <> []) by (rewrite Ed; discriminate).
  rewrite <- Ed.
  pose proof (valueBE_lower digits Hne) as Hlow.
  assert (Hval : valueBE 32 (Hex.dropLeading 0%N digits)
                 = valueLE 16 (rev (nibbles buffer))).
  { rewrite valueBE_dropLeading. unfold digits.
    rewrite encodeNibbles_value;
      [| apply Forall_rev, nibbles_lt_16 | lia ].
    cbn [valueBE length N.of_nat]. rewrite N.pow_0_r, N.pow_0_r, N.div_1_r.
    lia. }
  pose proof (buffer_value_upper_bound buffer) as Hup. fold z8 in Hup.
  rewrite Hval in Hlow.
  set (sig := length (Hex.dropLeading 0%N digits)) in *.
  assert (Hpow : (2 ^ (5 * N.of_nat (sig - 1))
                  < 2 ^ (8 * N.of_nat (length buffer - z8)))%N).
  { rewrite !N.pow_mul_r. change (2 ^ 5)%N with 32%N.
    change (2 ^ 8)%N with 256%N.
    eapply N.le_lt_trans; [exact Hlow | exact Hup]. }
  apply N.pow_lt_mono_r_iff in Hpow; [| lia].
  assert (1 <= sig) by (unfold sig; rewrite Ed; cbn [length]; lia).
  clearbody z8 sig. lia.
Qed.
(** ** From a UUID to a compound key and back *)

(** On a valid UUID text whose groups all start with a digit of 4 or more
    and are not efbbbf00, [Key.encode] returns a key that [toUUID] turns back
    into the text, in lower case. *)
Lemma encode_big_groups (uuid : jsstring) (h : bool) :
  isUUID uuid = true -> bigGroups uuid = true -> hasMarkGroup uuid = false ->
  exists k,
    Key.encode uuid h = Ok k
    /\ Key.toUUID k = Ok (JS.toLowerCase uuid).
Proof.
  intros H B M. valid_uuid_digits uuid H. mark_groups M.
  unfold bigGroups, bigGroupAt in B. cbn [nth_error] in B.
  repeat match goal with
         | E : Buffer.unhex ?c = Some _ |- _ =>
             match type of B with
             | context [Buffer.unhex c] => rewrite E in B
             end
         end.
  split_andb.
  repeat match goal with
         | Hle : (4 <=? _)%N = true |- _ => apply N.leb_le in Hle
         end.
  unfold Key.encode, Constants.UUID_LENGTH.
  cbn [length Nat.eqb negb JS.slice Nat.sub firstn skipn app].
  repeat (erewrite encodePart_any_group; [| eassumption ..]).
  cbn [bind].
  match goal with
  | |- context [JS.join []
                  [ map _ (groupDigits ?a0 ?a1 ?a2 ?a3 ?a4 ?a5 ?a6 ?a7);
                    map _ (groupDigits ?b0 ?b1 ?b2 ?b3 ?b4 ?b5 ?b6 ?b7);
                    map _ (groupDigits ?c0 ?c1 ?c2 ?c3 ?c4 ?c5 ?c6 ?c7);
                    map _ (groupDigits ?e0 ?e1 ?e2 ?e3 ?e4 ?e5 ?e6 ?e7) ]] =>
      assert (D0 : C32check.c32decode
                     (JS.toLowerCase
                        (map (Hex.charAt Hex.c32)
                           (groupDigits a0 a1 a2 a3 a4 a5 a6 a7)))
                   = Ok (map (Hex.charAt Hex.hex)
                           [a0; a1; a2; a3; a4; a5; a6; a7]))
        by (apply c32decode_group; try eapply unhex_lt; eassumption);
      assert (D1 : C32check.c32decode
                     (JS.toLowerCase
                        (map (Hex.charAt Hex.c32)
                           (groupDigits b0 b1 b2 b3 b4 b5 b6 b7)))
                   = Ok (map (Hex.charAt Hex.hex)
                           [b0; b1; b2; b3; b4; b5; b6; b7]))
        by (apply c32decode_group; try eapply unhex_lt; eassumption);
      assert (D2 : C32check.c32decode
                     (JS.toLowerCase
                        (map (Hex.charAt Hex.c32)
                           (groupDigits c0 c1 c2 c3 c4 c5 c6 c7)))
                   = Ok (map (Hex.charAt Hex.hex)
                           [c0; c1; c2; c3; c4; c5; c6; c7]))
        by (apply c32decode_group; try eapply unhex_lt; eassumption);
      assert (D3 : C32check.c32decode
                     (JS.toLowerCase
                        (map (Hex.charAt Hex.c32)
                           (groupDigits e0 e1 e2 e3 e4 e5 e6 e7)))
                   = Ok (map (Hex.charAt Hex.hex)
                           [e0; e1; e2; e3; e4; e5; e6; e7]))
        by (apply c32decode_group; try eapply unhex_lt; eassumption)
  end.
  match goal with
  | |- context [JS.join [] [?a; ?b; ?c; ?d]] =>
      assert (A0 : forallb isCrockfordUpper a = true)
        by (apply c32_digits_upper, groupDigits_lt_32;
            eapply unhex_lt; eassumption);
      assert (A1 : forallb isCrockfordUpper b = true)
        by (apply c32_digits_upper, groupDigits_lt_32;
            eapply unhex_lt; eassumption);
      assert (A2 : forallb isCrockfordUpper c = true)
        by (apply c32_digits_upper, groupDigits_lt_32;
            eapply unhex_lt; eassumption);
      assert (A3 : forallb isCrockfordUpper d = true)
        by (apply c32_digits_upper, groupDigits_lt_32;
            eapply unhex_lt; eassumption);
      destruct (joined_parts_valid a b c d eq_refl eq_refl eq_refl eq_refl
                  A0 A1 A2 A3) as (V28 & _ & V31 & _ & _);
      pose proof (toUUID_of_parts a b c d _ _ _ _ h
                    eq_refl eq_refl eq_refl eq_refl A0 A1 A2 A3
                    D0 D1 D2 D3) as T
  end.
  unfold Key.new in T |- *.
  destruct h; [rewrite V31 in T |- * | rewrite V28 in T |- *];
    cbn [negb bind] in T |- *; (eexists; split; [reflexivity |]);
    rewrite T;
    cbn [map JS.slice JS.sliceFrom Nat.sub firstn skipn app];
    unfold JS.toLowerCase; cbn [map];
    repeat match goal with
           | E : Buffer.unhex ?c = Some ?x |- _ =>
               rewrite (unhex_lower c x E); clear E
           end;
    reflexivity.
Qed.

Section IssueAndRecover.

Variable randomBytes : nat -> Buffer.t.

(** X15: from a UUID to a compound key and back.  For every prefix that is
    not empty and has no underscore, every valid UUID text whose four groups
    start with a hexadecimal digit of 4 or more and are not efbbbf00, every
    option and every output of the random source: [newAPIKey] returns a key,
    [parse] accepts its text, and [toUUID] of the key part of what [parse]
    returns is the UUID text in lower case. *)
Theorem newAPIKey_parse_toUUID (p uuid : jsstring) (opt : Option) :
  p <> [] -> ~ In underscore p ->
  isUUID uuid = true -> bigGroups uuid = true -> hasMarkGroup uuid = false ->
  exists a,
    ApiKey.newAPIKey randomBytes p uuid opt = Ok a
    /\ (a' <- ApiKey.parse (ApiKey.toString a) ;; Key.toUUID (key a'))
       = Ok (JS.toLowerCase uuid).
Proof.
  intros Hp Hu U B M.
  destruct (encode_big_groups uuid false U B M) as (k & Hk & Tk).
  destruct (encode_plain_key _ _ Hk) as (Lk & Vk & Ak).
  destruct (generateEntropy_alphabet randomBytes
              (entropySize (ApiKey.applyOptions opt))) as (e & He & Ae).
  exists (ApiKey.new p k e []). split.
  - unfold ApiKey.newAPIKey. destruct p; [contradiction |].
    rewrite Hk. cbn [bind]. rewrite He. reflexivity.
  - rewrite (parse_toString_new p k e Hp Hu Lk Vk Ak Ae).
    cbn [bind ApiKey.new key]. exact Tk.
Qed.

End IssueAndRecover.

(** ** Instances on the example texts *)

Lemma toUUID_never_throws_witness :
  Key.new exampleKey = Ok (Key.mk exampleKey)
  /\ exists u,
      Key.toUUID (Key.mk exampleKey) = Ok u
      /\ forallb (fun c => isLowerHexUnit c || (c =? Key.hyphen)%N) u = true
      /\ 36 <= length u
      /\ (length u = 36 <-> fullWidthParts exampleKey = true).
Proof.
  split; [vm_compute; reflexivity |].
  apply (toUUID_never_throws exampleKey (Key.mk exampleKey)).
  vm_compute; reflexivity.
Defined.

Lemma toUUID_encode_round_trip_witness :
  Key.new hyphenatedKey = Ok (Key.mk hyphenatedKey)
  /\ fullWidthParts hyphenatedKey = true
  /\ exists u,
      Key.toUUID (Key.mk hyphenatedKey) = Ok u
      /\ isUUID u = true
      /\ Key.encode u (length hyphenatedKey =? 31)
         = if hasMarkGroup u then Throw InvalidKeyFormat
           else Ok (Key.mk hyphenatedKey).
Proof.
  split; [vm_compute; reflexivity |].
  split; [vm_compute; reflexivity |].
  apply (toUUID_encode_round_trip hyphenatedKey (Key.mk hyphenatedKey));
    vm_compute; reflexivity.
Defined.

Lemma encode_toUUID_length_witness :
  isUUID timestampUUID = true
  /\ (hasMarkGroup timestampUUID = true ->
      encodeThenToUUID timestampUUID false = Throw InvalidKeyFormat)
  /\ (hasMarkGroup timestampUUID = false ->
      exists u,
        encodeThenToUUID timestampUUID false = Ok u
        /\ 36 <= length u
        /\ (length u = 36 <-> bigGroups timestampUUID = true)).
Proof.
  split; [reflexivity |].
  apply (encode_toUUID_length timestampUUID false). reflexivity.
Defined.

Lemma toUUID_ignores_hyphens_witness :
  Key.new hyphenatedKey = Ok (Key.mk hyphenatedKey)
  /\ exists k',
      Key.new (withoutHyphens hyphenatedKey) = Ok k'
      /\ length (Key.toString k') = 28
      /\ Key.toUUID k' = Key.toUUID (Key.mk hyphenatedKey).
Proof.
  split; [vm_compute; reflexivity |].
  apply (toUUID_ignores_hyphens hyphenatedKey (Key.mk hyphenatedKey)).
  vm_compute; reflexivity.
Defined.

Lemma encode_outcome_witness :
  isLatin1 noUUID = true
  /\ (length noUUID <> 36 -> Key.encode noUUID true = Throw InvalidUUIDLength)
  /\ (length noUUID = 36 -> hasMarkGroup noUUID = true ->
      Key.encode noUUID true = Throw InvalidKeyFormat)
  /\ (length noUUID = 36 -> hasMarkGroup noUUID = false ->
      exists k,
        Key.encode noUUID true = Ok k
        /\ Key.isValid (Key.toString k) = true
        /\ length (Key.toString k) = 31).
Proof.
  split; [reflexivity |].
  apply (encode_outcome noUUID true). reflexivity.
Defined.

Lemma encode_fixed_width_witness :
  isUUID exampleUUID = true
  /\ hasMarkGroup exampleUUID = false
  /\ exists k28 k31,
      Key.encode exampleUUID false = Ok k28
      /\ length (Key.toString k28) = 28
      /\ Key.encode exampleUUID true = Ok k31
      /\ length (Key.toString k31) = 31
      /\ (forall i c, nth_error (Key.toString k31) i = Some c ->
                      if isHyphenIndex i then c = Key.hyphen
                      else isCrockfordUpper c = true).
Proof.
  split; [reflexivity |].
  split; [reflexivity |].
  apply (encode_fixed_width exampleUUID); reflexivity.
Defined.

Lemma encode_skips_hyphen_places_witness :
  length exampleUUID = 36
  /\ length looseUUID = 36
  /\ (forall i, isUUIDHyphenIndex i = false ->
                nth_error exampleUUID i = nth_error looseUUID i)
  /\ Key.encode exampleUUID true = Key.encode looseUUID true.
Proof.
  assert (H : forall i, isUUIDHyphenIndex i = false ->
                        nth_error exampleUUID i = nth_error looseUUID i).
  { intros i Hi.
    do 36 (destruct i as [| i]; [first [reflexivity | discriminate Hi] |]).
    reflexivity. }
  split; [reflexivity |]. split; [reflexivity |]. split; [exact H |].
  apply (encode_skips_hyphen_places exampleUUID looseUUID true);
    [reflexivity | reflexivity | exact H].
Defined.

Lemma encode_ignores_case_witness :
  sameIgnoringCase upperCaseUUID exampleUUID
  /\ Key.encode upperCaseUUID false = Key.encode exampleUUID false.
Proof.
  split; [reflexivity |].
  apply (encode_ignores_case upperCaseUUID exampleUUID false). reflexivity.
Defined.

Lemma encode_injective_witness :
  isUUID upperCaseUUID = true
  /\ isUUID exampleUUID = true
  /\ Key.encode upperCaseUUID true = Ok (Key.mk hyphenatedKey)
  /\ Key.encode exampleUUID true = Ok (Key.mk hyphenatedKey)
  /\ sameIgnoringCase upperCaseUUID exampleUUID.
Proof.
  split; [reflexivity |]. split; [reflexivity |].
  split; [vm_compute; reflexivity |].
  split; [vm_compute; reflexivity |].
  apply (encode_injective upperCaseUUID exampleUUID true
           (Key.mk hyphenatedKey));
    [reflexivity | reflexivity | vm_compute; reflexivity
     | vm_compute; reflexivity].
Defined.

Lemma newAPIKey_outcome_witness :
  isLatin1 exampleUUID = true
  /\ (str "MYPREFIX" = [] ->
      ApiKey.newAPIKey (constantBytes 7) (str "MYPREFIX") exampleUUID
        Options.With128BitEntropy
      = Throw PrefixCannotBeEmpty)
  /\ (str "MYPREFIX" <> [] -> length exampleUUID <> 36 ->
      ApiKey.newAPIKey (constantBytes 7) (str "MYPREFIX") exampleUUID
        Options.With128BitEntropy
      = Throw InvalidUUIDLength)
  /\ (str "MYPREFIX" <> [] -> length exampleUUID = 36 ->
      hasMarkGroup exampleUUID = true ->
      ApiKey.newAPIKey (constantBytes 7) (str "MYPREFIX") exampleUUID
        Options.With128BitEntropy
      = Throw InvalidKeyFormat)
  /\ (str "MYPREFIX" <> [] -> length exampleUUID = 36 ->
      hasMarkGroup exampleUUID = false ->
      exists a,
        ApiKey.newAPIKey (constantBytes 7) (str "MYPREFIX") exampleUUID
          Options.With128BitEntropy
        = Ok a
        /\ prefix a = str "MYPREFIX"
        /\ Key.encode exampleUUID false = Ok (key a)
        /\ length (Key.toString (key a)) = 28
        /\ ApiKey.generateEntropy (constantBytes 7)
             (entropySize (Options.With128BitEntropy DefaultConfig))
           = Ok (entropy a)
        /\ forallb isCrockfordUpper (entropy a) = true
        /\ checksum a = ApiKey.calculateChecksum a
        /\ ApiKey.isValidChecksum (checksum a) = true).
Proof.
  split; [reflexivity |].
  apply (newAPIKey_outcome (constantBytes 7) (str "MYPREFIX") exampleUUID
           Options.With128BitEntropy).
  reflexivity.
Defined.

Lemma newAPIKey_parse_toUUID_witness :
  str "MYPREFIX" <> []
  /\ ~ In underscore (str "MYPREFIX")
  /\ isUUID exampleUUID = true
  /\ bigGroups exampleUUID = true
  /\ hasMarkGroup exampleUUID = false
  /\ exists a,
      ApiKey.newAPIKey (constantBytes 7) (str "MYPREFIX") exampleUUID
        Options.With256BitEntropy
      = Ok a
      /\ (a' <- ApiKey.parse (ApiKey.toString a) ;; Key.toUUID (key a'))
         = Ok (JS.toLowerCase exampleUUID).
Proof.
  split; [discriminate |].
  split; [not_in_text |].
  split; [reflexivity |].
  split; [reflexivity |].
  split; [reflexivity |].
  apply (newAPIKey_parse_toUUID (constantBytes 7) (str "MYPREFIX")
           exampleUUID Options.With256BitEntropy).
  - discriminate.
  - not_in_text.
  - reflexivity.
  - reflexivity.
  - reflexivity.
Defined.
